(** * The eBPF process resolver (pkg/security/resolvers/process/resolver_ebpf.go)

    A shallow embedding of the process cache of the security agent: the pid map,
    the entries it points to, the fork/exec insertion paths, the three-tier
    lookup, the janitor queue, the credential handlers and the argv/envp
    chunk parser, followed by the properties of the specification that are
    settled on it.

    Go pointers to cache entries are locations of an explicit heap, so that
    two references to one entry (the pid map and an ancestor link, say) see
    each other's writes.  Collaborators that live outside the file (decoders
    of the model package, the path, mount, container and user resolvers,
    procfs) are operations of type classes. *)

From Stdlib Require Import ZArith Lia String Ascii Strings.Byte.
From stdpp Require Import base gmap list strings.

Local Open Scope Z_scope.

(** ** Machine integers, time *)

(** [atomic.Int64]: additions wrap around in two's complement. *)
Definition int64_wrap (z : Z) : Z := (z + 2 ^ 63) mod 2 ^ 64 - 2 ^ 63.

Definition Inc (c : Z) : Z := int64_wrap (c + 1).
Definition Dec (c : Z) : Z := int64_wrap (c - 1).
Definition Add (c d : Z) : Z := int64_wrap (c + d).

(** [time.Time] as the number of nanoseconds since Go's zero instant, so that
    [IsZero] is the comparison with 0. *)
Abbreviation Time := Z (only parsing).

Definition IsZero (t : Time) : bool := t =? 0.
Definition Minute : Z := 60 * 1000000000.
Definition TimeAdd (t : Time) (d : Z) : Time := t + d.
Definition Before (t u : Time) : bool := t <? u.

(** Pointers to entries. *)
Abbreviation loc := nat (only parsing).

(** ** The data model (package model, as far as this file reads or writes it) *)

Inductive error : Type :=
  | ErrInvalidKeyPath (inode mountID : Z)
  | ErrPathResolution (err : error)
  | ErrWrapped (msg : string) (err : error)
  | ErrOther (msg : string).

(** Where an entry was built from ([model.ProcessCacheEntryFrom...]). *)
Inductive Source : Type :=
  | ProcessCacheEntryFromUnknown
  | ProcessCacheEntryFromEvent
  | ProcessCacheEntryFromKernelMap
  | ProcessCacheEntryFromProcFS
  | ProcessCacheEntryFromSnapshot.

Inductive MountSource : Type :=
  | MountSourceUnknown | MountSourceMountID | MountSourceDevice | MountSourceSnapshot.

Inductive MountOrigin : Type :=
  | MountOriginUnknown | MountOriginProcfs | MountOriginEvent
  | MountOriginUnshare | MountOriginFsmount | MountOriginOpenTree.

Record PIDContext : Type := mkPIDContext {
  Pid : Z;
  Tid : Z;
  NetNS : Z;
  IsKworker : bool;
  ExecInode : Z
}.

Record FileFields : Type := mkFileFields {
  Inode : Z;
  MountID : Z;
  Device : Z;
  Flags : Z
}.

Record FileEvent : Type := mkFileEvent {
  fileFields : FileFields;
  PathnameStr : string;
  BasenameStr : string;
  Filesystem : string;
  MountPath : string;
  MountSource_ : MountSource;
  MountOrigin_ : MountOrigin
}.

Record Credentials : Type := mkCredentials {
  UID : Z; GID : Z;
  User : string; Group : string;
  EUID : Z; EGID : Z;
  EUser : string; EGroup : string;
  FSUID : Z; FSGID : Z;
  FSUser : string; FSGroup : string;
  AUID : Z;
  CapEffective : Z; CapPermitted : Z
}.

Record PathKey : Type := mkPathKey { pkMountID : Z; pkInode : Z }.

Record CGroupContext : Type := mkCGroupContext {
  CGroupID : string;
  CGroupFlags : Z;
  CGroupFile : PathKey
}.

Record ContainerContext : Type := mkContainerContext {
  ccContainerID : string
}.

Record ArgsEntry : Type := mkArgsEntry {
  Values : list string;
  Truncated : bool
}.

Record AWSSecurityCredentials : Type := mkAWSSecurityCredentials {
  AccessKeyID : string;
  AWSType : string;
  Expiration : Time
}.

Record ProcessCacheEntry : Type := mkProcessCacheEntry {
  pidContext : PIDContext;
  Cookie : Z;
  PPid : Z;
  fileEvent : FileEvent;
  linuxBinprm : FileEvent;
  ContainerID : string;
  CGroup : CGroupContext;
  ExecTime : Time;
  ForkTime : Time;
  ExitTime : Time;
  Comm : string;
  TTYName : string;
  credentials : Credentials;
  argsEntry : option ArgsEntry;
  envsEntry : option ArgsEntry;
  ArgsID : Z;
  EnvsID : Z;
  ArgsTruncated : bool;
  EnvsTruncated : bool;
  SymlinkPathnameStr : string * string;
  SymlinkBasenameStr : string;
  IsThread : bool;
  IsParentMissing : bool;
  Source_ : Source;
  Ancestor : option loc;
  AWSSecurityCredentials_ : list AWSSecurityCredentials;
  refCount : Z
}.

Global Instance Source_eq_dec : EqDecision Source.
Proof. solve_decision. Defined.
Global Instance error_eq_dec : EqDecision error.
Proof. solve_decision. Defined.
Global Instance MountSource_eq_dec : EqDecision MountSource.
Proof. solve_decision. Defined.
Global Instance MountOrigin_eq_dec : EqDecision MountOrigin.
Proof. solve_decision. Defined.
Global Instance PIDContext_eq_dec : EqDecision PIDContext.
Proof. solve_decision. Defined.
Global Instance FileFields_eq_dec : EqDecision FileFields.
Proof. solve_decision. Defined.
Global Instance FileEvent_eq_dec : EqDecision FileEvent.
Proof. solve_decision. Defined.

(** The zero values Go gives to freshly allocated structs. *)
Definition zeroPIDContext : PIDContext := mkPIDContext 0 0 0 false 0.
Definition zeroFileFields : FileFields := mkFileFields 0 0 0 0.
Definition zeroFileEvent : FileEvent :=
  mkFileEvent zeroFileFields "" "" "" "" MountSourceUnknown MountOriginUnknown.
Definition zeroCredentials : Credentials :=
  mkCredentials 0 0 "" "" 0 0 "" "" 0 0 "" "" 0 0 0.
Definition zeroCGroup : CGroupContext := mkCGroupContext "" 0 (mkPathKey 0 0).
Definition zeroEntry : ProcessCacheEntry :=
  mkProcessCacheEntry zeroPIDContext 0 0 zeroFileEvent zeroFileEvent "" zeroCGroup
    0 0 0 "" "" zeroCredentials None None 0 0 false false ("", "") "" false
    false ProcessCacheEntryFromUnknown None [] 0.

(** ** Field updates

    [set_F v x] is [x] with field [F] replaced by [v]. *)

Definition set_Tid v (x : PIDContext) : PIDContext :=
  mkPIDContext (x.(Pid)) v (x.(NetNS)) (x.(IsKworker)) (x.(ExecInode)).
Definition set_IsKworker v (x : PIDContext) : PIDContext :=
  mkPIDContext (x.(Pid)) (x.(Tid)) (x.(NetNS)) v (x.(ExecInode)).
Definition set_PathnameStr v (x : FileEvent) : FileEvent :=
  mkFileEvent (x.(fileFields)) v (x.(BasenameStr)) (x.(Filesystem)) (x.(MountPath))
    (x.(MountSource_)) (x.(MountOrigin_)).
Definition set_BasenameStr v (x : FileEvent) : FileEvent :=
  mkFileEvent (x.(fileFields)) (x.(PathnameStr)) v (x.(Filesystem)) (x.(MountPath))
    (x.(MountSource_)) (x.(MountOrigin_)).
Definition set_Filesystem v (x : FileEvent) : FileEvent :=
  mkFileEvent (x.(fileFields)) (x.(PathnameStr)) (x.(BasenameStr)) v (x.(MountPath))
    (x.(MountSource_)) (x.(MountOrigin_)).
Definition set_MountPath v (x : FileEvent) : FileEvent :=
  mkFileEvent (x.(fileFields)) (x.(PathnameStr)) (x.(BasenameStr)) (x.(Filesystem)) v
    (x.(MountSource_)) (x.(MountOrigin_)).
Definition set_MountSource v (x : FileEvent) : FileEvent :=
  mkFileEvent (x.(fileFields)) (x.(PathnameStr)) (x.(BasenameStr)) (x.(Filesystem))
    (x.(MountPath)) v (x.(MountOrigin_)).
Definition set_MountOrigin v (x : FileEvent) : FileEvent :=
  mkFileEvent (x.(fileFields)) (x.(PathnameStr)) (x.(BasenameStr)) (x.(Filesystem))
    (x.(MountPath)) (x.(MountSource_)) v.
Definition set_CGroupID v (x : CGroupContext) : CGroupContext :=
  mkCGroupContext v (x.(CGroupFlags)) (x.(CGroupFile)).
Definition set_CGroupFlags v (x : CGroupContext) : CGroupContext :=
  mkCGroupContext (x.(CGroupID)) v (x.(CGroupFile)).
Definition set_pidContext v (x : ProcessCacheEntry) : ProcessCacheEntry :=
  mkProcessCacheEntry v (x.(Cookie)) (x.(PPid)) (x.(fileEvent)) (x.(linuxBinprm))
    (x.(ContainerID)) (x.(CGroup)) (x.(ExecTime)) (x.(ForkTime)) (x.(ExitTime)) (x.(Comm))
    (x.(TTYName)) (x.(credentials)) (x.(argsEntry)) (x.(envsEntry)) (x.(ArgsID)) (x.(EnvsID))
    (x.(ArgsTruncated)) (x.(EnvsTruncated)) (x.(SymlinkPathnameStr)) (x.(SymlinkBasenameStr))
    (x.(IsThread)) (x.(IsParentMissing)) (x.(Source_)) (x.(Ancestor))
    (x.(AWSSecurityCredentials_)) (x.(refCount)).
Definition set_Cookie v (x : ProcessCacheEntry) : ProcessCacheEntry :=
  mkProcessCacheEntry (x.(pidContext)) v (x.(PPid)) (x.(fileEvent)) (x.(linuxBinprm))
    (x.(ContainerID)) (x.(CGroup)) (x.(ExecTime)) (x.(ForkTime)) (x.(ExitTime)) (x.(Comm))
    (x.(TTYName)) (x.(credentials)) (x.(argsEntry)) (x.(envsEntry)) (x.(ArgsID)) (x.(EnvsID))
    (x.(ArgsTruncated)) (x.(EnvsTruncated)) (x.(SymlinkPathnameStr)) (x.(SymlinkBasenameStr))
    (x.(IsThread)) (x.(IsParentMissing)) (x.(Source_)) (x.(Ancestor))
    (x.(AWSSecurityCredentials_)) (x.(refCount)).
Definition set_fileEvent v (x : ProcessCacheEntry) : ProcessCacheEntry :=
  mkProcessCacheEntry (x.(pidContext)) (x.(Cookie)) (x.(PPid)) v (x.(linuxBinprm))
    (x.(ContainerID)) (x.(CGroup)) (x.(ExecTime)) (x.(ForkTime)) (x.(ExitTime)) (x.(Comm))
    (x.(TTYName)) (x.(credentials)) (x.(argsEntry)) (x.(envsEntry)) (x.(ArgsID)) (x.(EnvsID))
    (x.(ArgsTruncated)) (x.(EnvsTruncated)) (x.(SymlinkPathnameStr)) (x.(SymlinkBasenameStr))
    (x.(IsThread)) (x.(IsParentMissing)) (x.(Source_)) (x.(Ancestor))
    (x.(AWSSecurityCredentials_)) (x.(refCount)).
Definition set_linuxBinprm v (x : ProcessCacheEntry) : ProcessCacheEntry :=
  mkProcessCacheEntry (x.(pidContext)) (x.(Cookie)) (x.(PPid)) (x.(fileEvent)) v
    (x.(ContainerID)) (x.(CGroup)) (x.(ExecTime)) (x.(ForkTime)) (x.(ExitTime)) (x.(Comm))
    (x.(TTYName)) (x.(credentials)) (x.(argsEntry)) (x.(envsEntry)) (x.(ArgsID)) (x.(EnvsID))
    (x.(ArgsTruncated)) (x.(EnvsTruncated)) (x.(SymlinkPathnameStr)) (x.(SymlinkBasenameStr))
    (x.(IsThread)) (x.(IsParentMissing)) (x.(Source_)) (x.(Ancestor))
    (x.(AWSSecurityCredentials_)) (x.(refCount)).
Definition set_CGroup v (x : ProcessCacheEntry) : ProcessCacheEntry :=
  mkProcessCacheEntry (x.(pidContext)) (x.(Cookie)) (x.(PPid)) (x.(fileEvent))
    (x.(linuxBinprm)) (x.(ContainerID)) v (x.(ExecTime)) (x.(ForkTime)) (x.(ExitTime))
    (x.(Comm)) (x.(TTYName)) (x.(credentials)) (x.(argsEntry)) (x.(envsEntry)) (x.(ArgsID))
    (x.(EnvsID)) (x.(ArgsTruncated)) (x.(EnvsTruncated)) (x.(SymlinkPathnameStr))
    (x.(SymlinkBasenameStr)) (x.(IsThread)) (x.(IsParentMissing)) (x.(Source_)) (x.(Ancestor))
    (x.(AWSSecurityCredentials_)) (x.(refCount)).
Definition set_ExecTime v (x : ProcessCacheEntry) : ProcessCacheEntry :=
  mkProcessCacheEntry (x.(pidContext)) (x.(Cookie)) (x.(PPid)) (x.(fileEvent))
    (x.(linuxBinprm)) (x.(ContainerID)) (x.(CGroup)) v (x.(ForkTime)) (x.(ExitTime)) (x.(Comm))
    (x.(TTYName)) (x.(credentials)) (x.(argsEntry)) (x.(envsEntry)) (x.(ArgsID)) (x.(EnvsID))
    (x.(ArgsTruncated)) (x.(EnvsTruncated)) (x.(SymlinkPathnameStr)) (x.(SymlinkBasenameStr))
    (x.(IsThread)) (x.(IsParentMissing)) (x.(Source_)) (x.(Ancestor))
    (x.(AWSSecurityCredentials_)) (x.(refCount)).
Definition set_ForkTime v (x : ProcessCacheEntry) : ProcessCacheEntry :=
  mkProcessCacheEntry (x.(pidContext)) (x.(Cookie)) (x.(PPid)) (x.(fileEvent))
    (x.(linuxBinprm)) (x.(ContainerID)) (x.(CGroup)) (x.(ExecTime)) v (x.(ExitTime)) (x.(Comm))
    (x.(TTYName)) (x.(credentials)) (x.(argsEntry)) (x.(envsEntry)) (x.(ArgsID)) (x.(EnvsID))
    (x.(ArgsTruncated)) (x.(EnvsTruncated)) (x.(SymlinkPathnameStr)) (x.(SymlinkBasenameStr))
    (x.(IsThread)) (x.(IsParentMissing)) (x.(Source_)) (x.(Ancestor))
    (x.(AWSSecurityCredentials_)) (x.(refCount)).
Definition set_ExitTime v (x : ProcessCacheEntry) : ProcessCacheEntry :=
  mkProcessCacheEntry (x.(pidContext)) (x.(Cookie)) (x.(PPid)) (x.(fileEvent))
    (x.(linuxBinprm)) (x.(ContainerID)) (x.(CGroup)) (x.(ExecTime)) (x.(ForkTime)) v (x.(Comm))
    (x.(TTYName)) (x.(credentials)) (x.(argsEntry)) (x.(envsEntry)) (x.(ArgsID)) (x.(EnvsID))
    (x.(ArgsTruncated)) (x.(EnvsTruncated)) (x.(SymlinkPathnameStr)) (x.(SymlinkBasenameStr))
    (x.(IsThread)) (x.(IsParentMissing)) (x.(Source_)) (x.(Ancestor))
    (x.(AWSSecurityCredentials_)) (x.(refCount)).
Definition set_TTYName v (x : ProcessCacheEntry) : ProcessCacheEntry :=
  mkProcessCacheEntry (x.(pidContext)) (x.(Cookie)) (x.(PPid)) (x.(fileEvent))
    (x.(linuxBinprm)) (x.(ContainerID)) (x.(CGroup)) (x.(ExecTime)) (x.(ForkTime))
    (x.(ExitTime)) (x.(Comm)) v (x.(credentials)) (x.(argsEntry)) (x.(envsEntry)) (x.(ArgsID))
    (x.(EnvsID)) (x.(ArgsTruncated)) (x.(EnvsTruncated)) (x.(SymlinkPathnameStr))
    (x.(SymlinkBasenameStr)) (x.(IsThread)) (x.(IsParentMissing)) (x.(Source_)) (x.(Ancestor))
    (x.(AWSSecurityCredentials_)) (x.(refCount)).
Definition set_credentials v (x : ProcessCacheEntry) : ProcessCacheEntry :=
  mkProcessCacheEntry (x.(pidContext)) (x.(Cookie)) (x.(PPid)) (x.(fileEvent))
    (x.(linuxBinprm)) (x.(ContainerID)) (x.(CGroup)) (x.(ExecTime)) (x.(ForkTime))
    (x.(ExitTime)) (x.(Comm)) (x.(TTYName)) v (x.(argsEntry)) (x.(envsEntry)) (x.(ArgsID))
    (x.(EnvsID)) (x.(ArgsTruncated)) (x.(EnvsTruncated)) (x.(SymlinkPathnameStr))
    (x.(SymlinkBasenameStr)) (x.(IsThread)) (x.(IsParentMissing)) (x.(Source_)) (x.(Ancestor))
    (x.(AWSSecurityCredentials_)) (x.(refCount)).
Definition set_argsEntry v (x : ProcessCacheEntry) : ProcessCacheEntry :=
  mkProcessCacheEntry (x.(pidContext)) (x.(Cookie)) (x.(PPid)) (x.(fileEvent))
    (x.(linuxBinprm)) (x.(ContainerID)) (x.(CGroup)) (x.(ExecTime)) (x.(ForkTime))
    (x.(ExitTime)) (x.(Comm)) (x.(TTYName)) (x.(credentials)) v (x.(envsEntry)) (x.(ArgsID))
    (x.(EnvsID)) (x.(ArgsTruncated)) (x.(EnvsTruncated)) (x.(SymlinkPathnameStr))
    (x.(SymlinkBasenameStr)) (x.(IsThread)) (x.(IsParentMissing)) (x.(Source_)) (x.(Ancestor))
    (x.(AWSSecurityCredentials_)) (x.(refCount)).
Definition set_envsEntry v (x : ProcessCacheEntry) : ProcessCacheEntry :=
  mkProcessCacheEntry (x.(pidContext)) (x.(Cookie)) (x.(PPid)) (x.(fileEvent))
    (x.(linuxBinprm)) (x.(ContainerID)) (x.(CGroup)) (x.(ExecTime)) (x.(ForkTime))
    (x.(ExitTime)) (x.(Comm)) (x.(TTYName)) (x.(credentials)) (x.(argsEntry)) v (x.(ArgsID))
    (x.(EnvsID)) (x.(ArgsTruncated)) (x.(EnvsTruncated)) (x.(SymlinkPathnameStr))
    (x.(SymlinkBasenameStr)) (x.(IsThread)) (x.(IsParentMissing)) (x.(Source_)) (x.(Ancestor))
    (x.(AWSSecurityCredentials_)) (x.(refCount)).
Definition set_SymlinkPathnameStr v (x : ProcessCacheEntry) : ProcessCacheEntry :=
  mkProcessCacheEntry (x.(pidContext)) (x.(Cookie)) (x.(PPid)) (x.(fileEvent))
    (x.(linuxBinprm)) (x.(ContainerID)) (x.(CGroup)) (x.(ExecTime)) (x.(ForkTime))
    (x.(ExitTime)) (x.(Comm)) (x.(TTYName)) (x.(credentials)) (x.(argsEntry)) (x.(envsEntry))
    (x.(ArgsID)) (x.(EnvsID)) (x.(ArgsTruncated)) (x.(EnvsTruncated)) v (x.(SymlinkBasenameStr))
    (x.(IsThread)) (x.(IsParentMissing)) (x.(Source_)) (x.(Ancestor))
    (x.(AWSSecurityCredentials_)) (x.(refCount)).
Definition set_SymlinkBasenameStr v (x : ProcessCacheEntry) : ProcessCacheEntry :=
  mkProcessCacheEntry (x.(pidContext)) (x.(Cookie)) (x.(PPid)) (x.(fileEvent))
    (x.(linuxBinprm)) (x.(ContainerID)) (x.(CGroup)) (x.(ExecTime)) (x.(ForkTime))
    (x.(ExitTime)) (x.(Comm)) (x.(TTYName)) (x.(credentials)) (x.(argsEntry)) (x.(envsEntry))
    (x.(ArgsID)) (x.(EnvsID)) (x.(ArgsTruncated)) (x.(EnvsTruncated)) (x.(SymlinkPathnameStr)) v
    (x.(IsThread)) (x.(IsParentMissing)) (x.(Source_)) (x.(Ancestor))
    (x.(AWSSecurityCredentials_)) (x.(refCount)).
Definition set_IsThread v (x : ProcessCacheEntry) : ProcessCacheEntry :=
  mkProcessCacheEntry (x.(pidContext)) (x.(Cookie)) (x.(PPid)) (x.(fileEvent))
    (x.(linuxBinprm)) (x.(ContainerID)) (x.(CGroup)) (x.(ExecTime)) (x.(ForkTime))
    (x.(ExitTime)) (x.(Comm)) (x.(TTYName)) (x.(credentials)) (x.(argsEntry)) (x.(envsEntry))
    (x.(ArgsID)) (x.(EnvsID)) (x.(ArgsTruncated)) (x.(EnvsTruncated)) (x.(SymlinkPathnameStr))
    (x.(SymlinkBasenameStr)) v (x.(IsParentMissing)) (x.(Source_)) (x.(Ancestor))
    (x.(AWSSecurityCredentials_)) (x.(refCount)).
Definition set_IsParentMissing v (x : ProcessCacheEntry) : ProcessCacheEntry :=
  mkProcessCacheEntry (x.(pidContext)) (x.(Cookie)) (x.(PPid)) (x.(fileEvent))
    (x.(linuxBinprm)) (x.(ContainerID)) (x.(CGroup)) (x.(ExecTime)) (x.(ForkTime))
    (x.(ExitTime)) (x.(Comm)) (x.(TTYName)) (x.(credentials)) (x.(argsEntry)) (x.(envsEntry))
    (x.(ArgsID)) (x.(EnvsID)) (x.(ArgsTruncated)) (x.(EnvsTruncated)) (x.(SymlinkPathnameStr))
    (x.(SymlinkBasenameStr)) (x.(IsThread)) v (x.(Source_)) (x.(Ancestor))
    (x.(AWSSecurityCredentials_)) (x.(refCount)).
Definition set_Source v (x : ProcessCacheEntry) : ProcessCacheEntry :=
  mkProcessCacheEntry (x.(pidContext)) (x.(Cookie)) (x.(PPid)) (x.(fileEvent))
    (x.(linuxBinprm)) (x.(ContainerID)) (x.(CGroup)) (x.(ExecTime)) (x.(ForkTime))
    (x.(ExitTime)) (x.(Comm)) (x.(TTYName)) (x.(credentials)) (x.(argsEntry)) (x.(envsEntry))
    (x.(ArgsID)) (x.(EnvsID)) (x.(ArgsTruncated)) (x.(EnvsTruncated)) (x.(SymlinkPathnameStr))
    (x.(SymlinkBasenameStr)) (x.(IsThread)) (x.(IsParentMissing)) v (x.(Ancestor))
    (x.(AWSSecurityCredentials_)) (x.(refCount)).
Definition set_Ancestor v (x : ProcessCacheEntry) : ProcessCacheEntry :=
  mkProcessCacheEntry (x.(pidContext)) (x.(Cookie)) (x.(PPid)) (x.(fileEvent))
    (x.(linuxBinprm)) (x.(ContainerID)) (x.(CGroup)) (x.(ExecTime)) (x.(ForkTime))
    (x.(ExitTime)) (x.(Comm)) (x.(TTYName)) (x.(credentials)) (x.(argsEntry)) (x.(envsEntry))
    (x.(ArgsID)) (x.(EnvsID)) (x.(ArgsTruncated)) (x.(EnvsTruncated)) (x.(SymlinkPathnameStr))
    (x.(SymlinkBasenameStr)) (x.(IsThread)) (x.(IsParentMissing)) (x.(Source_)) v
    (x.(AWSSecurityCredentials_)) (x.(refCount)).
Definition set_AWSSecurityCredentials v (x : ProcessCacheEntry) : ProcessCacheEntry :=
  mkProcessCacheEntry (x.(pidContext)) (x.(Cookie)) (x.(PPid)) (x.(fileEvent))
    (x.(linuxBinprm)) (x.(ContainerID)) (x.(CGroup)) (x.(ExecTime)) (x.(ForkTime))
    (x.(ExitTime)) (x.(Comm)) (x.(TTYName)) (x.(credentials)) (x.(argsEntry)) (x.(envsEntry))
    (x.(ArgsID)) (x.(EnvsID)) (x.(ArgsTruncated)) (x.(EnvsTruncated)) (x.(SymlinkPathnameStr))
    (x.(SymlinkBasenameStr)) (x.(IsThread)) (x.(IsParentMissing)) (x.(Source_)) (x.(Ancestor)) v
    (x.(refCount)).
Definition set_refCount v (x : ProcessCacheEntry) : ProcessCacheEntry :=
  mkProcessCacheEntry (x.(pidContext)) (x.(Cookie)) (x.(PPid)) (x.(fileEvent))
    (x.(linuxBinprm)) (x.(ContainerID)) (x.(CGroup)) (x.(ExecTime)) (x.(ForkTime))
    (x.(ExitTime)) (x.(Comm)) (x.(TTYName)) (x.(credentials)) (x.(argsEntry)) (x.(envsEntry))
    (x.(ArgsID)) (x.(EnvsID)) (x.(ArgsTruncated)) (x.(EnvsTruncated)) (x.(SymlinkPathnameStr))
    (x.(SymlinkBasenameStr)) (x.(IsThread)) (x.(IsParentMissing)) (x.(Source_)) (x.(Ancestor))
    (x.(AWSSecurityCredentials_)) v.

(** ** Collaborators

    What the resolver calls but does not define.  The decoders, encoders and
    predicates of package model, and the helpers of package utils, are
    operations of [Model]; the two Go interfaces the resolver holds
    ([spath.ResolverInterface], [mount.ResolverInterface]) and the resolvers it
    holds by pointer are classes of their own; [Procfs] is the host's /proc. *)

Record PathResolution : Type := mkPathResolution {
  prPathnameStr : string;
  prMountPath : string;
  prSource : MountSource;
  prOrigin : MountOrigin;
  prErr : option error
}.

Class Model : Type := {
  (** [model.MaxArgEnvSize] and [model.SizeOfCookie] *)
  MaxArgEnvSize : nat;
  SizeOfCookie : nat;
  (** [model.UnmarshalStringArray]: the values read, and the error if any *)
  UnmarshalStringArray : list byte → list string * option error;
  (** [ProcessCacheEntry.Equals]: the identity fingerprint of two entries agrees *)
  Equals : ProcessCacheEntry → ProcessCacheEntry → bool;
  (** The fields [Fork] and [Exec] copy from the parent (first argument) into
      the child (second argument); linking the ancestor is done below. *)
  forkCopy : ProcessCacheEntry → ProcessCacheEntry → ProcessCacheEntry;
  execCopy : ProcessCacheEntry → ProcessCacheEntry → ProcessCacheEntry;
  HasInterpreter : ProcessCacheEntry → bool;
  IsFileless : FileEvent → bool;
  (** [UnmarshalBinary] of the container and cgroup contexts: the context and
      the number of bytes read, or an error *)
  UnmarshalContainerContext : list byte → option (ContainerContext * nat);
  UnmarshalCGroupContext : list byte → option (CGroupContext * nat);
  UnmarshalProcEntryBinary : ProcessCacheEntry → list byte → option ProcessCacheEntry;
  UnmarshalPidCacheBinary : ProcessCacheEntry → list byte → option ProcessCacheEntry;
  MarshalProcCache : ProcessCacheEntry → Time → option (list byte);
  MarshalPidCache : ProcessCacheEntry → Time → option (list byte);
  (** helpers of this package and of utils that are defined in other files *)
  setPathname : FileEvent → string → FileEvent;
  IsBusybox : string → bool;
  GetProcessArgv0 : ProcessCacheEntry → string;
  pathBase : string → string;
  NewCookie : nat → Z;
  PidTTY : Z → string;
  GetCgroupFromContainer : string → Z → string
}.

Class PathResolverInterface : Type := {
  ResolveFileFieldsPath : FileFields → PIDContext → ContainerContext → PathResolution
}.

Class MountResolverInterface : Type := {
  ResolveFilesystem : Z → Z → Z → string → string * option error
}.

Class Resolvers : Type := {
  (** [container.Resolver.GetContainerContext] *)
  GetContainerContext : Z → option (string * Z);
  (** [usergroup.Resolver] *)
  ResolveUser : Z → string → string;
  ResolveGroup : Z → string → string;
  (** [ktime.Resolver] *)
  ApplyBootTime_ : Time → Time;
  GetBootTime : Time
}.

(** A process as gopsutil and [utils.GetFilledProcess] report it. *)
Record FilledProcess : Type := mkFilledProcess {
  fpPid : Z;
  fpPpid : Z
}.

Class Procfs : Type := {
  (** [process.NewProcess]: whether the process exists; [utils.GetFilledProcess] *)
  NewProcess : Z → bool;
  GetFilledProcess : Z → option FilledProcess;
  IsKThread : Z → Z → bool;
  (** [enrichEventFromProc] only reads the host (/proc, the exec_file_cache
      map, the resolvers above) and writes the fresh entry it is given: the
      entry it leaves, or the error it returns. *)
  enrichEventFromProc : ProcessCacheEntry → Z → FilledProcess → ProcessCacheEntry + error
}.


(** The part of [model.Event] that the handlers of this file read. *)
Record Event : Type := mkEvent {
  ProcessContext_Pid : Z;
  ProcessContext_Tid : Z;
  SetUID_UID : Z; SetUID_EUID : Z; SetUID_FSUID : Z;
  SetGID_GID : Z; SetGID_EGID : Z; SetGID_FSGID : Z;
  Capset_CapEffective : Z; Capset_CapPermitted : Z;
  LoginUIDWrite_AUID : Z;
  IMDS_AWS_SecurityCredentials : AWSSecurityCredentials
}.

(** [e.FieldHandlers] and [e.ResolveEventTime]. *)
Class FieldHandlers : Type := {
  ResolveSetuidUser : Event → string;
  ResolveSetuidEUser : Event → string;
  ResolveSetuidFSUser : Event → string;
  ResolveSetgidGroup : Event → string;
  ResolveSetgidEGroup : Event → string;
  ResolveSetgidFSGroup : Event → string;
  ResolveEventTime : Event → Z
}.

(** [statsd.ClientInterface], and the metric names and tags of package metrics. *)
Class Statsd : Type := {
  Gauge : string → Z → list string → option error;
  Count : string → Z → list string → option error;
  MetricProcessResolverCacheSize : string;
  MetricProcessResolverReferenceCount : string;
  MetricProcessResolverHits : string;
  MetricProcessResolverMiss : string;
  MetricProcessResolverAdded : string;
  MetricProcessResolverFlushed : string;
  MetricProcessResolverPathError : string;
  MetricProcessResolverArgsTruncated : string;
  MetricProcessResolverArgsSize : string;
  MetricProcessResolverEnvsTruncated : string;
  MetricProcessResolverEnvsSize : string;
  MetricProcessEventBrokenLineage : string;
  MetricProcessInodeError : string;
  CacheTag : string;
  KernelMapsTag : string;
  ProcFSTag : string;
  ProcessSourceEventTags : list string;
  ProcessSourceKernelMapsTags : list string;
  ProcessSourceProcTags : list string
}.
(** ** The resolver *)

(** The counters of the resolver, all [*atomic.Int64]; [hitsStats] is a map
    from the three resolution tags to a counter each. *)
Inductive Counter : Type :=
  | cacheSize
  | hitsStats_CacheTag | hitsStats_KernelMapsTag | hitsStats_ProcFSTag
  | missStats
  | addedEntriesFromEvent | addedEntriesFromKernelMap | addedEntriesFromProcFS
  | flushedEntries | pathErrStats
  | argsTruncated | argsSize | envsTruncated | envsSize
  | brokenLineage | inodeErrStats.

Global Instance Counter_eq_dec : EqDecision Counter.
Proof. solve_decision. Defined.

Record argsEnvsCacheEntry : Type := mkArgsEnvsCacheEntry {
  values : list string;
  truncated : bool
}.

(** What the cgroup resolver was told, most recent first. *)
Inductive CGroupCall : Type :=
  | AddPID (pid : Z) (containerID : string)
  | DelPIDWithID (containerID : string) (pid : Z).

Definition Snapshotting : Z := 0.
Definition Snapshotted : Z := 1.

Definition procResolveMaxDepth : nat := 16.
Definition maxParallelArgsEnvs : nat := 512.
Definition numAllowedPIDsToResolvePerPeriod : Z := 1.
Definition procFallbackLimiterPeriod : Z := 30 * 1000000000.

Record EBPFResolver : Type := mkEBPFResolver {
  state : Z;
  ttyFallbackEnabled : bool;
  cgroupResolver : option (list CGroupCall);
  procCacheMap : gmap Z (list byte);
  pidCacheMap : gmap Z (list byte);
  stats : Counter → Z;
  (** the entries that pointers of type [*model.ProcessCacheEntry] point to *)
  heap : gmap nat ProcessCacheEntry;
  entryCache : gmap Z nat;
  (** [simplelru.LRU], most recently used first *)
  argsEnvsCache : list (Z * argsEnvsCacheEntry);
  (** the free list of [processCacheEntryPool] *)
  processCacheEntryPool : list nat;
  (** [utils.Limiter]: the pids it tracks with the instant of their last
      admitted call, most recently used first *)
  procFallbackLimiter : list (Z * Z);
  exitedQueue : list Z;
  (** the host: what [time.Now] reads, and how many cookies were drawn *)
  clock : Z;
  cookies : nat
}.

Definition set_state v (p : EBPFResolver) : EBPFResolver :=
  mkEBPFResolver v (p.(ttyFallbackEnabled)) (p.(cgroupResolver)) (p.(procCacheMap))
    (p.(pidCacheMap)) (p.(stats)) (p.(heap)) (p.(entryCache)) (p.(argsEnvsCache))
    (p.(processCacheEntryPool)) (p.(procFallbackLimiter)) (p.(exitedQueue)) (p.(clock))
    (p.(cookies)).
Definition set_cgroupResolver v (p : EBPFResolver) : EBPFResolver :=
  mkEBPFResolver (p.(state)) (p.(ttyFallbackEnabled)) v (p.(procCacheMap)) (p.(pidCacheMap))
    (p.(stats)) (p.(heap)) (p.(entryCache)) (p.(argsEnvsCache)) (p.(processCacheEntryPool))
    (p.(procFallbackLimiter)) (p.(exitedQueue)) (p.(clock)) (p.(cookies)).
Definition set_procCacheMap v (p : EBPFResolver) : EBPFResolver :=
  mkEBPFResolver (p.(state)) (p.(ttyFallbackEnabled)) (p.(cgroupResolver)) v (p.(pidCacheMap))
    (p.(stats)) (p.(heap)) (p.(entryCache)) (p.(argsEnvsCache)) (p.(processCacheEntryPool))
    (p.(procFallbackLimiter)) (p.(exitedQueue)) (p.(clock)) (p.(cookies)).
Definition set_pidCacheMap v (p : EBPFResolver) : EBPFResolver :=
  mkEBPFResolver (p.(state)) (p.(ttyFallbackEnabled)) (p.(cgroupResolver)) (p.(procCacheMap))
    v (p.(stats)) (p.(heap)) (p.(entryCache)) (p.(argsEnvsCache)) (p.(processCacheEntryPool))
    (p.(procFallbackLimiter)) (p.(exitedQueue)) (p.(clock)) (p.(cookies)).
Definition set_stats v (p : EBPFResolver) : EBPFResolver :=
  mkEBPFResolver (p.(state)) (p.(ttyFallbackEnabled)) (p.(cgroupResolver)) (p.(procCacheMap))
    (p.(pidCacheMap)) v (p.(heap)) (p.(entryCache)) (p.(argsEnvsCache))
    (p.(processCacheEntryPool)) (p.(procFallbackLimiter)) (p.(exitedQueue)) (p.(clock))
    (p.(cookies)).
Definition set_heap v (p : EBPFResolver) : EBPFResolver :=
  mkEBPFResolver (p.(state)) (p.(ttyFallbackEnabled)) (p.(cgroupResolver)) (p.(procCacheMap))
    (p.(pidCacheMap)) (p.(stats)) v (p.(entryCache)) (p.(argsEnvsCache))
    (p.(processCacheEntryPool)) (p.(procFallbackLimiter)) (p.(exitedQueue)) (p.(clock))
    (p.(cookies)).
Definition set_entryCache v (p : EBPFResolver) : EBPFResolver :=
  mkEBPFResolver (p.(state)) (p.(ttyFallbackEnabled)) (p.(cgroupResolver)) (p.(procCacheMap))
    (p.(pidCacheMap)) (p.(stats)) (p.(heap)) v (p.(argsEnvsCache)) (p.(processCacheEntryPool))
    (p.(procFallbackLimiter)) (p.(exitedQueue)) (p.(clock)) (p.(cookies)).
Definition set_argsEnvsCache v (p : EBPFResolver) : EBPFResolver :=
  mkEBPFResolver (p.(state)) (p.(ttyFallbackEnabled)) (p.(cgroupResolver)) (p.(procCacheMap))
    (p.(pidCacheMap)) (p.(stats)) (p.(heap)) (p.(entryCache)) v (p.(processCacheEntryPool))
    (p.(procFallbackLimiter)) (p.(exitedQueue)) (p.(clock)) (p.(cookies)).
Definition set_processCacheEntryPool v (p : EBPFResolver) : EBPFResolver :=
  mkEBPFResolver (p.(state)) (p.(ttyFallbackEnabled)) (p.(cgroupResolver)) (p.(procCacheMap))
    (p.(pidCacheMap)) (p.(stats)) (p.(heap)) (p.(entryCache)) (p.(argsEnvsCache)) v
    (p.(procFallbackLimiter)) (p.(exitedQueue)) (p.(clock)) (p.(cookies)).
Definition set_procFallbackLimiter v (p : EBPFResolver) : EBPFResolver :=
  mkEBPFResolver (p.(state)) (p.(ttyFallbackEnabled)) (p.(cgroupResolver)) (p.(procCacheMap))
    (p.(pidCacheMap)) (p.(stats)) (p.(heap)) (p.(entryCache)) (p.(argsEnvsCache))
    (p.(processCacheEntryPool)) v (p.(exitedQueue)) (p.(clock)) (p.(cookies)).
Definition set_exitedQueue v (p : EBPFResolver) : EBPFResolver :=
  mkEBPFResolver (p.(state)) (p.(ttyFallbackEnabled)) (p.(cgroupResolver)) (p.(procCacheMap))
    (p.(pidCacheMap)) (p.(stats)) (p.(heap)) (p.(entryCache)) (p.(argsEnvsCache))
    (p.(processCacheEntryPool)) (p.(procFallbackLimiter)) v (p.(clock)) (p.(cookies)).
Definition set_clock v (p : EBPFResolver) : EBPFResolver :=
  mkEBPFResolver (p.(state)) (p.(ttyFallbackEnabled)) (p.(cgroupResolver)) (p.(procCacheMap))
    (p.(pidCacheMap)) (p.(stats)) (p.(heap)) (p.(entryCache)) (p.(argsEnvsCache))
    (p.(processCacheEntryPool)) (p.(procFallbackLimiter)) (p.(exitedQueue)) v (p.(cookies)).
Definition set_cookies v (p : EBPFResolver) : EBPFResolver :=
  mkEBPFResolver (p.(state)) (p.(ttyFallbackEnabled)) (p.(cgroupResolver)) (p.(procCacheMap))
    (p.(pidCacheMap)) (p.(stats)) (p.(heap)) (p.(entryCache)) (p.(argsEnvsCache))
    (p.(processCacheEntryPool)) (p.(procFallbackLimiter)) (p.(exitedQueue)) (p.(clock)) v.

(** [NewEBPFResolver]: the resolver starts Snapshotting, with an empty cache
    and all counters at zero.  [now] is the instant the host clock shows. *)
Definition NewEBPFResolver (ttyFallbackEnabled : bool)
    (cgroupResolver : option (list CGroupCall)) (now : Z) : EBPFResolver :=
  mkEBPFResolver Snapshotting ttyFallbackEnabled cgroupResolver ∅ ∅ (λ _, 0) ∅ ∅ [] [] [] []
    now 0.

(** ** Methods as state transformers

    A method of [*EBPFResolver] is a function of the resolver that ends in a
    value and the resolver it leaves, in a Go panic (a nil or out-of-range
    access), or in the exhaustion of the recursion budget of [resolve]. *)

Inductive Outcome (A : Type) : Type :=
  | Done (a : A) (p : EBPFResolver)
  | Panic
  | OutOfFuel.
Arguments Done {A} a p.
Arguments Panic {A}.
Arguments OutOfFuel {A}.

Definition M (A : Type) : Type := EBPFResolver → Outcome A.

(** The value and the resolver a run ends with, if it ends normally. *)
Definition result {A} (o : Outcome A) : option A :=
  match o with Done a _ => Some a | _ => None end.

Definition final {A} (o : Outcome A) : option EBPFResolver :=
  match o with Done _ p => Some p | _ => None end.

Definition ret {A} (a : A) : M A := λ p, Done a p.

Definition bind {A B} (m : M A) (k : A → M B) : M B :=
  λ p, match m p with
       | Done a p' => k a p'
       | Panic => Panic
       | OutOfFuel => OutOfFuel
       end.

Notation "'let!' x ':=' m 'in' k" := (bind m (λ x, k))
  (at level 10, x name, m at level 100, k at level 200).
Notation "m '>>' k" := (bind m (λ _, k))
  (at level 90, right associativity).

Definition gets {A} (f : EBPFResolver → A) : M A := λ p, Done (f p) p.
Definition modify (f : EBPFResolver → EBPFResolver) : M unit := λ p, Done tt (f p).
Definition panic {A} : M A := λ _, Panic.

Definition when (b : bool) (m : M unit) : M unit := if b then m else ret tt.

Fixpoint forEach {A} (l : list A) (body : A → M unit) : M unit :=
  match l with
  | [] => ret tt
  | x :: l' => body x >> forEach l' body
  end.

(** Counters. *)
Definition bump (f : Z → Z) (c : Counter) (st : Counter → Z) : Counter → Z :=
  λ c', if decide (c = c') then f (st c') else st c'.

Definition counterInc (c : Counter) : M unit := modify (λ p, set_stats (bump Inc c (stats p)) p).
Definition counterDec (c : Counter) : M unit := modify (λ p, set_stats (bump Dec c (stats p)) p).
Definition counterAdd (c : Counter) (d : Z) : M unit :=
  modify (λ p, set_stats (bump (λ x, Add x d) c (stats p)) p).

(** Pointers: reading through one that points nowhere is a panic. *)
Definition load (l : nat) : M ProcessCacheEntry :=
  λ p, match heap p !! l with
       | Some e => Done e p
       | None => Panic
       end.

Definition store (l : nat) (e : ProcessCacheEntry) : M unit :=
  modify (λ p, set_heap (<[l := e]> (heap p)) p).

Definition update (l : nat) (f : ProcessCacheEntry → ProcessCacheEntry) : M unit :=
  let! e := load l in store l (f e).

(** *** The entry pool and the reference counts *)

(** Modelled from the spec: the pool and [Retain]/[Release] are defined
    outside this file.  Acquiring returns a zeroed entry with a reference count
    of 1 (a recycled slot if the free list has one); releasing decrements the
    count and, at zero, returns the slot to the free list and runs the hook
    installed by [NewEBPFResolver], which decrements [cacheSize]. *)
Definition Pool_Get : M nat :=
  λ p, match processCacheEntryPool p with
       | l :: free =>
           Done l (set_processCacheEntryPool free
                     (set_heap (<[l := set_refCount 1 zeroEntry]> (heap p)) p))
       | [] =>
           let l := fresh (dom (heap p)) in
           Done l (set_heap (<[l := set_refCount 1 zeroEntry]> (heap p)) p)
       end.

Definition Retain (l : nat) : M unit :=
  update l (λ e, set_refCount (refCount e + 1) e).

Definition Release (l : nat) : M unit :=
  let! e := load l in
  store l (set_refCount (refCount e - 1) e) >>
  when (negb (0 <? refCount e - 1))
    (counterDec cacheSize >>
     modify (λ p, set_processCacheEntryPool (l :: processCacheEntryPool p) p)).

(** Modelled from the spec: the methods of [model.ProcessCacheEntry] that
    link and end entries.  [Exit] records the exit time; an ancestor link holds
    a reference to the ancestor; [Fork] and [Exec] copy context from the
    parent and link it; [ApplyExecTimeOf] takes over the exec time only. *)
Definition Exit (l : nat) (exitTime : Z) : M unit := update l (set_ExitTime exitTime).

Definition SetAncestor (l parent : nat) : M unit :=
  update l (set_Ancestor (Some parent)) >> Retain parent.

Definition SetParentOfForkChild (l parent : nat) : M unit := SetAncestor l parent.

Definition ApplyExecTimeOf (l entry : nat) : M unit :=
  let! e := load entry in update l (set_ExecTime (ExecTime e)).

Section Resolver.
Context `{Model} `{PathResolverInterface} `{MountResolverInterface}
        `{Resolvers} `{Procfs} `{FieldHandlers} `{Statsd}.

Definition Fork (parent child : nat) : M unit :=
  let! pe := load parent in
  update child (forkCopy pe) >> SetAncestor child parent.

Definition Exec (prev entry : nat) : M unit :=
  let! pe := load prev in
  update entry (execCopy pe) >> SetAncestor entry prev.

(** *** DequeueExited, NewProcessCacheEntry, CountBrokenLineage *)

Definition NewProcessCacheEntry (pidContext : PIDContext) : M nat :=
  let! entry := Pool_Get in
  let! n := gets cookies in
  modify (set_cookies (S n)) >>
  update entry (λ e, set_Cookie (NewCookie n) (set_pidContext pidContext e)) >>
  ret entry.

Definition CountBrokenLineage : M unit := counterInc brokenLineage.

Definition cgroupDelPIDWithID (containerID : string) (pid : Z) : M unit :=
  modify (λ p, match cgroupResolver p with
               | Some calls => set_cgroupResolver (Some (DelPIDWithID containerID pid :: calls)) p
               | None => p
               end).

Definition deleteEntry (pid : Z) (exitTime : Z) : M unit :=
  let! cache := gets entryCache in
  match cache !! pid with
  | None => ret tt
  | Some entry =>
      let! e := load entry in
      cgroupDelPIDWithID (ContainerID e) (Pid (pidContext e)) >>
      Exit entry exitTime >>
      let! e := load entry in
      modify (λ p, set_entryCache (delete (Pid (pidContext e)) (entryCache p)) p) >>
      Release entry
  end.

Definition DeleteEntry (pid : Z) (exitTime : Z) : M unit := deleteEntry pid exitTime.

Definition delEntry (pid : Z) (exitTime : Z) : M unit :=
  deleteEntry pid exitTime >> counterInc flushedEntries.

(** The body of the loop of [DequeueExited]. *)
Definition dequeueExitedPid (now : Z) (pid : Z) : M unit :=
  let! cache := gets entryCache in
  match cache !! pid with
  | None => ret tt
  | Some entry =>
      let! e := load entry in
      if negb (IsZero (ExecTime e)) && Before (TimeAdd (ExecTime e) Minute) now
      then delEntry pid now
      else if negb (IsZero (ForkTime e)) && Before (TimeAdd (ForkTime e) Minute) now
      then delEntry pid now
      else if IsZero (ForkTime e) && IsZero (ExecTime e)
      then delEntry pid now
      else ret tt
  end.

Definition DequeueExited : M unit :=
  let! now := gets clock in
  let! queue := gets exitedQueue in
  forEach queue (dequeueExitedPid now) >>
  modify (set_exitedQueue []).

(** *** The argv/envp staging buffer *)

Record ArgsEnvsEvent : Type := mkArgsEnvsEvent {
  ID : Z;
  Size : nat;
  ValuesRaw : list byte
}.

(** Modelled from the spec: the string interner (defined in utils) replaces
    each element by its interned equivalent, a string of the same content. *)
Definition DeduplicateSlice (values : list string) : list string := values.

Definition parseStringArray (data : list byte) : list string * bool :=
  let truncated := false in
  let '(values, err) := UnmarshalStringArray data in
  let '(values, truncated) :=
    if bool_decide (err ≠ None) || bool_decide (length data = MaxArgEnvSize) then
      (if bool_decide (0 < length values)%nat
       then alter (λ v, v +:+ "...") (length values - 1)%nat values
       else values,
       true)
    else (values, truncated) in
  (DeduplicateSlice values, truncated).

(** [event.ValuesRaw[:event.Size]] *)
Definition valuesRawPrefix (event : ArgsEnvsEvent) : M (list byte) :=
  if bool_decide (Size event ≤ length (ValuesRaw event))%nat
  then ret (take (Size event) (ValuesRaw event))
  else panic.

Definition newArgsEnvsCacheEntry (event : ArgsEnvsEvent) : M argsEnvsCacheEntry :=
  let! data := valuesRawPrefix event in
  let '(values, truncated) := parseStringArray data in
  ret (mkArgsEnvsCacheEntry values truncated).

Definition extend (e : argsEnvsCacheEntry) (event : ArgsEnvsEvent) : M argsEnvsCacheEntry :=
  let! data := valuesRawPrefix event in
  let '(vals, trunc) := parseStringArray data in
  let e := if trunc then mkArgsEnvsCacheEntry (values e) true else e in
  ret (mkArgsEnvsCacheEntry (values e ++ vals) (truncated e)).

(** [simplelru.LRU] with [maxParallelArgsEnvs] slots: a hit moves the key to
    the front, an addition beyond the capacity evicts the oldest key. *)
Definition lruWithout {V} (id : Z) (c : list (Z * V)) : list (Z * V) :=
  filter (λ kv, kv.1 ≠ id) c.

Definition lruFind {V} (id : Z) (c : list (Z * V)) : option V :=
  snd <$> (snd <$> list_find (λ kv, kv.1 = id) c).

Definition lruGet (id : Z) : M (option argsEnvsCacheEntry) :=
  let! c := gets argsEnvsCache in
  match lruFind id c with
  | Some v => modify (set_argsEnvsCache ((id, v) :: lruWithout id c)) >> ret (Some v)
  | None => ret None
  end.

Definition lruAdd (id : Z) (v : argsEnvsCacheEntry) : M unit :=
  modify (λ p, set_argsEnvsCache
                 (take maxParallelArgsEnvs ((id, v) :: lruWithout id (argsEnvsCache p))) p).

Definition lruRemove (id : Z) : M unit :=
  modify (λ p, set_argsEnvsCache (lruWithout id (argsEnvsCache p)) p).

Definition UpdateArgsEnvs (event : ArgsEnvsEvent) : M unit :=
  let! found := lruGet (ID event) in
  match found with
  | Some list =>
      (* the cached entry is extended in place *)
      let! list' := extend list event in
      modify (λ p, set_argsEnvsCache ((ID event, list') :: lruWithout (ID event) (argsEnvsCache p)) p)
  | None =>
      let! e := newArgsEnvsCacheEntry event in
      lruAdd (ID event) e
  end.

Definition SetProcessArgs (pce : nat) : M unit :=
  let! e := load pce in
  let! found := lruGet (ArgsID e) in
  match found with
  | Some entry =>
      when (ArgsTruncated e) (counterInc argsTruncated) >>
      counterAdd argsSize (Z.of_nat (length (values entry))) >>
      update pce (set_argsEntry (Some (mkArgsEntry (values entry) (truncated entry)))) >>
      lruRemove (ArgsID e)
  | None => ret tt
  end.

Definition SetProcessEnvs (pce : nat) : M unit :=
  let! e := load pce in
  let! found := lruGet (EnvsID e) in
  match found with
  | Some entry =>
      when (EnvsTruncated e) (counterInc envsTruncated) >>
      counterAdd envsSize (Z.of_nat (length (values entry))) >>
      update pce (set_envsEntry (Some (mkArgsEntry (values entry) (truncated entry)))) >>
      lruRemove (EnvsID e)
  | None => ret tt
  end.

(** *** Path resolution *)

(** The loop of [resolveFileFieldsPath]: [last] holds the values of the
    previous iteration, which are returned when the budget is spent. *)
Fixpoint resolveFileFieldsPathLoop (maxDepthRetry : nat) (last : PathResolution)
    (e : FileFields) (pce : nat) (ctrCtx : ContainerContext) : M PathResolution :=
  match maxDepthRetry with
  | O => ret last
  | S maxDepthRetry' =>
      let! c := load pce in
      let r := ResolveFileFieldsPath e (pidContext c) ctrCtx in
      match prErr r with
      | None => ret r
      | Some _ =>
          let! cache := gets entryCache in
          match cache !! PPid c with
          | None => ret r
          | Some parent => resolveFileFieldsPathLoop maxDepthRetry' r e parent ctrCtx
          end
      end
  end.

Definition resolveFileFieldsPath (e : FileFields) (pce : nat) (ctrCtx : ContainerContext)
    : M PathResolution :=
  resolveFileFieldsPathLoop 3
    (mkPathResolution "" "" MountSourceUnknown MountOriginUnknown None) e pce ctrCtx.

(** [SetProcessPath] works on the file event it is given a pointer to: the
    file event it leaves comes first in the result, then the two values the Go
    function returns. *)
Definition onError (fileEvent : FileEvent) (pathnameStr : string) (err : error)
    : M (FileEvent * string * option error) :=
  let fileEvent := set_PathnameStr "" fileEvent in
  let fileEvent := set_BasenameStr "" fileEvent in
  counterInc pathErrStats >>
  ret (fileEvent, pathnameStr, Some err).

Definition SetProcessPath (fileEvent : FileEvent) (pce : nat) (ctrCtx : ContainerContext)
    : M (FileEvent * string * option error) :=
  if Inode (fileFields fileEvent) =? 0 then
    onError fileEvent ""
      (ErrInvalidKeyPath (Inode (fileFields fileEvent)) (MountID (fileFields fileEvent)))
  else
    let! r := resolveFileFieldsPath (fileFields fileEvent) pce ctrCtx in
    match prErr r with
    | Some err => onError fileEvent (prPathnameStr r) err
    | None =>
        let fileEvent := setPathname fileEvent (prPathnameStr r) in
        let fileEvent := set_MountPath (prMountPath r) fileEvent in
        let fileEvent := set_MountSource (prSource r) fileEvent in
        let fileEvent := set_MountOrigin (prOrigin r) fileEvent in
        ret (fileEvent, PathnameStr fileEvent, None)
    end.

Definition SetProcessSymlink (entry : nat) : M unit :=
  let! e := load entry in
  when (IsBusybox (PathnameStr (fileEvent e)))
    (let arg0 := GetProcessArgv0 e in
     let base := pathBase arg0 in
     update entry (λ e, set_SymlinkBasenameStr base
                          (set_SymlinkPathnameStr ("/bin/" +:+ base, "/usr/bin/" +:+ base) e))).

Definition SetProcessFilesystem (entry : nat) : M (string * option error) :=
  let! e := load entry in
  if negb (MountID (fileFields (fileEvent e)) =? 0) then
    match ResolveFilesystem (MountID (fileFields (fileEvent e))) (Device (fileFields (fileEvent e)))
            (Pid (pidContext e)) (ContainerID e) with
    | (_, Some err) => ret ("", Some err)
    | (fs, None) =>
        update entry (λ e, set_fileEvent (set_Filesystem fs (fileEvent e)) e) >>
        ret (fs, None)
    end
  else ret (Filesystem (fileEvent e), None).

Definition ApplyBootTime (entry : nat) : M unit :=
  update entry (λ e, set_ExecTime (ApplyBootTime_ (ExecTime e)) e) >>
  update entry (λ e, set_ForkTime (ApplyBootTime_ (ForkTime e)) e) >>
  update entry (λ e, set_ExitTime (ApplyBootTime_ (ExitTime e)) e).

Definition SetProcessTTY (pce : nat) : M string :=
  let! e := load pce in
  let! fallback := gets ttyFallbackEnabled in
  (if bool_decide (TTYName e = "") && fallback
   then update pce (set_TTYName (PidTTY (Pid (pidContext e))))
   else ret tt) >>
  let! e := load pce in
  ret (TTYName e).

Definition SetProcessUsersGroups (pce : nat) : M unit :=
  update pce (λ e,
    let c := credentials e in
    set_credentials
      {| UID := UID c; GID := GID c;
         User := ResolveUser (UID c) (ContainerID e);
         Group := ResolveGroup (GID c) (ContainerID e);
         EUID := EUID c; EGID := EGID c;
         EUser := ResolveUser (EUID c) (ContainerID e);
         EGroup := ResolveGroup (EGID c) (ContainerID e);
         FSUID := FSUID c; FSGID := FSGID c;
         FSUser := ResolveUser (FSUID c) (ContainerID e);
         FSGroup := ResolveGroup (FSGID c) (ContainerID e);
         AUID := AUID c;
         CapEffective := CapEffective c; CapPermitted := CapPermitted c |} e).

(** What [ResolveNewProcessCacheEntry] does once both paths are settled. *)
Definition resolveContextFields (entry : nat) : M (option error) :=
  SetProcessArgs entry >>
  SetProcessEnvs entry >>
  (let! _ := SetProcessTTY entry in
   SetProcessUsersGroups entry >>
   ApplyBootTime entry >>
   SetProcessSymlink entry >>
   let! r := SetProcessFilesystem entry in
   ret (snd r)).

Definition ResolveNewProcessCacheEntry (entry : nat) (ctrCtx : ContainerContext)
    : M (option error) :=
  let! e := load entry in
  let! r := SetProcessPath (fileEvent e) entry ctrCtx in
  update entry (set_fileEvent (r.1.1)) >>
  match r.2 with
  | Some err =>
      ret (Some (ErrPathResolution (ErrWrapped "failed to resolve exec path" err)))
  | None =>
      let! e := load entry in
      if HasInterpreter e then
        let! r := SetProcessPath (linuxBinprm e) entry ctrCtx in
        update entry (set_linuxBinprm (r.1.1)) >>
        match r.2 with
        | Some err =>
            ret (Some (ErrPathResolution (ErrWrapped "failed to resolve interpreter path" err)))
        | None => resolveContextFields entry
        end
      else
        update entry (λ e, set_linuxBinprm
                             (set_BasenameStr "" (set_PathnameStr "" (linuxBinprm e))) e) >>
        resolveContextFields entry
  end.

(** *** Insertion *)

Definition cgroupAddPID (e : ProcessCacheEntry) : M unit :=
  modify (λ p, match cgroupResolver p with
               | Some calls =>
                   if bool_decide (ContainerID e ≠ "")
                   then set_cgroupResolver (Some (AddPID (Pid (pidContext e)) (ContainerID e) :: calls)) p
                   else p
               | None => p
               end).

Definition insertEntry (entry : nat) (prev : option nat) (source : Source) : M unit :=
  update entry (set_Source source) >>
  let! e := load entry in
  modify (λ p, set_entryCache (<[Pid (pidContext e) := entry]> (entryCache p)) p) >>
  Retain entry >>
  match prev with
  | Some prev => Release prev
  | None => ret tt
  end >>
  let! e := load entry in
  cgroupAddPID e >>
  match source with
  | ProcessCacheEntryFromEvent => counterInc addedEntriesFromEvent
  | ProcessCacheEntryFromKernelMap => counterInc addedEntriesFromKernelMap
  | ProcessCacheEntryFromProcFS => counterInc addedEntriesFromProcFS
  | _ => ret tt
  end >>
  counterInc cacheSize.

(** [insertForkEntry] calls [resolve], which reaches [insertForkEntry] again
    through the kernel-map tier: the three are defined with [resolve] as a
    parameter first, and tied together by recursion on a budget below. *)
Definition ResolveFn : Type := Z → Z → Z → bool → M (option nat).

Definition insertForkEntryWith (resolve : ResolveFn)
    (entry : nat) (inode : Z) (source : Source) : M unit :=
  let! e := load entry in
  if Pid (pidContext e) =? 0 then ret tt else
  let! cache := gets entryCache in
  let prev := cache !! Pid (pidContext e) in
  match prev with
  | Some prev => Exit prev (ForkTime e)
  | None => ret tt
  end >>
  let! e := load entry in
  (if negb (Pid (pidContext e) =? 1) then
     let! cache := gets entryCache in
     let parent := cache !! PPid e in
     let! mismatch :=
       if (1 <=? PPid e) && negb (inode =? 0) then
         match parent with
         | None => ret true
         | Some parent =>
             let! pe := load parent in
             ret (negb (Inode (fileFields (fileEvent pe)) =? inode))
         end
       else ret false in
     let! parent :=
       if mismatch then
         let! candidate := resolve (PPid e) (PPid e) inode true in
         match candidate with
         | Some candidate => ret (Some candidate)
         | None =>
             update entry (set_IsParentMissing true) >>
             counterInc inodeErrStats >>
             ret parent
         end
       else ret parent in
     match parent with
     | Some parent => Fork parent entry
     | None => update entry (set_IsParentMissing true)
     end
   else ret tt) >>
  insertEntry entry prev source.

(** The inode check of [insertExecEntry] on an existing previous entry. *)
Definition checkExecInode (prev entry : nat) (inode : Z) : M unit :=
  let! pe := load prev in
  when (negb (inode =? 0) && negb (Inode (fileFields (fileEvent pe)) =? inode))
    (update entry (set_IsParentMissing true) >>
     counterInc inodeErrStats).

Definition insertExecEntry (entry : nat) (inode : Z) (source : Source) : M unit :=
  let! e := load entry in
  if Pid (pidContext e) =? 0 then ret tt else
  let! cache := gets entryCache in
  let prev := cache !! Pid (pidContext e) in
  match prev with
  | Some prev =>
      checkExecInode prev entry inode >>
      (* check exec bomb *)
      let! pe := load prev in
      let! e := load entry in
      if Equals pe e then ApplyExecTimeOf prev entry
      else Exec prev entry >> insertEntry entry (Some prev) source
  | None =>
      update entry (set_IsParentMissing true) >>
      insertEntry entry None source
  end.

(** *** The three tiers *)

Definition resolveFromCache (pid tid inode : Z) : M (option nat) :=
  let! cache := gets entryCache in
  match cache !! pid with
  | None => ret None
  | Some entry =>
      let! e := load entry in
      if negb (inode =? 0) && negb (inode =? Inode (fileFields (fileEvent e)))
      then ret None
      else
        update entry (λ e, set_pidContext (set_Tid tid (pidContext e)) e) >>
        ret (Some entry)
  end.

(** [binary.NativeEndian] on the little-endian hosts the agent runs on. *)
Definition leUint (bs : list byte) : Z :=
  foldr (λ b acc, Z.of_N (Byte.to_N b) + 256 * acc) 0 bs.

Definition resolveFromKernelMapsWith (resolve : ResolveFn) (pid tid inode : Z)
    : M (option nat) :=
  if pid =? 0 then ret None else
  let! pidCaches := gets pidCacheMap in
  match pidCaches !! pid with
  | None => ret None
  | Some pidCache =>
      (* first bytes are the actual cookie *)
      if negb (bool_decide (SizeOfCookie ≤ length pidCache)%nat) then panic else
      let! procCaches := gets procCacheMap in
      match procCaches !! leUint (take SizeOfCookie pidCache) with
      | None => ret None
      | Some procCache =>
          let! entry := NewProcessCacheEntry (mkPIDContext pid tid 0 false inode) in
          match UnmarshalContainerContext procCache with
          | None => ret None
          | Some (ctrCtx, read) =>
          match UnmarshalCGroupContext procCache with
          | None => ret None
          | Some (cgroupCtx, cgroupRead) =>
          if negb (bool_decide (read + cgroupRead ≤ length procCache)%nat) then panic else
          let! e := load entry in
          match UnmarshalProcEntryBinary e (drop (read + cgroupRead) procCache) with
          | None => ret None
          | Some e =>
          store entry e >>
          (* check that the cache entry correspond to the event *)
          if negb (Inode (fileFields (fileEvent e)) =? 0)
             && negb (Inode (fileFields (fileEvent e)) =? ExecInode (pidContext e))
          then ret None else
          match UnmarshalPidCacheBinary e pidCache with
          | None => ret None
          | Some e =>
          store entry e >>
          (* resolve paths and other context fields *)
          let! err := ResolveNewProcessCacheEntry entry ctrCtx in
          match err with
          | Some _ => ret None
          | None =>
          let! e := load entry in
          when (bool_decide (ContainerID e = ""))
            (match GetContainerContext pid with
             | Some (containerID, containerFlags) =>
                 update entry (λ e, set_CGroup
                   (set_CGroupID (GetCgroupFromContainer containerID containerFlags)
                      (set_CGroupFlags containerFlags (CGroup e))) e)
             | None => ret tt
             end) >>
          let! e := load entry in
          (if IsZero (ExecTime e)
           then insertForkEntryWith resolve entry (Inode (fileFields (fileEvent e)))
                  ProcessCacheEntryFromKernelMap
           else insertExecEntry entry 0 ProcessCacheEntryFromKernelMap) >>
          ret (Some entry)
          end end end end end
      end
  end.

(** Modelled from the spec: [utils.Limiter] is defined outside this file.  It
    admits one call per key and period, for up to 128 keys, and evicts the
    least recently used key when full. *)
Definition limiterSize : nat := 128.

Definition Allow (pid : Z) : M bool :=
  let! now := gets clock in
  let! l := gets procFallbackLimiter in
  match lruFind pid l with
  | Some t =>
      if now <? t + procFallbackLimiterPeriod
      then modify (set_procFallbackLimiter ((pid, t) :: lruWithout pid l)) >> ret false
      else modify (set_procFallbackLimiter ((pid, now) :: lruWithout pid l)) >> ret true
  | None =>
      modify (set_procFallbackLimiter (take limiterSize ((pid, now) :: l))) >>
      ret true
  end.

Definition uint32 (z : Z) : Z := z mod 2 ^ 32.
Definition int32 (z : Z) : Z := (z + 2 ^ 31) mod 2 ^ 32 - 2 ^ 31.

Definition setAncestor (pce : nat) : M unit :=
  let! e := load pce in
  let! cache := gets entryCache in
  match cache !! PPid e with
  | Some parent => SetAncestor pce parent
  | None => ret tt
  end.

(** [syncCache] for the process [proc] (given by its pid, an int32). *)
Definition syncCache (proc : Z) (filledProc : FilledProcess) (source : Source)
    : M (option nat * bool) :=
  let pid := uint32 proc in
  (* Check if an entry is already in cache for the given pid. *)
  let! cache := gets entryCache in
  match cache !! pid with
  | Some entry => setAncestor entry >> ret (Some entry, false)
  | None =>
      let! entry := NewProcessCacheEntry (mkPIDContext pid pid 0 false 0) in
      update entry (set_IsThread true) >>
      (* update the cache entry *)
      let! e := load entry in
      match enrichEventFromProc e proc filledProc with
      | inr _ => Release entry >> ret (None, false)
      | inl e =>
          store entry e >>
          let! cache := gets entryCache in
          match cache !! PPid e with
          | Some parent =>
              let! pe := load parent in
              if Equals pe e then SetParentOfForkChild entry parent
              else SetAncestor entry parent
          | None => ret tt
          end >>
          let! cache := gets entryCache in
          insertEntry entry (cache !! pid) source >>
          let bootTime := GetBootTime in
          (* insert new entry in kernel maps *)
          let! e := load entry in
          match MarshalProcCache e bootTime with
          | Some procCacheEntryB =>
              modify (λ p, set_procCacheMap (<[Cookie e := procCacheEntryB]> (procCacheMap p)) p)
          | None => ret tt
          end >>
          match MarshalPidCache e bootTime with
          | Some pidCacheEntryB =>
              modify (λ p, set_pidCacheMap (<[pid := pidCacheEntryB]> (pidCacheMap p)) p)
          | None => ret tt
          end >>
          ret (Some entry, true)
      end
  end.

Definition SyncCache (proc : Z) : M bool :=
  match GetFilledProcess proc with
  | None => ret false
  | Some filledProc =>
      let! r := syncCache proc filledProc ProcessCacheEntryFromSnapshot in
      ret (snd r)
  end.

Fixpoint resolveFromProcfs (pid : Z) (maxDepth : nat) : M (option nat) :=
  match maxDepth with
  | O => ret None
  | S maxDepth' =>
      if pid =? 0 then ret None else
      if negb (NewProcess (int32 pid)) then ret None else
      match GetFilledProcess (int32 pid) with
      | None => ret None
      | Some filledProc =>
          (* ignore kthreads *)
          if IsKThread (uint32 (fpPpid filledProc)) (uint32 (fpPid filledProc)) then ret None else
          let! r := syncCache (int32 pid) filledProc ProcessCacheEntryFromProcFS in
          match r with
          | (Some entry, inserted) =>
              (* consider kworker processes with 0 as ppid *)
              update entry (λ e, set_pidContext
                 (set_IsKworker ((fpPpid filledProc =? 0) && negb (fpPid filledProc =? 1))
                    (pidContext e)) e) >>
              let ppid := uint32 (fpPpid filledProc) in
              let! parent := resolveFromProcfs ppid maxDepth' in
              match parent with
              | Some parent =>
                  when inserted
                    (let! pe := load parent in
                     let! e := load entry in
                     if Equals pe e then SetParentOfForkChild entry parent
                     else SetAncestor entry parent)
              | None => ret tt
              end >>
              ret (Some entry)
          | (None, _) => ret None
          end
      end
  end.

(** The end of [resolve]: the procfs tier behind its rate limiter, and the
    miss counter when it yields nothing. *)
Definition resolveProcfsTier (pid : Z) : M (option nat) :=
  let! allowed := Allow pid in
  let! entry :=
    if allowed
    then (* fallback to /proc, the in-kernel LRU may have deleted the entry *)
      resolveFromProcfs pid procResolveMaxDepth
    else ret None in
  match entry with
  | Some entry => counterInc hitsStats_ProcFSTag >> ret (Some entry)
  | None => counterInc missStats >> ret None
  end.

Definition resolveWith (resolve : ResolveFn) (pid tid inode : Z) (useProcFS : bool)
    : M (option nat) :=
  let! entry := resolveFromCache pid tid inode in
  match entry with
  | Some entry => counterInc hitsStats_CacheTag >> ret (Some entry)
  | None =>
      let! st := gets state in
      if negb (st =? Snapshotted) then ret None else
      (* fallback to the kernel maps directly, the perf event may be delayed / may have been lost *)
      let! entry := resolveFromKernelMapsWith resolve pid tid inode in
      match entry with
      | Some entry => counterInc hitsStats_KernelMapsTag >> ret (Some entry)
      | None =>
          if negb useProcFS then counterInc missStats >> ret None
          else resolveProcfsTier pid
      end
  end.

(** [resolve] with a budget for its recursion through [insertForkEntry]. *)
Fixpoint resolve (fuel : nat) : ResolveFn :=
  match fuel with
  | O => λ _ _ _ _ _, OutOfFuel
  | S fuel' => resolveWith (resolve fuel')
  end.

Definition resolveFromKernelMaps (fuel : nat) (pid tid inode : Z) : M (option nat) :=
  resolveFromKernelMapsWith (resolve fuel) pid tid inode.

Definition insertForkEntry (fuel : nat) (entry : nat) (inode : Z) (source : Source) : M unit :=
  insertForkEntryWith (resolve fuel) entry inode source.

Definition Resolve (fuel : nat) (pid tid inode : Z) (useProcFS : bool) : M (option nat) :=
  if pid =? 0 then ret None else resolve fuel pid tid inode useProcFS.

Definition ResolveFromCache := resolveFromCache.
Definition ResolveFromKernelMaps := resolveFromKernelMaps.
Definition ResolveFromProcfs (pid : Z) : M (option nat) :=
  resolveFromProcfs pid procResolveMaxDepth.

Definition AddForkEntry (fuel : nat) (entry : nat) (inode : Z) : M unit :=
  let! e := load entry in
  if Pid (pidContext e) =? 0 then ret tt
  else insertForkEntry fuel entry inode ProcessCacheEntryFromEvent.

Definition AddExecEntry (entry : nat) (inode : Z) : M unit :=
  let! e := load entry in
  if Pid (pidContext e) =? 0 then ret tt
  else insertExecEntry entry inode ProcessCacheEntryFromEvent.

Definition Get (pid : Z) : M (option nat) :=
  let! cache := gets entryCache in ret (cache !! pid).

Definition SetState (st : Z) : M unit := modify (set_state st).

(** One tick of [cacheFlush]: the pids of the cache that procfs no longer
    lists are queued ([procPids] is what [process.Pids] returned; Go leaves
    the order of the iteration over the map open). *)
Definition cacheFlushTick (procPids : list Z) : M unit :=
  let procPidsMap : gset Z := list_to_set (uint32 <$> procPids) in
  modify (λ p, set_exitedQueue
    (exitedQueue p ++ filter (λ pid, pid ∉ procPidsMap) (map_to_list (entryCache p)).*1) p).

(** *** Credential handlers *)

Definition UpdateUID (pid : Z) (e : Event) : M unit :=
  if negb (ProcessContext_Pid e =? ProcessContext_Tid e) then ret tt else
  let! cache := gets entryCache in
  match cache !! pid with
  | Some entry =>
      update entry (λ x,
        let c := credentials x in
        set_credentials
          {| UID := SetUID_UID e; GID := GID c;
             User := ResolveSetuidUser e; Group := Group c;
             EUID := SetUID_EUID e; EGID := EGID c;
             EUser := ResolveSetuidEUser e; EGroup := EGroup c;
             FSUID := SetUID_FSUID e; FSGID := FSGID c;
             FSUser := ResolveSetuidFSUser e; FSGroup := FSGroup c;
             AUID := AUID c;
             CapEffective := CapEffective c; CapPermitted := CapPermitted c |} x)
  | None => ret tt
  end.

Definition UpdateGID (pid : Z) (e : Event) : M unit :=
  if negb (ProcessContext_Pid e =? ProcessContext_Tid e) then ret tt else
  let! cache := gets entryCache in
  match cache !! pid with
  | Some entry =>
      update entry (λ x,
        let c := credentials x in
        set_credentials
          {| UID := UID c; GID := SetGID_GID e;
             User := User c; Group := ResolveSetgidGroup e;
             EUID := EUID c; EGID := SetGID_EGID e;
             EUser := EUser c; EGroup := ResolveSetgidEGroup e;
             FSUID := FSUID c; FSGID := SetGID_FSGID e;
             FSUser := FSUser c; FSGroup := ResolveSetgidFSGroup e;
             AUID := AUID c;
             CapEffective := CapEffective c; CapPermitted := CapPermitted c |} x)
  | None => ret tt
  end.

Definition UpdateCapset (pid : Z) (e : Event) : M unit :=
  if negb (ProcessContext_Pid e =? ProcessContext_Tid e) then ret tt else
  let! cache := gets entryCache in
  match cache !! pid with
  | Some entry =>
      update entry (λ x,
        let c := credentials x in
        set_credentials
          {| UID := UID c; GID := GID c; User := User c; Group := Group c;
             EUID := EUID c; EGID := EGID c; EUser := EUser c; EGroup := EGroup c;
             FSUID := FSUID c; FSGID := FSGID c; FSUser := FSUser c; FSGroup := FSGroup c;
             AUID := AUID c;
             CapEffective := Capset_CapEffective e;
             CapPermitted := Capset_CapPermitted e |} x)
  | None => ret tt
  end.

Definition UpdateLoginUID (pid : Z) (e : Event) : M unit :=
  if negb (ProcessContext_Pid e =? ProcessContext_Tid e) then ret tt else
  let! cache := gets entryCache in
  match cache !! pid with
  | Some entry =>
      update entry (λ x,
        let c := credentials x in
        set_credentials
          {| UID := UID c; GID := GID c; User := User c; Group := Group c;
             EUID := EUID c; EGID := EGID c; EUser := EUser c; EGroup := EGroup c;
             FSUID := FSUID c; FSGID := FSGID c; FSUser := FSUser c; FSGroup := FSGroup c;
             AUID := LoginUIDWrite_AUID e;
             CapEffective := CapEffective c; CapPermitted := CapPermitted c |} x)
  | None => ret tt
  end.

(** *** AWS security credentials *)

(** The scan of [UpdateAWSSecurityCredentials] for a key already in the list. *)
Fixpoint hasAccessKeyID (id : string) (keys : list AWSSecurityCredentials) : bool :=
  match keys with
  | [] => false
  | key :: keys' => if bool_decide (AccessKeyID key = id) then true else hasAccessKeyID id keys'
  end.

Definition UpdateAWSSecurityCredentials (pid : Z) (e : Event) : M unit :=
  if (String.length (AccessKeyID (IMDS_AWS_SecurityCredentials e)) =? 0)%nat then ret tt else
  let! cache := gets entryCache in
  match cache !! pid with
  | Some entry =>
      let! x := load entry in
      (* check if this key is already in cache *)
      if hasAccessKeyID (AccessKeyID (IMDS_AWS_SecurityCredentials e)) (AWSSecurityCredentials_ x)
      then ret tt
      else store entry (set_AWSSecurityCredentials
                          (AWSSecurityCredentials_ x ++ [IMDS_AWS_SecurityCredentials e]) x)
  | None => ret tt
  end.

(** The first loop of [FetchAWSSecurityCredentials]: the indexes of the expired
    keys, each prepended to [toDelete], [id] being the index of the head of
    [keys]. *)
Fixpoint expiredIndexes (eventTime : Z) (id : nat) (keys : list AWSSecurityCredentials)
    (toDelete : list nat) : list nat :=
  match keys with
  | [] => toDelete
  | key :: keys' =>
      expiredIndexes eventTime (S id) keys'
        (if Before (Expiration key) eventTime then id :: toDelete else toDelete)
  end.

(** [append(s[0:id], s[id+1:]...)]: a panic when [id+1] exceeds the length. *)
Definition removeAt {A} (id : nat) (s : list A) : option (list A) :=
  if bool_decide (id < length s)%nat then Some (take id s ++ drop (S id) s) else None.

(** The second loop of [FetchAWSSecurityCredentials]. *)
Fixpoint removeAll {A} (toDelete : list nat) (s : list A) : option (list A) :=
  match toDelete with
  | [] => Some s
  | id :: toDelete' =>
      match removeAt id s with
      | Some s' => removeAll toDelete' s'
      | None => None
      end
  end.

Definition FetchAWSSecurityCredentials (e : Event) : M (list AWSSecurityCredentials) :=
  let! cache := gets entryCache in
  match cache !! ProcessContext_Pid e with
  | Some entry =>
      let! x := load entry in
      (* check if we should delete *)
      let toDelete := expiredIndexes (ResolveEventTime e) 0 (AWSSecurityCredentials_ x) [] in
      (* delete expired entries *)
      match removeAll toDelete (AWSSecurityCredentials_ x) with
      | Some keys => store entry (set_AWSSecurityCredentials keys x) >> ret keys
      | None => panic
      end
  | None => ret []
  end.

(** *** Metrics *)

Definition getCacheSize : M Z :=
  let! cache := gets entryCache in ret (Z.of_nat (size cache)).

Definition getEntryCacheSize : M Z :=
  let! st := gets stats in ret (st cacheSize).

(** [count := c.Swap(0); if count > 0 { Count(name, count, tags) }] *)
Definition swapAndCount (c : Counter) (name : string) (tags : list string) (msg : string)
    : M (option error) :=
  let! st := gets stats in
  let count := st c in
  modify (λ p, set_stats (bump (λ _, 0) c (stats p)) p) >>
  if 0 <? count then
    match Count name count tags with
    | Some err => ret (Some (ErrWrapped msg err))
    | None => ret None
    end
  else ret None.

(** The steps of [SendStats], which returns at the first error. *)
Fixpoint untilError (steps : list (M (option error))) : M (option error) :=
  match steps with
  | [] => ret None
  | step :: steps' =>
      let! err := step in
      match err with
      | Some err => ret (Some err)
      | None => untilError steps'
      end
  end.

Definition sendGauge (name : string) (value : M Z) (msg : string) : M (option error) :=
  let! v := value in
  match Gauge name v [] with
  | Some err => ret (Some (ErrWrapped msg err))
  | None => ret None
  end.

Definition SendStats : M (option error) :=
  untilError
    [ sendGauge MetricProcessResolverCacheSize getCacheSize
        "failed to send process_resolver cache_size metric";
      sendGauge MetricProcessResolverReferenceCount getEntryCacheSize
        "failed to send process_resolver reference_count metric";
      swapAndCount hitsStats_CacheTag MetricProcessResolverHits [CacheTag]
        ("failed to send process_resolver with `" +:+ CacheTag +:+ "` metric");
      swapAndCount hitsStats_KernelMapsTag MetricProcessResolverHits [KernelMapsTag]
        ("failed to send process_resolver with `" +:+ KernelMapsTag +:+ "` metric");
      swapAndCount hitsStats_ProcFSTag MetricProcessResolverHits [ProcFSTag]
        ("failed to send process_resolver with `" +:+ ProcFSTag +:+ "` metric");
      swapAndCount missStats MetricProcessResolverMiss []
        "failed to send process_resolver misses metric";
      swapAndCount addedEntriesFromEvent MetricProcessResolverAdded ProcessSourceEventTags
        "failed to send process_resolver added entries metric";
      swapAndCount addedEntriesFromKernelMap MetricProcessResolverAdded ProcessSourceKernelMapsTags
        "failed to send process_resolver added entries from kernel map metric";
      swapAndCount addedEntriesFromProcFS MetricProcessResolverAdded ProcessSourceProcTags
        "failed to send process_resolver added entries from kernel map metric";
      swapAndCount flushedEntries MetricProcessResolverFlushed []
        "failed to send process_resolver flushed entries metric";
      swapAndCount pathErrStats MetricProcessResolverPathError []
        "failed to send process_resolver path error metric";
      swapAndCount argsTruncated MetricProcessResolverArgsTruncated []
        "failed to send args truncated metric";
      swapAndCount argsSize MetricProcessResolverArgsSize []
        "failed to send args size metric";
      swapAndCount envsTruncated MetricProcessResolverEnvsTruncated []
        "failed to send envs truncated metric";
      swapAndCount envsSize MetricProcessResolverEnvsSize []
        "failed to send envs size metric";
      swapAndCount brokenLineage MetricProcessEventBrokenLineage []
        "failed to send process_resolver broken lineage metric";
      swapAndCount inodeErrStats MetricProcessInodeError []
        "failed to send process_resolver inode error metric" ].

End Resolver.

(** ** A concrete host

    One instance of every collaborator, small enough to run the resolver by
    evaluation.  The examples and the instances of the theorems below are
    computed on it. *)
Module Host.

(** Modelled from the spec: [model.UnmarshalStringArray] is defined outside
    this file.  A chunk is a sequence of NUL-terminated strings; a last string
    with no terminator is yielded with a parse error. *)
Fixpoint splitNul (data : list byte) (cur : list byte) : list string * option error :=
  match data with
  | [] =>
      match cur with
      | [] => ([], None)
      | _ => ([string_of_list_byte (rev cur)], Some (ErrOther "string array overflow"))
      end
  | b :: data' =>
      if Byte.eqb b x00
      then let '(vs, err) := splitNul data' [] in (string_of_list_byte (rev cur) :: vs, err)
      else splitNul data' (b :: cur)
  end.

Definition byteZ (b : byte) : Z := Z.of_N (Byte.to_N b).

Definition withInode (inode : Z) (e : ProcessCacheEntry) : ProcessCacheEntry :=
  set_fileEvent
    (mkFileEvent (mkFileFields inode 1 1 0) (PathnameStr (fileEvent e)) (BasenameStr (fileEvent e))
       (Filesystem (fileEvent e)) (MountPath (fileEvent e)) (MountSource_ (fileEvent e))
       (MountOrigin_ (fileEvent e))) e.

Definition withPPid (ppid : Z) (e : ProcessCacheEntry) : ProcessCacheEntry :=
  mkProcessCacheEntry (pidContext e) (Cookie e) ppid (fileEvent e) (linuxBinprm e)
    (ContainerID e) (CGroup e) (ExecTime e) (ForkTime e) (ExitTime e) (Comm e) (TTYName e)
    (credentials e) (argsEntry e) (envsEntry e) (ArgsID e) (EnvsID e) (ArgsTruncated e)
    (EnvsTruncated e) (SymlinkPathnameStr e) (SymlinkBasenameStr e) (IsThread e)
    (IsParentMissing e) (Source_ e) (Ancestor e) (AWSSecurityCredentials_ e) (refCount e).

(** A toy layout of the kernel tables: one byte of container context, one of
    cgroup context, then the inode and the exec time of the process; in
    pid_cache, the cookie is followed by the ppid and the fork time. *)
Global Instance model : Model := {|
  MaxArgEnvSize := 256;
  SizeOfCookie := 8;
  UnmarshalStringArray := λ data, splitNul data [];
  Equals := λ a b,
    bool_decide (Inode (fileFields (fileEvent a)) = Inode (fileFields (fileEvent b)))
    && bool_decide (Comm a = Comm b);
  forkCopy := λ parent child,
    set_credentials (credentials parent)
      (set_fileEvent (fileEvent parent) (withPPid (Pid (pidContext parent)) child));
  execCopy := λ _ entry, entry;
  HasInterpreter := λ e, negb (Inode (fileFields (linuxBinprm e)) =? 0);
  IsFileless := λ _, false;
  UnmarshalContainerContext := λ bs,
    match bs with [] => None | _ => Some (mkContainerContext "", 1%nat) end;
  UnmarshalCGroupContext := λ bs,
    match bs with [] => None | _ => Some (zeroCGroup, 1%nat) end;
  UnmarshalProcEntryBinary := λ e bs,
    match bs with
    | inode :: execTime :: _ => Some (set_ExecTime (byteZ execTime) (withInode (byteZ inode) e))
    | _ => None
    end;
  UnmarshalPidCacheBinary := λ e bs,
    match drop 8 bs with
    | ppid :: forkTime :: _ => Some (set_ForkTime (byteZ forkTime) (withPPid (byteZ ppid) e))
    | _ => None
    end;
  MarshalProcCache := λ _ _, None;
  MarshalPidCache := λ _ _, None;
  setPathname := λ fe s, set_BasenameStr s (set_PathnameStr s fe);
  IsBusybox := λ _, false;
  GetProcessArgv0 := λ _, "";
  pathBase := λ s, s;
  NewCookie := λ n, 1000 + Z.of_nat n;
  PidTTY := λ _, "";
  GetCgroupFromContainer := λ containerID _, containerID
|}.

(** Paths resolve in the context of pid 1 only. *)
Global Instance pathResolver : PathResolverInterface := {|
  ResolveFileFieldsPath := λ _ pidCtx _,
    if Pid pidCtx =? 1
    then mkPathResolution "/usr/bin/true" "/" MountSourceMountID MountOriginEvent None
    else mkPathResolution "" "" MountSourceUnknown MountOriginUnknown
           (Some (ErrOther "dentry not found"))
|}.

Global Instance mountResolver : MountResolverInterface := {|
  ResolveFilesystem := λ _ _ _ _, ("ext4", None)
|}.

Global Instance resolvers : Resolvers := {|
  GetContainerContext := λ _, None;
  ResolveUser := λ uid _, if uid =? 0 then "root" else "user";
  ResolveGroup := λ gid _, if gid =? 0 then "root" else "users";
  ApplyBootTime_ := λ t, t;
  GetBootTime := 0
|}.

(** Procfs lists pid 500, a child of pid 1. *)
Global Instance procfs : Procfs := {|
  NewProcess := λ pid, (pid =? 500) || (pid =? 1);
  GetFilledProcess := λ pid,
    if pid =? 500 then Some (mkFilledProcess 500 1)
    else if pid =? 1 then Some (mkFilledProcess 1 0)
    else None;
  IsKThread := λ _ _, false;
  enrichEventFromProc := λ e proc filledProc,
    inl (set_ForkTime 1000 (set_ExecTime 1000 (withInode 7 (withPPid (fpPpid filledProc) e))))
|}.

Global Instance fieldHandlers : FieldHandlers := {|
  ResolveSetuidUser := λ e, if SetUID_UID e =? 0 then "root" else "user";
  ResolveSetuidEUser := λ e, if SetUID_EUID e =? 0 then "root" else "user";
  ResolveSetuidFSUser := λ e, if SetUID_FSUID e =? 0 then "root" else "user";
  ResolveSetgidGroup := λ e, if SetGID_GID e =? 0 then "root" else "users";
  ResolveSetgidEGroup := λ e, if SetGID_EGID e =? 0 then "root" else "users";
  ResolveSetgidFSGroup := λ e, if SetGID_FSGID e =? 0 then "root" else "users";
  ResolveEventTime := λ _, 5000
|}.

(** A resolver as [NewEBPFResolver] leaves it, at instant [now]. *)
Definition newResolver (now : Z) : EBPFResolver := NewEBPFResolver false None now.

(** An entry of process [pid], child of [ppid], running the binary [inode]. *)
Definition entryOf (pid ppid inode : Z) (forkTime execTime : Z) : ProcessCacheEntry :=
  set_refCount 1
    (set_ForkTime forkTime (set_ExecTime execTime
       (withInode inode (withPPid ppid
          (set_pidContext (mkPIDContext pid pid 0 false inode) zeroEntry))))).

(** [withEntry l e p]: the resolver [p] with [e] allocated at [l] and stored
    in the pid map under its pid. *)
Definition withEntry (l : nat) (e : ProcessCacheEntry) (p : EBPFResolver) : EBPFResolver :=
  set_entryCache (<[Pid (pidContext e) := l]> (entryCache p)) (set_heap (<[l := e]> (heap p)) p).

End Host.

(** ** Predicates of the specification *)

(** The pointers of the pid map point to entries, and every entry is stored
    under its own pid, as [insertEntry] stores it. *)
Definition cacheAllocated (p : EBPFResolver) : Prop :=
  map_Forall (λ _ l, is_Some (heap p !! l)) (entryCache p).

Definition cacheCoherent (p : EBPFResolver) : Prop :=
  map_Forall (λ pid l, (Pid ∘ pidContext) <$> heap p !! l = Some pid) (entryCache p).

(** No two AWS credentials of an entry carry the same access key. *)
Definition awsKeysDistinct (p : EBPFResolver) : Prop :=
  map_Forall (λ _ x, NoDup (AccessKeyID <$> AWSSecurityCredentials_ x)) (heap p).

(** Indexes in strictly decreasing order, all below [n]. *)
Fixpoint descendingBelow (n : nat) (ids : list nat) : Prop :=
  match ids with
  | [] => True
  | id :: ids' => (id < n)%nat ∧ descendingBelow id ids'
  end.

(** The entries met from [pce] by looking up the parent pid in the pid map,
    [n] of them at most. *)
Fixpoint parentChain (p : EBPFResolver) (n : nat) (pce : nat) : list ProcessCacheEntry :=
  match n with
  | O => []
  | S n' =>
      match heap p !! pce with
      | None => []
      | Some c =>
          c :: match entryCache p !! PPid c with
               | Some parent => parentChain p n' parent
               | None => []
               end
      end
  end.

(** The grace window of the janitor, in the words of the specification: an
    entry may go once its exec time or its fork time is set and more than a
    minute old, or when neither is set. *)
Definition graceElapsed (now : Z) (e : ProcessCacheEntry) : Prop :=
  (ExecTime e ≠ 0 ∧ ExecTime e + Minute < now)
  ∨ (ForkTime e ≠ 0 ∧ ForkTime e + Minute < now)
  ∨ (ExecTime e = 0 ∧ ForkTime e = 0).

(** An entry within the grace window: a time is set, and no time that is set
    is more than a minute old. *)
Definition withinGrace (now : Z) (e : ProcessCacheEntry) : Prop :=
  (ExecTime e ≠ 0 ∨ ForkTime e ≠ 0)
  ∧ (ExecTime e ≠ 0 → now ≤ ExecTime e + Minute)
  ∧ (ForkTime e ≠ 0 → now ≤ ForkTime e + Minute).

(** The tests of the loop of [DequeueExited] on one entry, as one boolean. *)
Definition graceElapsedb (now : Z) (e : ProcessCacheEntry) : bool :=
  if negb (IsZero (ExecTime e)) && Before (TimeAdd (ExecTime e) Minute) now then true
  else if negb (IsZero (ForkTime e)) && Before (TimeAdd (ForkTime e) Minute) now then true
  else if IsZero (ForkTime e) && IsZero (ExecTime e) then true
  else false.

(** Whether the loop deletes the entry it finds under [pid]. *)
Definition expired (now : Z) (p : EBPFResolver) (pid : Z) : bool :=
  match entryCache p !! pid with
  | Some l =>
      match heap p !! l with
      | Some e => graceElapsedb now e
      | None => false
      end
  | None => false
  end.

(** The three counters of added entries, summed. *)
Definition addedEntries (st : Counter → Z) : Z :=
  st addedEntriesFromEvent + st addedEntriesFromKernelMap + st addedEntriesFromProcFS.

(** The sources [insertEntry] has a counter for. *)
Definition counted (source : Source) : bool :=
  match source with
  | ProcessCacheEntryFromEvent | ProcessCacheEntryFromKernelMap
  | ProcessCacheEntryFromProcFS => true
  | _ => false
  end.

(** The counter [insertEntry] bumps for a source, if it has one. *)
Definition addedCounter (source : Source) : option Counter :=
  match source with
  | ProcessCacheEntryFromEvent => Some addedEntriesFromEvent
  | ProcessCacheEntryFromKernelMap => Some addedEntriesFromKernelMap
  | ProcessCacheEntryFromProcFS => Some addedEntriesFromProcFS
  | _ => None
  end.

(** A sequence of insertions into the pid map: the arguments of the
    successive calls of [insertEntry]. *)
Definition insertions (calls : list (nat * option nat * Source)) : M unit :=
  forEach calls (λ call, insertEntry call.1.1 call.1.2 call.2).

(** ** Inputs of the examples *)
Module Examples.
Import Host.

(** A setuid event raised by thread 101 of process 100. *)
Definition setuidFromThread : Event :=
  mkEvent 100 101 0 0 0 0 0 0 0 0 0 (mkAWSSecurityCredentials "" "" 0).

(** Process 100, forked at 1000 and running inode 66 since 2000, in a
    resolver whose clock reads 5000. *)
Definition oneProcess : EBPFResolver :=
  withEntry 0 (entryOf 100 1 66 1000 2000) (newResolver 5000).

(** A resolver that is still snapshotting and knows no process. *)
Definition snapshotting : EBPFResolver := newResolver 100000.

(** Two arguments, the second cut before its terminator. *)
Definition cutChunk : list byte := [x61; x62; x00; x63; x64].

(** Two arguments, both terminated. *)
Definition wholeChunk : list byte := [x61; x62; x00; x63; x64; x00].

(** Process 100 holds two AWS credentials, one of them expired at 5000. *)
Definition twoKeys : EBPFResolver :=
  withEntry 0
    (set_AWSSecurityCredentials
       [mkAWSSecurityCredentials "AKIA1" "AWS-HMAC" 1000;
        mkAWSSecurityCredentials "AKIA2" "AWS-HMAC" 9000]
       (entryOf 100 1 66 1000 2000))
    (newResolver 5000).

(** An IMDS event of process 100 that shows the first key again. *)
Definition imdsRepeat : Event :=
  mkEvent 100 100 0 0 0 0 0 0 0 0 0 (mkAWSSecurityCredentials "AKIA1" "AWS-HMAC" 1000).

(** An IMDS event of process 100 that shows a third key. *)
Definition imdsFresh : Event :=
  mkEvent 100 100 0 0 0 0 0 0 0 0 0 (mkAWSSecurityCredentials "AKIA3" "AWS-HMAC" 9500).

(** Four generations: process 30, child of 20, child of 10, child of 1, at
    the locations 0 to 3. *)
Definition lineage : EBPFResolver :=
  withEntry 0 (entryOf 30 20 66 1000 2000)
    (withEntry 1 (entryOf 20 10 66 1000 2000)
       (withEntry 2 (entryOf 10 1 66 1000 2000)
          (withEntry 3 (entryOf 1 0 66 1000 2000) (newResolver 5000)))).

(** The file event of a binary of inode 66 whose path is still to resolve. *)
Definition binary : FileEvent :=
  mkFileEvent (mkFileFields 66 1 1 0) "stale" "stale" "" "" MountSourceUnknown
    MountOriginUnknown.

(** Process 100 runs inode 66 since 2000 (location 0, in the pid map); the
    exec events that arrive next built the entries at location 1 (the same
    binary again, at 3000) and at location 2 (inode 77, at 3000). *)
Definition execBomb : EBPFResolver :=
  let p := oneProcess in
  set_heap (<[2%nat := entryOf 100 1 77 1000 3000]>
             (<[1%nat := entryOf 100 1 66 1000 3000]> (heap p))) p.

(** Kernel maps that know pid 1 (cookie 7, inode 66, exec time 5) and pid
    500 (cookie 8, no inode), in the toy layout of [Host.model]. *)
Definition kernelMaps : EBPFResolver :=
  set_pidCacheMap
    {[ 1 := [x07; x00; x00; x00; x00; x00; x00; x00; x00; x09];
       500 := [x08; x00; x00; x00; x00; x00; x00; x00; x01; x09] ]}
    (set_procCacheMap
       {[ 7 := [x00; x00; x42; x05];
          8 := [x00; x00; x00; x05] ]}
       (set_state Snapshotted (newResolver 5000))).

(** Three insertions on [execBomb]: from an event, from the snapshot, from
    procfs. *)
Definition threeInsertions : list (nat * option nat * Source) :=
  [ (1%nat, Some 0%nat, ProcessCacheEntryFromEvent);
    (2%nat, Some 1%nat, ProcessCacheEntryFromSnapshot);
    (0%nat, None, ProcessCacheEntryFromProcFS) ].

(** A sweep at 100 s.  Pid 100 forked at 50 s and exec'd at 90 s; pid 200
    forked at 10 s and exec'd at 20 s; pid 300 forked at 10 s and exec'd at
    90 s; pid 400 has neither time.  All four have left procfs and are queued,
    pid 100 twice. *)
Definition exited : EBPFResolver :=
  set_exitedQueue [100; 200; 300; 400; 100]
    (withEntry 0 (entryOf 100 1 66 50000000000 90000000000)
       (withEntry 1 (entryOf 200 1 66 10000000000 20000000000)
          (withEntry 2 (entryOf 300 1 66 10000000000 90000000000)
             (withEntry 3 (entryOf 400 1 66 0 0) (newResolver 100000000000))))).

End Examples.
(** ** Vocabulary of the further properties *)

(** What [UpdateArgsEnvs] parses out of an event: the strings of the first
    [Size] bytes and whether they were cut. *)
Definition parsedChunk `{Model} (event : ArgsEnvsEvent) : list string * bool :=
  parseStringArray (take (Size event) (ValuesRaw event)).

(** The values of a sequence of chunks, in the order of arrival, cut as soon
    as one chunk is. *)
Definition reassembled `{Model} (events : list ArgsEnvsEvent) : argsEnvsCacheEntry :=
  mkArgsEnvsCacheEntry
    (concat ((λ event, (parsedChunk event).1) <$> events))
    (existsb (λ event, (parsedChunk event).2) events).

(** What [UpdateArgsEnvs] leaves staged under the id of the event, given
    what was staged under it before. *)
Definition stagedAfter `{Model} (event : ArgsEnvsEvent)
    (before : option argsEnvsCacheEntry) : argsEnvsCacheEntry :=
  match before with
  | Some staged =>
      mkArgsEnvsCacheEntry (values staged ++ (parsedChunk event).1)
        (truncated staged || (parsedChunk event).2)
  | None => mkArgsEnvsCacheEntry (parsedChunk event).1 (parsedChunk event).2
  end.

(** The shape of the four credential handlers: on an event of the leader of
    a process, a write of the entry found under [pid]. *)
Definition onLeader (pid : Z) (e : Event) (f : ProcessCacheEntry → ProcessCacheEntry)
    : M unit :=
  if negb (ProcessContext_Pid e =? ProcessContext_Tid e) then ret tt else
  let! cache := gets entryCache in
  match cache !! pid with
  | Some entry => update entry f
  | None => ret tt
  end.

(** A step of [SendStats] writes counters only, resets or keeps each of
    them, and keeps the size gauge. *)
Definition flushes (step : M (option error)) : Prop :=
  ∀ p, ∃ r p',
    step p = Done r p'
    ∧ p' = set_stats (stats p') p
    ∧ stats p' cacheSize = stats p cacheSize
    ∧ ∀ c, stats p' c = stats p c ∨ stats p' c = 0.

(** The entry that [syncCache] hands to [enrichEventFromProc]. *)
Definition snapshotEntry `{Model} (p : EBPFResolver) (proc : Z) : ProcessCacheEntry :=
  set_IsThread true
    (set_Cookie (NewCookie (cookies p))
       (set_pidContext (mkPIDContext (uint32 proc) (uint32 proc) 0 false 0)
          (set_refCount 1 zeroEntry))).

(** [keeps f m]: whenever [m] ends normally, the component [f] of the
    resolver is what it was. *)
Definition keeps {A B} (f : EBPFResolver → B) (m : M A) : Prop :=
  ∀ p a p', m p = Done a p' → f p' = f p.

(** [answers m]: [m] does not end with none. *)
Definition answers {A} (m : M (option A)) : Prop :=
  ∀ p p', m p ≠ Done None p'.


(** ** Inputs of the further examples *)
Module Scenarios.
Import Host.

(** An exec event of pid 300 whose fork was never seen: the entry is built
    (location 0) and the cache is empty. *)
Definition lateExec : EBPFResolver :=
  let p := newResolver 5000 in
  set_heap (<[0%nat := entryOf 300 1 66 0 2000]> (heap p)) p.

(** The lineage of the examples, and the entry (location 4) of a fork of
    process 30 into process 40. *)
Definition forkOf30 : EBPFResolver :=
  set_heap (<[4%nat := entryOf 40 30 0 3000 0]> (heap Examples.lineage)) Examples.lineage.

(** A Snapshotted resolver whose kernel maps are those of the examples, and
    an entry (location 0) that carries pid 0. *)
Definition pidZero : EBPFResolver :=
  set_heap (<[0%nat := entryOf 0 1 66 1000 2000]> (heap Examples.kernelMaps))
    Examples.kernelMaps.

(** An entry whose argv and envp are staged under the given ids. *)
Definition withIDs (argsID envsID : Z) (e : ProcessCacheEntry) : ProcessCacheEntry :=
  mkProcessCacheEntry (pidContext e) (Cookie e) (PPid e) (fileEvent e) (linuxBinprm e)
    (ContainerID e) (CGroup e) (ExecTime e) (ForkTime e) (ExitTime e) (Comm e) (TTYName e)
    (credentials e) (argsEntry e) (envsEntry e) argsID envsID (ArgsTruncated e)
    (EnvsTruncated e) (SymlinkPathnameStr e) (SymlinkBasenameStr e) (IsThread e)
    (IsParentMissing e) (Source_ e) (Ancestor e) (AWSSecurityCredentials_ e) (refCount e).

(** The exec of pid 300 again, its argv staged under id 7 and its envp under
    id 8; the buffer already holds the first argv chunk of another exec. *)
Definition staging : EBPFResolver :=
  let p := newResolver 5000 in
  set_argsEnvsCache [(9, mkArgsEnvsCacheEntry ["ls"] false)]
    (set_heap (<[0%nat := withIDs 7 8 (entryOf 300 1 66 0 2000)]> (heap p)) p).

(** Two chunks of the stream [id]: the first whole, the second cut. *)
Definition chunks (id : Z) : list ArgsEnvsEvent :=
  [mkArgsEnvsEvent id 6 (Examples.wholeChunk ++ [x00; x00]);
   mkArgsEnvsEvent id 5 Examples.cutChunk].

(** A statsd client that refuses the miss metric, and a resolver with
    counts to report. *)
Definition droppingMisses : Statsd := {|
  Gauge := λ _ _ _, None;
  Count := λ name _ _, if bool_decide (name = "miss") then Some (ErrOther "dropped") else None;
  MetricProcessResolverCacheSize := "cache_size";
  MetricProcessResolverReferenceCount := "reference_count";
  MetricProcessResolverHits := "hits";
  MetricProcessResolverMiss := "miss";
  MetricProcessResolverAdded := "added";
  MetricProcessResolverFlushed := "flushed";
  MetricProcessResolverPathError := "path_error";
  MetricProcessResolverArgsTruncated := "args_truncated";
  MetricProcessResolverArgsSize := "args_size";
  MetricProcessResolverEnvsTruncated := "envs_truncated";
  MetricProcessResolverEnvsSize := "envs_size";
  MetricProcessEventBrokenLineage := "broken_lineage";
  MetricProcessInodeError := "inode_error";
  CacheTag := "type:cache";
  KernelMapsTag := "type:kernel_maps";
  ProcFSTag := "type:procfs";
  ProcessSourceEventTags := ["type:event"];
  ProcessSourceKernelMapsTags := ["type:kernel_maps"];
  ProcessSourceProcTags := ["type:procfs"]
|}.

Definition unreported : EBPFResolver :=
  let p := Examples.oneProcess in
  set_stats (bump (λ _, 4) hitsStats_CacheTag
               (bump (λ _, 3) missStats (bump (λ _, 2) addedEntriesFromEvent (stats p)))) p.

(** The four processes of the sweep example before the janitor has looked at
    them: nothing is queued. *)
Definition beforeTick : EBPFResolver := set_exitedQueue [] Examples.exited.

(** The resolver once the kernel-map tier has looked at the row of pid 500,
    which carries no inode, and given up on it. *)
Definition rejected : EBPFResolver :=
  default Examples.kernelMaps (final (resolveFromKernelMaps 0 500 500 66 Examples.kernelMaps)).

(** A resolver that has finished its snapshot and knows no process; the
    kernel tables are empty. *)
Definition snapshotted : EBPFResolver := set_state Snapshotted (newResolver 5000).

(** Process 100 of the examples once thread 7 has been seen in it. *)
Definition seenBy7 : EBPFResolver :=
  set_heap
    (<[0%nat := set_pidContext (mkPIDContext 100 7 0 false 66) (entryOf 100 1 66 1000 2000)]>
       (heap Examples.oneProcess))
    Examples.oneProcess.

End Scenarios.

(** * Properties *)

(** Unfolds the plumbing of [M]. *)
Ltac munfold :=
  unfold update, when, counterInc, counterDec, counterAdd in *;
  unfold store, load in *;
  unfold bind, ret, gets, modify, panic in *;
  cbv beta iota in *.

(** Reads fields through the field updates of the resolver. *)
Ltac psimpl :=
  cbn [state ttyFallbackEnabled cgroupResolver procCacheMap pidCacheMap stats heap
       entryCache argsEnvsCache processCacheEntryPool procFallbackLimiter exitedQueue
       clock cookies
       set_state set_cgroupResolver set_procCacheMap set_pidCacheMap set_stats set_heap
       set_entryCache set_argsEnvsCache set_processCacheEntryPool set_procFallbackLimiter
       set_exitedQueue set_clock set_cookies] in *.

(** ** Runs

    [runs m p Q]: from the resolver [p] the method [m] ends normally, with a
    value and a resolver that satisfy [Q]. *)
Definition runs {A} (m : M A) (p : EBPFResolver) (Q : A → EBPFResolver → Prop) : Prop :=
  match m p with
  | Done a p' => Q a p'
  | _ => False
  end.

Lemma runs_Done {A} (m : M A) (p : EBPFResolver) (Q : A → EBPFResolver → Prop) :
  runs m p Q ↔ ∃ a p', m p = Done a p' ∧ Q a p'.
Proof.
  unfold runs. destruct (m p) as [a p'| |].
  - split; [by exists a, p'|]. by intros (? & ? & [= <- <-] & ?).
  - split; [done|]. by intros (? & ? & ? & ?).
  - split; [done|]. by intros (? & ? & ? & ?).
Qed.

Lemma runs_weaken {A} (m : M A) (p : EBPFResolver) (Q Q' : A → EBPFResolver → Prop) :
  runs m p Q → (∀ a p', Q a p' → Q' a p') → runs m p Q'.
Proof. unfold runs. destruct (m p); [|done..]. intros HQ Himp. by apply Himp. Qed.

Lemma runs_bind {A B} (m : M A) (k : A → M B) (p : EBPFResolver)
    (Q : B → EBPFResolver → Prop) :
  runs m p (λ a p', runs (k a) p' Q) → runs (bind m k) p Q.
Proof. unfold runs, bind. by destruct (m p). Qed.

Lemma runs_ret {A} (a : A) (p : EBPFResolver) (Q : A → EBPFResolver → Prop) :
  Q a p → runs (ret a) p Q.
Proof. done. Qed.

Lemma runs_gets {A} (f : EBPFResolver → A) (p : EBPFResolver)
    (Q : A → EBPFResolver → Prop) :
  Q (f p) p → runs (gets f) p Q.
Proof. done. Qed.

Lemma runs_modify (f : EBPFResolver → EBPFResolver) (p : EBPFResolver)
    (Q : unit → EBPFResolver → Prop) :
  Q tt (f p) → runs (modify f) p Q.
Proof. done. Qed.

Lemma runs_load (l : nat) (e : ProcessCacheEntry) (p : EBPFResolver)
    (Q : ProcessCacheEntry → EBPFResolver → Prop) :
  heap p !! l = Some e → Q e p → runs (load l) p Q.
Proof. intros Hl HQ. unfold runs, load. by rewrite Hl. Qed.

Lemma runs_update (l : nat) (f : ProcessCacheEntry → ProcessCacheEntry)
    (e : ProcessCacheEntry) (p : EBPFResolver) (Q : unit → EBPFResolver → Prop) :
  heap p !! l = Some e →
  Q tt (set_heap (<[l := f e]> (heap p)) p) →
  runs (update l f) p Q.
Proof. intros Hl HQ. unfold runs, update, bind, load, store, modify. by rewrite Hl. Qed.

(** What a method leaves alone: [frame p p'] says that [p'] has the pid map,
    the queue, the clock and the allocated locations of [p]. *)
Record frame (p p' : EBPFResolver) : Prop := mkFrame {
  frame_entryCache : entryCache p' = entryCache p;
  frame_exitedQueue : exitedQueue p' = exitedQueue p;
  frame_clock : clock p' = clock p;
  frame_dom : dom (heap p') = dom (heap p)
}.

Lemma frame_refl (p : EBPFResolver) : frame p p.
Proof. by split. Qed.

Lemma frame_trans (p1 p2 p3 : EBPFResolver) : frame p1 p2 → frame p2 p3 → frame p1 p3.
Proof. intros [] []. split; congruence. Qed.

Lemma bump_other (f : Z → Z) (c c' : Counter) (st : Counter → Z) :
  c ≠ c' → bump f c st c' = st c'.
Proof. intros Hne. unfold bump. by rewrite decide_False. Qed.

Lemma bump_same (f : Z → Z) (c : Counter) (st : Counter → Z) :
  bump f c st c = f (st c).
Proof. unfold bump. by rewrite decide_True. Qed.

(** [Retain] and [Release] write the entry they are called on, and
    [Release] the size gauge and the free list. *)
Lemma runs_Retain (l : nat) (e : ProcessCacheEntry) (p : EBPFResolver) :
  heap p !! l = Some e →
  runs (Retain l) p (λ _ p',
    frame p p' ∧ stats p' = stats p
    ∧ heap p' = <[l := set_refCount (refCount e + 1) e]> (heap p)).
Proof.
  intros Hl. unfold Retain. eapply runs_update; [done|]. psimpl.
  split; [|done]. split; psimpl; try done.
  apply dom_insert_lookup_L. by eexists.
Qed.

Lemma runs_Release (l : nat) (e : ProcessCacheEntry) (p : EBPFResolver) :
  heap p !! l = Some e →
  runs (Release l) p (λ _ p',
    frame p p' ∧ (∀ c, c ≠ cacheSize → stats p' c = stats p c)
    ∧ heap p' = <[l := set_refCount (refCount e - 1) e]> (heap p)).
Proof.
  intros Hl. unfold Release. apply runs_bind. eapply runs_load; [done|].
  apply runs_bind. unfold store. apply runs_modify.
  assert (frame p (set_heap (<[l:=set_refCount (refCount e - 1) e]> (heap p)) p)) as Hframe.
  { split; psimpl; try done. apply dom_insert_lookup_L. by eexists. }
  destruct (negb (0 <? refCount e - 1)); unfold when.
  - apply runs_bind. unfold counterDec. apply runs_modify. apply runs_modify. psimpl.
    split; [|split; [|done]].
    + destruct Hframe. split; by psimpl.
    + intros c Hc. by rewrite bump_other.
  - by apply runs_ret.
Qed.

Section CredentialHandlers.
Context `{FieldHandlers}.

(** C9: a credential update (UpdateUID, UpdateGID, UpdateCapset,
    UpdateLoginUID) whose event comes from a thread that is not the leader of
    its process (ProcessContext.Pid differs from ProcessContext.Tid) returns
    with the resolver as it found it: no entry is written. *)
Theorem credential_updates_ignore_threads (pid : Z) (e : Event) (p : EBPFResolver) :
  ProcessContext_Pid e ≠ ProcessContext_Tid e →
  UpdateUID pid e p = Done tt p
  ∧ UpdateGID pid e p = Done tt p
  ∧ UpdateCapset pid e p = Done tt p
  ∧ UpdateLoginUID pid e p = Done tt p.
Proof.
  intros Hthread.
  apply Z.eqb_neq in Hthread.
  unfold UpdateUID, UpdateGID, UpdateCapset, UpdateLoginUID.
  rewrite Hthread. simpl. repeat split.
Qed.

End CredentialHandlers.

Lemma credential_updates_ignore_threads_witness :
  ProcessContext_Pid Examples.setuidFromThread ≠ ProcessContext_Tid Examples.setuidFromThread
  ∧ UpdateUID 100 Examples.setuidFromThread Examples.oneProcess = Done tt Examples.oneProcess
  ∧ UpdateGID 100 Examples.setuidFromThread Examples.oneProcess = Done tt Examples.oneProcess
  ∧ UpdateCapset 100 Examples.setuidFromThread Examples.oneProcess = Done tt Examples.oneProcess
  ∧ UpdateLoginUID 100 Examples.setuidFromThread Examples.oneProcess = Done tt Examples.oneProcess.
Proof.
  split.
  - vm_compute. discriminate.
  - apply credential_updates_ignore_threads. vm_compute. discriminate.
Defined.

Section ArgsEnvs.
Context `{Model}.

Lemma alter_last {A} (f : A → A) (init : list A) (v : A) :
  alter f (length (init ++ [v]) - 1)%nat (init ++ [v]) = init ++ [f v].
Proof.
  rewrite length_app. simpl.
  replace (length init + 1 - 1)%nat with (length init + 0)%nat by lia.
  by rewrite alter_app_r.
Qed.

(** C6: a chunk is parsed by [UnmarshalStringArray], which splits it at the
    NUL terminators.  If that reports an error, or if the chunk is as long as
    the maximum chunk size, the result is marked truncated and the last value
    read (if there is one) gets the suffix "..."; otherwise the result is not
    truncated and carries the values as they were read. *)
Theorem parseStringArray_truncation (data : list byte) (vals : list string)
    (err : option error) :
  UnmarshalStringArray data = (vals, err) →
  (err ≠ None ∨ length data = MaxArgEnvSize →
     (parseStringArray data).2 = true
     ∧ (vals = [] → (parseStringArray data).1 = [])
     ∧ (∀ init v, vals = init ++ [v] → (parseStringArray data).1 = init ++ [v +:+ "..."]))
  ∧ (err = None ∧ length data ≠ MaxArgEnvSize → parseStringArray data = (vals, false)).
Proof.
  intros Hparse. unfold parseStringArray, DeduplicateSlice. rewrite Hparse.
  split.
  - intros Hcut.
    assert (bool_decide (err ≠ None) || bool_decide (length data = MaxArgEnvSize) = true)
      as ->.
    { destruct Hcut as [Herr | Hlen].
      - by rewrite (bool_decide_eq_true_2 _ Herr).
      - rewrite (bool_decide_eq_true_2 _ Hlen). apply orb_true_r. }
    simpl. split; [done|]. split.
    + intros ->. done.
    + intros init v ->.
      rewrite bool_decide_eq_true_2 by (rewrite length_app; simpl; lia).
      exact (alter_last (λ s, s +:+ "...") init v).
  - intros [-> Hlen].
    rewrite (bool_decide_eq_false_2 (None ≠ None)) by (intros Hne; by apply Hne).
    by rewrite (bool_decide_eq_false_2 _ Hlen).
Qed.

End ArgsEnvs.

Lemma parseStringArray_truncation_witness :
  UnmarshalStringArray Examples.cutChunk = (["ab"; "cd"], Some (ErrOther "string array overflow"))
  ∧ parseStringArray Examples.cutChunk = (["ab"; "cd..."], true).
Proof.
  assert (UnmarshalStringArray Examples.cutChunk
          = (["ab"; "cd"], Some (ErrOther "string array overflow"))) as Hparse
    by (vm_compute; reflexivity).
  split; [exact Hparse|].
  destruct (parseStringArray_truncation Examples.cutChunk _ _ Hparse) as [Hcut _].
  destruct Hcut as (Htrunc & _ & Hlast); [left; discriminate|].
  specialize (Hlast ["ab"] "cd" eq_refl).
  destruct (parseStringArray Examples.cutChunk) as [vs t].
  simpl in *. by subst.
Defined.

Example parseStringArray_whole :
  parseStringArray Examples.wholeChunk = (["ab"; "cd"], false).
Proof. reflexivity. Qed.

Example parseStringArray_full_chunk :
  parseStringArray (replicate 255 x61 ++ [x00])
  = ([string_of_list_byte (replicate 255 x61) +:+ "..."], true).
Proof. vm_compute. reflexivity. Qed.

Section Resolve.
Context `{Model} `{PathResolverInterface} `{MountResolverInterface}
        `{Resolvers} `{Procfs}.

(** A miss of the cache tier leaves the resolver as it was. *)
Lemma resolveFromCache_miss (pid tid inode : Z) (p p' : EBPFResolver) :
  resolveFromCache pid tid inode p = Done None p' → p' = p.
Proof.
  unfold resolveFromCache. munfold.
  destruct (entryCache p !! pid) as [entry|]; cbv beta iota; [|by intros [= <-]].
  destruct (heap p !! entry) as [e|]; [|done].
  destruct (negb (inode =? 0) && negb (inode =? Inode (fileFields (fileEvent e))));
    cbv beta iota.
  - by intros [= <-].
  - destruct (heap p !! entry); done.
Qed.

(** C1, as the code has it: while the resolver is not yet Snapshotted, a call
    of resolve that misses the cache tier returns none at once, whatever
    use_procfs is.  Neither the kernel-map tier nor the procfs tier runs: the
    rate limiter is not consulted and no counter moves, the resolver is left
    as the cache tier left it. *)
Theorem resolve_snapshotting_stops_after_cache (fuel : nat) (pid tid inode : Z)
    (useProcFS : bool) (p : EBPFResolver) :
  state p ≠ Snapshotted →
  resolveFromCache pid tid inode p = Done None p →
  resolve (S fuel) pid tid inode useProcFS p = Done None p.
Proof.
  intros Hstate Hmiss. simpl. unfold resolveWith, bind at 1. rewrite Hmiss.
  munfold. apply Z.eqb_neq in Hstate. by rewrite Hstate.
Qed.

End Resolve.

Lemma resolve_snapshotting_stops_after_cache_witness :
  state Examples.snapshotting ≠ Snapshotted
  ∧ resolveFromCache 500 500 0 Examples.snapshotting = Done None Examples.snapshotting
  ∧ resolve 2 500 500 0 true Examples.snapshotting = Done None Examples.snapshotting.
Proof.
  split; [vm_compute; discriminate|]. split; [reflexivity|].
  apply resolve_snapshotting_stops_after_cache; [vm_compute; discriminate | reflexivity].
Defined.

(** C1, as the specification has it, fails: the resolver below is
    Snapshotting and misses pid 500 in its cache; the procfs tier, had it been
    tried, would have admitted the pid and built its entry from /proc, yet
    resolve returns none and leaves the limiter and the cache untouched.  The
    same call on the same resolver once Snapshotted does reach procfs. *)
Lemma resolve_snapshotting_procfs_counterexample :
  state Examples.snapshotting = Snapshotting
  ∧ resolveFromCache 500 500 0 Examples.snapshotting = Done None Examples.snapshotting
  ∧ result (resolveProcfsTier 500 Examples.snapshotting) = Some (Some 0%nat)
  ∧ (procFallbackLimiter <$> final (resolveProcfsTier 500 Examples.snapshotting))
    = Some [(500, 100000)]
  ∧ resolve 2 500 500 0 true Examples.snapshotting = Done None Examples.snapshotting
  ∧ result (resolve 2 500 500 0 true (set_state Snapshotted Examples.snapshotting))
    = Some (Some 0%nat).
Proof. repeat split; vm_compute; reflexivity. Qed.

Section AWS.
Context `{FieldHandlers}.

Lemma hasAccessKeyID_spec (id : string) (keys : list AWSSecurityCredentials) :
  hasAccessKeyID id keys = true ↔ id ∈ AccessKeyID <$> keys.
Proof.
  induction keys as [|key keys IH]; simpl.
  - split; [done|]. by intros ?%elem_of_nil.
  - rewrite elem_of_cons. case_bool_decide as Hkey.
    + split; [by left|done].
    + rewrite IH. split; [by right|]. intros [Heq|Hin]; [congruence|done].
Qed.

Lemma removeAt_sublist {A} (id : nat) (s s' : list A) :
  removeAt id s = Some s' → s' `sublist_of` s ∧ S (length s') = length s.
Proof.
  unfold removeAt. case_bool_decide; [|done]. intros [= <-].
  rewrite <- delete_take_drop. split; [apply sublist_delete|].
  rewrite length_delete; [lia|]. by apply lookup_lt_is_Some_2.
Qed.

Lemma removeAll_sublist {A} (toDelete : list nat) (s s' : list A) :
  removeAll toDelete s = Some s' → s' `sublist_of` s.
Proof.
  revert s. induction toDelete as [|id toDelete IH]; intros s; simpl.
  - by intros [= <-].
  - destruct (removeAt id s) as [s1|] eqn:Hrm; [|done].
    intros Hrest. apply removeAt_sublist in Hrm as [Hsub _].
    etrans; [by apply IH|done].
Qed.

Lemma descendingBelow_mono (n m : nat) (ids : list nat) :
  (n ≤ m)%nat → descendingBelow n ids → descendingBelow m ids.
Proof. destruct ids; simpl; [done|]. intros ? [? ?]. split; [lia|done]. Qed.

Lemma expiredIndexes_descending (eventTime : Z) (keys : list AWSSecurityCredentials) :
  ∀ id toDelete, descendingBelow id toDelete →
    descendingBelow (id + length keys) (expiredIndexes eventTime id keys toDelete).
Proof.
  induction keys as [|key keys IH]; intros id toDelete Hdesc; simpl.
  - by rewrite Nat.add_0_r.
  - replace (id + S (length keys))%nat with (S id + length keys)%nat by lia.
    apply IH. destruct (Before (Expiration key) eventTime); simpl.
    + split; [lia|done].
    + by apply (descendingBelow_mono id); [lia|].
Qed.

Lemma removeAll_descending {A} (toDelete : list nat) :
  ∀ (n : nat) (s : list A), descendingBelow n toDelete → (n ≤ length s)%nat →
    is_Some (removeAll toDelete s).
Proof.
  induction toDelete as [|id toDelete IH]; intros n s Hdesc Hn; simpl; [done|].
  destruct Hdesc as [Hid Hdesc].
  destruct (removeAt id s) as [s1|] eqn:Hrm.
  - apply removeAt_sublist in Hrm as [_ Hlen]. apply (IH id); [done|lia].
  - unfold removeAt in Hrm. case_bool_decide; [done|lia].
Qed.

Lemma awsKeysDistinct_store (l : nat) (x : ProcessCacheEntry) (p : EBPFResolver) :
  awsKeysDistinct p → NoDup (AccessKeyID <$> AWSSecurityCredentials_ x) →
  awsKeysDistinct (set_heap (<[l := x]> (heap p)) p).
Proof.
  intros Hp Hx l' x'. simpl. destruct (decide (l = l')) as [<-|Hne].
  - rewrite lookup_insert_eq. by intros [= <-].
  - rewrite lookup_insert_ne by done. apply Hp.
Qed.

(** C10: the access keys of the AWS credentials of every entry are pairwise
    distinct, and the two operations on the list keep them so.
    UpdateAWSSecurityCredentials leaves the resolver as it is when the access
    key of the event is empty or already occurs in the list of the entry.
    FetchAWSSecurityCredentials only removes elements: the list it leaves and
    returns is a sublist of the list it found. *)
Theorem aws_credentials_stay_distinct (pid : Z) (e : Event) (p : EBPFResolver) :
  cacheAllocated p → awsKeysDistinct p →
  (∃ p', UpdateAWSSecurityCredentials pid e p = Done tt p'
         ∧ awsKeysDistinct p'
         ∧ (AccessKeyID (IMDS_AWS_SecurityCredentials e) = "" → p' = p)
         ∧ (∀ l x, entryCache p !! pid = Some l → heap p !! l = Some x →
              AccessKeyID (IMDS_AWS_SecurityCredentials e)
                ∈ AccessKeyID <$> AWSSecurityCredentials_ x → p' = p))
  ∧ (∃ keys p', FetchAWSSecurityCredentials e p = Done keys p'
         ∧ awsKeysDistinct p'
         ∧ (∀ l x, entryCache p !! ProcessContext_Pid e = Some l → heap p !! l = Some x →
              keys `sublist_of` AWSSecurityCredentials_ x
              ∧ heap p' !! l = Some (set_AWSSecurityCredentials keys x))).
Proof.
  intros Halloc Hdistinct. split.
  - unfold UpdateAWSSecurityCredentials.
    destruct (AccessKeyID (IMDS_AWS_SecurityCredentials e)) as [|c id] eqn:Hid; simpl.
    { exists p. munfold. repeat split; done. }
    munfold. destruct (entryCache p !! pid) as [l|] eqn:Hcache; cbv beta iota.
    2:{ exists p. repeat split; done. }
    destruct (Halloc _ _ Hcache) as [x Hx]. rewrite Hx.
    destruct (hasAccessKeyID (String c id) (AWSSecurityCredentials_ x)) eqn:Hhas.
    { exists p. repeat split; done. }
    eexists. split; [done|]. split; [|split; [done|]].
    + apply awsKeysDistinct_store; [done|]. simpl.
      rewrite fmap_app, NoDup_app. split; [by eapply Hdistinct|]. split.
      * intros k Hk. simpl. rewrite Hid. intros ->%list_elem_of_singleton.
        apply hasAccessKeyID_spec in Hk. congruence.
      * simpl. apply NoDup_singleton.
    + intros l' x' [= <-] Hx'. rewrite Hx in Hx'. injection Hx' as <-.
      intros Hin%hasAccessKeyID_spec. congruence.
  - unfold FetchAWSSecurityCredentials. munfold.
    destruct (entryCache p !! ProcessContext_Pid e) as [l|] eqn:Hcache; cbv beta iota.
    2:{ exists [], p. repeat split; done. }
    destruct (Halloc _ _ Hcache) as [x Hx]. rewrite Hx.
    destruct (removeAll_descending
                (expiredIndexes (ResolveEventTime e) 0 (AWSSecurityCredentials_ x) [])
                (0 + length (AWSSecurityCredentials_ x)) (AWSSecurityCredentials_ x))
      as [keys Hkeys]; [by apply expiredIndexes_descending|simpl; lia|].
    rewrite Hkeys. cbv beta iota.
    pose proof (removeAll_sublist _ _ _ Hkeys) as Hsub.
    eexists _, _. split; [done|]. split.
    + apply awsKeysDistinct_store; [done|]. simpl.
      eapply sublist_NoDup; [by eapply Hdistinct|]. by apply fmap_sublist.
    + intros l' x' [= <-] Hx'. rewrite Hx in Hx'. injection Hx' as <-.
      split; [done|]. simpl. by rewrite lookup_insert_eq.
Qed.
End AWS.

Lemma aws_credentials_stay_distinct_witness :
  cacheAllocated Examples.twoKeys ∧ awsKeysDistinct Examples.twoKeys
  ∧ (∃ p', UpdateAWSSecurityCredentials 100 Examples.imdsRepeat Examples.twoKeys = Done tt p'
           ∧ awsKeysDistinct p')
  ∧ (∃ keys p', FetchAWSSecurityCredentials Examples.imdsRepeat Examples.twoKeys = Done keys p'
           ∧ awsKeysDistinct p').
Proof.
  assert (cacheAllocated Examples.twoKeys) as Halloc by compute_done.
  assert (awsKeysDistinct Examples.twoKeys) as Hdistinct by compute_done.
  split; [exact Halloc|]. split; [exact Hdistinct|].
  destruct (aws_credentials_stay_distinct 100 Examples.imdsRepeat Examples.twoKeys
              Halloc Hdistinct) as [(p1 & Hupdate & Hp1 & _) (keys & p2 & Hfetch & Hp2 & _)].
  split; [by exists p1 | by exists keys, p2].
Defined.

Example UpdateAWSSecurityCredentials_repeat :
  UpdateAWSSecurityCredentials 100 Examples.imdsRepeat Examples.twoKeys
  = Done tt Examples.twoKeys.
Proof. vm_compute. reflexivity. Qed.

Example UpdateAWSSecurityCredentials_fresh :
  (λ p', (fmap AccessKeyID ∘ AWSSecurityCredentials_) <$> heap p' !! 0%nat)
    <$> final (UpdateAWSSecurityCredentials 100 Examples.imdsFresh Examples.twoKeys)
  = Some (Some ["AKIA1"; "AKIA2"; "AKIA3"]).
Proof. vm_compute. reflexivity. Qed.

Example FetchAWSSecurityCredentials_prunes :
  result (FetchAWSSecurityCredentials Examples.imdsRepeat Examples.twoKeys)
  = Some [mkAWSSecurityCredentials "AKIA2" "AWS-HMAC" 9000].
Proof. vm_compute. reflexivity. Qed.

Section Paths.
Context `{Model} `{PathResolverInterface}.

Lemma resolveFileFieldsPathLoop_spec (e : FileFields) (ctrCtx : ContainerContext)
    (p : EBPFResolver) (n : nat) :
  cacheAllocated p →
  ∀ (last : PathResolution) (pce : nat), is_Some (heap p !! pce) →
  ∃ init c r,
    resolveFileFieldsPathLoop (S n) last e pce ctrCtx p = Done r p
    ∧ init ++ [c] `prefix_of` parentChain p (S n) pce
    ∧ Forall (λ c', prErr (ResolveFileFieldsPath e (pidContext c') ctrCtx) ≠ None) init
    ∧ r = ResolveFileFieldsPath e (pidContext c) ctrCtx
    ∧ (prErr r ≠ None → init ++ [c] = parentChain p (S n) pce).
Proof.
  intros Halloc. induction n as [|n IH]; intros last pce [c Hc].
  - exists [], c, (ResolveFileFieldsPath e (pidContext c) ctrCtx).
    assert (parentChain p 1 pce = [c]) as Hchain.
    { simpl. rewrite Hc. by destruct (entryCache p !! PPid c). }
    rewrite Hchain. simpl. munfold. rewrite Hc.
    destruct (prErr (ResolveFileFieldsPath e (pidContext c) ctrCtx)) eqn:Herr; cbv beta iota.
    + by destruct (entryCache p !! PPid c).
    + done.
  - change (resolveFileFieldsPathLoop (S (S n)) last e pce ctrCtx p)
      with ((let! c := load pce in
             let r := ResolveFileFieldsPath e (pidContext c) ctrCtx in
             match prErr r with
             | None => ret r
             | Some _ =>
                 let! cache := gets entryCache in
                 match cache !! PPid c with
                 | None => ret r
                 | Some parent => resolveFileFieldsPathLoop (S n) r e parent ctrCtx
                 end
             end) p).
    change (parentChain p (S (S n)) pce)
      with (match heap p !! pce with
            | None => []
            | Some c => c :: match entryCache p !! PPid c with
                             | Some parent => parentChain p (S n) parent
                             | None => []
                             end
            end).
    munfold. rewrite Hc. cbv zeta.
    destruct (prErr (ResolveFileFieldsPath e (pidContext c) ctrCtx)) as [err|] eqn:Herr;
      cbv beta iota.
    + destruct (entryCache p !! PPid c) as [parent|] eqn:Hparent; cbv beta iota.
      * destruct (IH (ResolveFileFieldsPath e (pidContext c) ctrCtx) parent)
          as (init & c' & r & Hrun & Hprefix & Hfailed & Hr & Hall).
        { by eapply Halloc. }
        exists (c :: init), c', r. split; [done|]. split; [|split; [|split]].
        -- simpl. by apply prefix_cons.
        -- constructor; [by rewrite Herr|done].
        -- done.
        -- intros Hne. simpl. f_equal. by apply Hall.
      * exists [], c, (ResolveFileFieldsPath e (pidContext c) ctrCtx).
        by rewrite Herr.
    + exists [], c, (ResolveFileFieldsPath e (pidContext c) ctrCtx).
      rewrite Herr. repeat split; try done.
      simpl. apply prefix_cons, prefix_nil.
Qed.

Lemma parentChain_length (p : EBPFResolver) (n : nat) :
  ∀ pce, (length (parentChain p n pce) ≤ n)%nat.
Proof.
  induction n as [|n IH]; intros pce; simpl; [lia|].
  destruct (heap p !! pce) as [c|]; simpl; [|lia].
  destruct (entryCache p !! PPid c) as [parent|]; simpl; [|lia].
  specialize (IH parent). lia.
Qed.

(** C7: path resolution tries the entry it is given and, while the attempt
    fails, the parent found in the pid map under the ppid of the entry just
    tried, with that parent's pid context.  It makes three attempts at most
    (the first one and up to two retries), and reports a failure only when the
    last entry it could try has failed.  When it fails, SetProcessPath
    clears the pathname and the basename of the file event, adds one to the
    path-error counter and returns the error of the last attempt. *)
Theorem path_resolution_retries_then_fails (fileEvent : FileEvent) (pce : nat)
    (ctrCtx : ContainerContext) (p : EBPFResolver) :
  cacheAllocated p → is_Some (heap p !! pce) →
  ∃ init c r,
    resolveFileFieldsPath (fileFields fileEvent) pce ctrCtx p = Done r p
    ∧ (length (init ++ [c]) ≤ 3)%nat
    ∧ init ++ [c] `prefix_of` parentChain p 3 pce
    ∧ Forall (λ c', prErr (ResolveFileFieldsPath (fileFields fileEvent) (pidContext c') ctrCtx)
                    ≠ None) init
    ∧ r = ResolveFileFieldsPath (fileFields fileEvent) (pidContext c) ctrCtx
    ∧ (prErr r ≠ None → init ++ [c] = parentChain p 3 pce)
    ∧ (∀ err, Inode (fileFields fileEvent) ≠ 0 → prErr r = Some err →
         SetProcessPath fileEvent pce ctrCtx p
         = Done (set_BasenameStr "" (set_PathnameStr "" fileEvent), prPathnameStr r, Some err)
             (set_stats (bump Inc pathErrStats (stats p)) p)).
Proof.
  intros Halloc Hpce.
  destruct (resolveFileFieldsPathLoop_spec (fileFields fileEvent) ctrCtx p 2 Halloc
              (mkPathResolution "" "" MountSourceUnknown MountOriginUnknown None) pce Hpce)
    as (init & c & r & Hrun & Hprefix & Hfailed & Hr & Hall).
  exists init, c, r. split; [done|]. split.
  { etrans; [by apply prefix_length|apply parentChain_length]. }
  do 4 (split; [done|]).
  intros err Hinode Herr. unfold SetProcessPath.
  apply Z.eqb_neq in Hinode. rewrite Hinode.
  unfold bind. unfold resolveFileFieldsPath. rewrite Hrun, Herr. 
  unfold onError. by munfold.
Qed.

(** With no inode there is no attempt at all: the key is invalid. *)
Lemma SetProcessPath_no_inode (fileEvent : FileEvent) (pce : nat)
    (ctrCtx : ContainerContext) (p : EBPFResolver) :
  Inode (fileFields fileEvent) = 0 →
  SetProcessPath fileEvent pce ctrCtx p
  = Done (set_BasenameStr "" (set_PathnameStr "" fileEvent), "",
          Some (ErrInvalidKeyPath 0 (MountID (fileFields fileEvent))))
      (set_stats (bump Inc pathErrStats (stats p)) p).
Proof. intros Hinode. unfold SetProcessPath, onError. rewrite Hinode. by munfold. Qed.

End Paths.

Lemma path_resolution_retries_then_fails_witness :
  cacheAllocated Examples.lineage ∧ is_Some (heap Examples.lineage !! 0%nat)
  ∧ ∃ init c r,
      resolveFileFieldsPath (fileFields Examples.binary) 0 (mkContainerContext "") Examples.lineage
      = Done r Examples.lineage
      ∧ (length (init ++ [c]) ≤ 3)%nat
      ∧ (prErr r ≠ None → init ++ [c] = parentChain Examples.lineage 3 0)
      ∧ (∀ err, prErr r = Some err →
           SetProcessPath Examples.binary 0 (mkContainerContext "") Examples.lineage
           = Done (set_BasenameStr "" (set_PathnameStr "" Examples.binary),
                   prPathnameStr r, Some err)
               (set_stats (bump Inc pathErrStats (stats Examples.lineage)) Examples.lineage)).
Proof.
  assert (cacheAllocated Examples.lineage) as Halloc by compute_done.
  assert (is_Some (heap Examples.lineage !! 0%nat)) as Hpce by compute_done.
  split; [exact Halloc|]. split; [exact Hpce|].
  destruct (path_resolution_retries_then_fails Examples.binary 0 (mkContainerContext "")
              Examples.lineage Halloc Hpce)
    as (init & c & r & Hrun & Hlen & _ & _ & _ & Hall & Hfail).
  exists init, c, r. split; [exact Hrun|]. split; [exact Hlen|]. split; [exact Hall|].
  intros err. apply Hfail. vm_compute. discriminate.
Defined.

(** On that lineage the three attempts (30, 20, 10) fail, and pid 1, in whose
    context the path resolves, is not reached. *)
Example SetProcessPath_three_failures :
  (λ r, (PathnameStr r.1.1, BasenameStr r.1.1, r.2))
    <$> result (SetProcessPath Examples.binary 0 (mkContainerContext "") Examples.lineage)
  = Some ("", "", Some (ErrOther "dentry not found"))
  ∧ (λ p, stats p pathErrStats)
      <$> final (SetProcessPath Examples.binary 0 (mkContainerContext "") Examples.lineage)
    = Some 1.
Proof. split; vm_compute; reflexivity. Qed.

Example parentChain_lineage :
  (Pid ∘ pidContext) <$> parentChain Examples.lineage 3 0 = [30; 20; 10].
Proof. vm_compute. reflexivity. Qed.

(** From process 10 the second attempt, in the context of pid 1, succeeds. *)
Example SetProcessPath_second_attempt :
  (λ r, (PathnameStr r.1.1, r.1.2, r.2))
    <$> result (SetProcessPath Examples.binary 2 (mkContainerContext "") Examples.lineage)
  = Some ("/usr/bin/true", "/usr/bin/true", None).
Proof. vm_compute. reflexivity. Qed.

Section Exec.
Context `{Model}.

(** C4: an exec insertion that finds, under the pid of the new entry, a
    previous entry equal to it (Equals, taken on the two entries as they stand
    when the exec-bomb check runs, that is after the inode check has marked the
    new entry) applies the exec time of the new entry to the previous entry and
    returns.  The pid map is unchanged and still maps the pid to the previous
    entry, no entry is allocated or inserted, and the size gauge and the
    counters of added entries do not move. *)
Theorem insertExecEntry_coalesces_exec_bomb (entry : nat) (inode : Z) (source : Source)
    (p : EBPFResolver) (e : ProcessCacheEntry) (prev : nat) (pe : ProcessCacheEntry) :
  heap p !! entry = Some e →
  Pid (pidContext e) ≠ 0 →
  entryCache p !! Pid (pidContext e) = Some prev →
  heap p !! prev = Some pe →
  let mismatch := negb (inode =? 0) && negb (Inode (fileFields (fileEvent pe)) =? inode) in
  let e1 := if mismatch then set_IsParentMissing true e else e in
  let pe1 := if decide (prev = entry) then e1 else pe in
  Equals pe1 e1 = true →
  ∃ p', insertExecEntry entry inode source p = Done tt p'
        ∧ entryCache p' = entryCache p
        ∧ heap p' !! prev = Some (set_ExecTime (ExecTime e) pe1)
        ∧ dom (heap p') = dom (heap p)
        ∧ stats p' cacheSize = stats p cacheSize
        ∧ addedEntries (stats p') = addedEntries (stats p)
        ∧ processCacheEntryPool p' = processCacheEntryPool p.
Proof.
  intros He Hpid Hprev Hpe mismatch e1 pe1 Hequals.
  assert (entry ∈ dom (heap p)) as Hentry by (apply elem_of_dom; eauto).
  assert (prev ∈ dom (heap p)) as Hprevdom by (apply elem_of_dom; eauto).
  unfold insertExecEntry, checkExecInode, ApplyExecTimeOf. munfold.
  rewrite He. apply Z.eqb_neq in Hpid. rewrite Hpid. cbv beta iota.
  rewrite Hprev, Hpe. cbv beta iota.
  fold mismatch.
  assert (∀ h : gmap nat ProcessCacheEntry,
            h !! entry = Some e1 → (prev = entry ∨ h !! prev = Some pe) →
            h !! prev = Some pe1) as Hprev1.
  { intros h Hh Hor. subst pe1. destruct (decide (prev = entry)) as [->|Hne]; [done|].
    by destruct Hor. }
  destruct mismatch eqn:Hmis; cbv beta iota.
  - rewrite He. psimpl. fold e1.
    assert (<[entry:=e1]> (heap p) !! entry = Some e1) as Hl2 by apply lookup_insert_eq.
    assert (<[entry:=e1]> (heap p) !! prev = Some pe1) as Hl1.
    { apply Hprev1; [done|]. destruct (decide (prev = entry)); [by left|right].
      by rewrite lookup_insert_ne. }
    repeat (first [rewrite Hl1 | rewrite Hl2 | rewrite Hequals]; cbv beta iota; psimpl).
    eexists. split; [reflexivity|]. psimpl.
    split; [done|]. split; [by rewrite lookup_insert_eq|].
    split; [by rewrite !dom_insert_lookup_L by (rewrite ?Hl1; by eexists)|].
    split; [by rewrite bump_other|]. split; [|done].
    unfold addedEntries. by rewrite !bump_other.
  - assert (heap p !! prev = Some pe1) as Hl1.
    { apply Hprev1; [done|]. by right. }
    assert (pe1 = pe) as Hpe1 by congruence.
    fold e1 in He.
    repeat (first [rewrite Hpe | rewrite He | rewrite Hpe1 in Hequals; rewrite Hequals];
            cbv beta iota; psimpl).
    eexists. split; [reflexivity|]. psimpl.
    split; [done|]. split; [by rewrite lookup_insert_eq, Hpe1|].
    split; [by rewrite dom_insert_lookup_L by (by eexists)|]. done.
Qed.
End Exec.

Lemma insertExecEntry_coalesces_exec_bomb_witness :
  heap Examples.execBomb !! 1%nat = Some (Host.entryOf 100 1 66 1000 3000)
  ∧ entryCache Examples.execBomb !! 100 = Some 0%nat
  ∧ heap Examples.execBomb !! 0%nat = Some (Host.entryOf 100 1 66 1000 2000)
  ∧ Equals (Host.entryOf 100 1 66 1000 2000) (Host.entryOf 100 1 66 1000 3000) = true
  ∧ ∃ p', insertExecEntry 1 66 ProcessCacheEntryFromEvent Examples.execBomb = Done tt p'
          ∧ entryCache p' = entryCache Examples.execBomb
          ∧ ExecTime <$> heap p' !! 0%nat = Some 3000
          ∧ stats p' cacheSize = stats Examples.execBomb cacheSize
          ∧ addedEntries (stats p') = addedEntries (stats Examples.execBomb).
Proof.
  assert (heap Examples.execBomb !! 1%nat = Some (Host.entryOf 100 1 66 1000 3000)) as He
    by (vm_compute; reflexivity).
  assert (entryCache Examples.execBomb !! Pid (pidContext (Host.entryOf 100 1 66 1000 3000))
          = Some 0%nat) as Hprev by (vm_compute; reflexivity).
  assert (heap Examples.execBomb !! 0%nat = Some (Host.entryOf 100 1 66 1000 2000)) as Hpe
    by (vm_compute; reflexivity).
  assert (Equals (Host.entryOf 100 1 66 1000 2000) (Host.entryOf 100 1 66 1000 3000) = true)
    as Hequals by (vm_compute; reflexivity).
  split; [exact He|]. split; [exact Hprev|]. split; [exact Hpe|]. split; [exact Hequals|].
  destruct (insertExecEntry_coalesces_exec_bomb 1 66 ProcessCacheEntryFromEvent
              Examples.execBomb _ 0%nat _ He ltac:(vm_compute; discriminate) Hprev Hpe Hequals)
    as (p' & Hrun & Hcache & Hheap & _ & Hsize & Hadded & _).
  exists p'. split; [exact Hrun|]. split; [exact Hcache|].
  split; [rewrite Hheap; reflexivity|]. split; [exact Hsize|exact Hadded].
Defined.

(** A second exec of another binary does replace the entry. *)
Example insertExecEntry_other_binary :
  (λ p', (entryCache p' !! 100, stats p' cacheSize, addedEntries (stats p')))
    <$> final (insertExecEntry 2 0 ProcessCacheEntryFromEvent Examples.execBomb)
  = Some (Some 2%nat, 1, 1).
Proof. vm_compute. reflexivity. Qed.

Section KernelMaps.
Context `{Model} `{PathResolverInterface} `{MountResolverInterface}
        `{Resolvers} `{Procfs}.

(** What [NewProcessCacheEntry] allocates. *)
Lemma NewProcessCacheEntry_fresh (pidCtx : PIDContext) (p : EBPFResolver) :
  ∃ entry p1,
    NewProcessCacheEntry pidCtx p = Done entry p1
    ∧ heap p1 !! entry
      = Some (set_Cookie (NewCookie (cookies p)) (set_pidContext pidCtx (set_refCount 1 zeroEntry)))
    ∧ entryCache p1 = entryCache p
    ∧ stats p1 = stats p.
Proof.
  unfold NewProcessCacheEntry, Pool_Get. munfold.
  destruct (processCacheEntryPool p) as [|l free]; psimpl;
    rewrite lookup_insert_eq; cbv beta iota; psimpl;
    eexists _, _; (split; [reflexivity|]); psimpl;
    by rewrite lookup_insert_eq.
Qed.

(** C8: in the kernel-map tier, once the entry has been decoded from the
    proc_cache row, a file inode that differs from the exec inode of the entry
    makes the tier return none with the pid map as it was.  When the decoded
    inode is not zero the check of the tier rejects the entry; when it is zero
    (so the exec inode is not) the check lets the entry through and the path
    resolution that follows refuses the zero inode, with the same outcome,
    provided the pid_cache decoder, which runs in between, does not write the
    file inode. *)
Theorem resolveFromKernelMaps_rejects_inode_mismatch (fuel : nat) (pid tid inode : Z)
    (p : EBPFResolver) (pidCache procCache : list byte)
    (ctrCtx : ContainerContext) (read : nat) (cgroupCtx : CGroupContext) (cgroupRead : nat)
    (e1 : ProcessCacheEntry) :
  pid ≠ 0 →
  pidCacheMap p !! pid = Some pidCache →
  (SizeOfCookie ≤ length pidCache)%nat →
  procCacheMap p !! leUint (take SizeOfCookie pidCache) = Some procCache →
  UnmarshalContainerContext procCache = Some (ctrCtx, read) →
  UnmarshalCGroupContext procCache = Some (cgroupCtx, cgroupRead) →
  (read + cgroupRead ≤ length procCache)%nat →
  UnmarshalProcEntryBinary
    (set_Cookie (NewCookie (cookies p))
       (set_pidContext (mkPIDContext pid tid 0 false inode) (set_refCount 1 zeroEntry)))
    (drop (read + cgroupRead) procCache) = Some e1 →
  Inode (fileFields (fileEvent e1)) ≠ ExecInode (pidContext e1) →
  (∀ e2, UnmarshalPidCacheBinary e1 pidCache = Some e2 →
         Inode (fileFields (fileEvent e2)) = Inode (fileFields (fileEvent e1))) →
  ∃ p', resolveFromKernelMaps fuel pid tid inode p = Done None p'
        ∧ entryCache p' = entryCache p.
Proof.
  intros Hpid HpidCache Hcookie HprocCache Hctr Hcgroup Hslice Hproc Hinode Hkeeps.
  unfold resolveFromKernelMaps, resolveFromKernelMapsWith.
  apply Z.eqb_neq in Hpid. rewrite Hpid.
  unfold bind at 1, gets at 1. rewrite HpidCache.
  rewrite (bool_decide_eq_true_2 _ Hcookie). cbn [negb].
  unfold bind at 1, gets at 1. rewrite HprocCache.
  destruct (NewProcessCacheEntry_fresh (mkPIDContext pid tid 0 false inode) p)
    as (entry & p1 & Hnew & Hentry & Hcache1 & _).
  unfold bind at 1. rewrite Hnew, Hctr, Hcgroup.
  rewrite (bool_decide_eq_true_2 _ Hslice). cbn [negb].
  unfold bind at 1, load at 1. rewrite Hentry, Hproc.
  unfold bind at 1, store at 1, modify at 1.
  destruct (Inode (fileFields (fileEvent e1)) =? 0) eqn:Hzero; cbn [negb andb].
  - apply Z.eqb_eq in Hzero.
    destruct (UnmarshalPidCacheBinary e1 pidCache) as [e2|] eqn:Hpidc.
    2:{ eexists. split; [reflexivity|]. by psimpl. }
    unfold bind at 1, store at 1, modify at 1.
    unfold bind at 1, ResolveNewProcessCacheEntry.
    unfold bind at 1, load at 1. psimpl. rewrite lookup_insert_eq.
    unfold bind at 1.
    rewrite SetProcessPath_no_inode by (rewrite (Hkeeps e2); done).
    munfold. psimpl. rewrite lookup_insert_eq. cbv beta iota. psimpl.
    eexists. split; [reflexivity|]. by psimpl.
  - assert ((Inode (fileFields (fileEvent e1)) =? ExecInode (pidContext e1)) = false) as Hne
      by (by apply Z.eqb_neq).
    rewrite Hne.
    cbn [negb]. eexists. split; [reflexivity|]. by psimpl.
Qed.

End KernelMaps.

Lemma resolveFromKernelMaps_rejects_inode_mismatch_witness :
  (λ e1, (Inode (fileFields (fileEvent e1)), ExecInode (pidContext e1)))
    <$> UnmarshalProcEntryBinary
          (set_Cookie (NewCookie (cookies Examples.kernelMaps))
             (set_pidContext (mkPIDContext 500 500 0 false 66) (set_refCount 1 zeroEntry)))
          (drop 2 [x00; x00; x00; x05])
  = Some (0, 66)
  ∧ ∃ p', resolveFromKernelMaps 0 500 500 66 Examples.kernelMaps = Done None p'
          ∧ entryCache p' = entryCache Examples.kernelMaps.
Proof.
  split; [vm_compute; reflexivity|].
  pose (e0 := set_Cookie (NewCookie (cookies Examples.kernelMaps))
                (set_pidContext (mkPIDContext 500 500 0 false 66) (set_refCount 1 zeroEntry))).
  pose (pidCache := [x08; x00; x00; x00; x00; x00; x00; x00; x01; x09]).
  pose (procCache := [x00; x00; x00; x05]).
  destruct (UnmarshalProcEntryBinary e0 (drop (1 + 1) procCache)) as [e1|] eqn:Hproc;
    [|vm_compute in Hproc; discriminate].
  assert (Inode (fileFields (fileEvent e1)) ≠ ExecInode (pidContext e1)) as Hinode.
  { vm_compute in Hproc. injection Hproc as <-. vm_compute. discriminate. }
  assert (∀ e2, UnmarshalPidCacheBinary e1 pidCache = Some e2 →
                Inode (fileFields (fileEvent e2)) = Inode (fileFields (fileEvent e1)))
    as Hkeeps.
  { intros e2 Hpidc. vm_compute in Hproc. injection Hproc as <-.
    vm_compute in Hpidc. injection Hpidc as <-. reflexivity. }
  apply (resolveFromKernelMaps_rejects_inode_mismatch 0 500 500 66 Examples.kernelMaps
           pidCache procCache (mkContainerContext "") 1 zeroCGroup 1 e1);
    [vm_compute; discriminate | vm_compute; reflexivity | vm_compute; lia
    | vm_compute; reflexivity | reflexivity | reflexivity | vm_compute; lia
    | exact Hproc | exact Hinode | exact Hkeeps].
Defined.

(** The three cases on the kernel maps of the example: the row of pid 1
    carries inode 66 and is promoted when 66 is asked for, and rejected when
    65 is; the row of pid 500 carries no inode and is rejected as well. *)
Example resolveFromKernelMaps_cases :
  (λ p', entryCache p' !! 1) <$> final (resolveFromKernelMaps 1 1 1 66 Examples.kernelMaps)
  = Some (Some 0%nat)
  ∧ result (resolveFromKernelMaps 1 1 1 66 Examples.kernelMaps) = Some (Some 0%nat)
  ∧ result (resolveFromKernelMaps 1 1 1 65 Examples.kernelMaps) = Some None
  ∧ (λ p', (entryCache p' !! 500, stats p' pathErrStats))
      <$> final (resolveFromKernelMaps 1 500 500 66 Examples.kernelMaps)
    = Some (None, 1).
Proof. repeat split; vm_compute; reflexivity. Qed.

Section Metrics.
Context `{Statsd}.

(** A step of [SendStats] that leaves the counter [c] at zero if it was, and
    one that puts it at zero. *)
Definition keepsZero (c : Counter) (step : M (option error)) : Prop :=
  ∀ p r p', step p = Done r p' → stats p c = 0 → stats p' c = 0.

Definition setsZero (c : Counter) (step : M (option error)) : Prop :=
  ∀ p r p', step p = Done r p' → stats p' c = 0.

Lemma untilError_zero (c : Counter) (steps : list (M (option error))) :
  Forall (keepsZero c) steps → Exists (setsZero c) steps →
  ∀ p p', untilError steps p = Done None p' → stats p' c = 0.
Proof.
  intros Hkeeps. induction Hkeeps as [|step steps Hstep Hsteps IH]; intros Hsets.
  - by apply Exists_nil in Hsets.
  - assert (∀ p p', untilError steps p = Done None p' → stats p c = 0 → stats p' c = 0)
      as Hrest.
    { clear -Hsteps. induction Hsteps as [|step' steps' Hstep' _ IH']; intros p p'.
      - by intros [= <-].
      - simpl. unfold bind. destruct (step' p) as [[err|] p1| |] eqn:Hrun; try done.
        intros Hrest Hzero. eapply IH'; [done|]. by eapply Hstep'. }
    intros p p'. simpl. unfold bind.
    destruct (step p) as [[err|] p1| |] eqn:Hrun; try done.
    intros Huntil. apply Exists_cons in Hsets as [Hset|Hset].
    + eapply Hrest; [done|]. by eapply Hset.
    + by eapply IH.
Qed.

Lemma sendGauge_keepsZero (c : Counter) (name : string) (value : M Z) (msg : string) :
  (∀ p, ∃ v, value p = Done v p) → keepsZero c (sendGauge name value msg).
Proof.
  intros Hvalue p r p'. unfold sendGauge, bind. destruct (Hvalue p) as [v ->].
  destruct (Gauge name v []); by intros [= _ <-].
Qed.

Lemma swapAndCount_stats (c : Counter) (name : string) (tags : list string) (msg : string)
    (p : EBPFResolver) (r : option error) (p' : EBPFResolver) :
  swapAndCount c name tags msg p = Done r p' → stats p' = bump (λ _, 0) c (stats p).
Proof.
  unfold swapAndCount. munfold. destruct (0 <? stats p c); [|by intros [= _ <-]].
  destruct (Count name (stats p c) tags); by intros [= _ <-].
Qed.

Lemma swapAndCount_keepsZero (c c' : Counter) (name : string) (tags : list string)
    (msg : string) :
  keepsZero c (swapAndCount c' name tags msg).
Proof.
  intros p r p' Hrun Hzero. rewrite (swapAndCount_stats _ _ _ _ _ _ _ Hrun).
  unfold bump. by case_decide.
Qed.

Lemma swapAndCount_setsZero (c : Counter) (name : string) (tags : list string)
    (msg : string) :
  setsZero c (swapAndCount c name tags msg).
Proof.
  intros p r p' Hrun. rewrite (swapAndCount_stats _ _ _ _ _ _ _ Hrun).
  apply bump_same.
Qed.

(** A flush that succeeds leaves every counter but the size gauge at zero. *)
Lemma SendStats_resets (p p' : EBPFResolver) (c : Counter) :
  c ≠ cacheSize → SendStats p = Done None p' → stats p' c = 0.
Proof.
  intros Hc. unfold SendStats. apply untilError_zero.
  - repeat first
      [ apply Forall_nil_2
      | apply Forall_cons_2;
        [first [ apply swapAndCount_keepsZero
               | apply sendGauge_keepsZero; intros q; eexists; reflexivity ]|] ].
  - destruct c; try done;
      repeat first
        [ apply Exists_cons_hd; apply swapAndCount_setsZero
        | apply Exists_cons_tl ].
Qed.
End Metrics.

Section Insertions.
Context `{Model} `{Statsd}.

Lemma runs_insertEntry (entry : nat) (prev : option nat) (source : Source)
    (p : EBPFResolver) :
  entry ∈ dom (heap p) →
  (∀ pr, prev = Some pr → pr ∈ dom (heap p)) →
  runs (insertEntry entry prev source) p (λ _ p',
    dom (heap p') = dom (heap p)
    ∧ ∀ c, c ≠ cacheSize →
        stats p' c = if decide (addedCounter source = Some c) then Inc (stats p c)
                     else stats p c).
Proof.
  intros [e He]%elem_of_dom Hprev. unfold insertEntry.
  apply runs_bind. eapply runs_update; [done|].
  apply runs_bind. eapply runs_load; [psimpl; by rewrite lookup_insert_eq|].
  apply runs_bind. apply runs_modify.
  apply runs_bind. eapply runs_weaken.
  { eapply runs_Retain. psimpl. by rewrite lookup_insert_eq. }
  psimpl. intros _ p1 (Hframe1 & Hstats1 & Hheap1).
  assert (dom (heap p1) = dom (heap p)) as Hdom1.
  { rewrite (frame_dom _ _ Hframe1). psimpl. apply dom_insert_lookup_L. by eexists. }
  apply runs_bind.
  eapply (runs_weaken _ _ (λ _ p2, dom (heap p2) = dom (heap p)
                                   ∧ ∀ c, c ≠ cacheSize → stats p2 c = stats p c)).
  { destruct prev as [pr|].
    - pose proof (Hprev pr eq_refl) as Hpr. apply elem_of_dom in Hpr as [pe Hpe].
      assert (is_Some (heap p1 !! pr)) as [pe1 Hpe1].
      { apply elem_of_dom. rewrite Hdom1. apply elem_of_dom. by eexists. }
      eapply runs_weaken; [by eapply runs_Release|].
      intros _ p2 (Hframe2 & Hstats2 & _). split.
      + by rewrite (frame_dom _ _ Hframe2).
      + intros c Hc. rewrite Hstats2 by done. by rewrite Hstats1.
    - apply runs_ret. split; [done|]. intros c _. by rewrite Hstats1. }
  intros _ p2 [Hdom2 Hstats2].
  assert (is_Some (heap p2 !! entry)) as [e2 He2].
  { apply elem_of_dom. rewrite Hdom2. apply elem_of_dom. by eexists. }
  apply runs_bind. eapply runs_load; [done|].
  apply runs_bind. unfold cgroupAddPID. apply runs_modify.
  set (p3 := match cgroupResolver p2 with
             | Some calls =>
                 if bool_decide (ContainerID e2 ≠ "")
                 then set_cgroupResolver
                        (Some (AddPID (Pid (pidContext e2)) (ContainerID e2) :: calls)) p2
                 else p2
             | None => p2
             end).
  assert (heap p3 = heap p2 ∧ stats p3 = stats p2) as [Hheap3 Hstats3].
  { subst p3. destruct (cgroupResolver p2); [|done]. by case_bool_decide. }
  apply runs_bind.
  eapply (runs_weaken _ _ (λ _ p4, heap p4 = heap p3
            ∧ ∀ c, stats p4 c = if decide (addedCounter source = Some c) then Inc (stats p3 c)
                                else stats p3 c)).
  { destruct source; unfold counterInc, addedCounter;
      first [apply runs_ret | apply runs_modify]; psimpl;
      (split; [done|]); intros c; unfold bump;
      repeat case_decide; congruence. }
  intros _ p4 [Hheap4 Hstats4]. unfold counterInc. apply runs_modify. psimpl.
  split; [by rewrite Hheap4, Hheap3|].
  intros c Hc. rewrite bump_other by done. rewrite Hstats4, Hstats3.
  by rewrite Hstats2.
Qed.

Lemma Inc_no_overflow (c : Z) : 0 ≤ c → c + 1 < 2 ^ 63 → Inc c = c + 1.
Proof.
  intros Hlo Hhi. unfold Inc, int64_wrap.
  rewrite Z.mod_small; lia.
Qed.

(** The calls of a sequence that bump the counter [c]. *)
Definition bumping (c : Counter) (calls : list (nat * option nat * Source)) : Z :=
  Z.of_nat (length (filter (λ call, addedCounter call.2 = Some c) calls)).

Lemma bumping_cons (c : Counter) (call : nat * option nat * Source)
    (calls : list (nat * option nat * Source)) :
  bumping c (call :: calls)
  = (if decide (addedCounter call.2 = Some c) then 1 else 0) + bumping c calls.
Proof.
  unfold bumping. rewrite filter_cons. case_decide; simpl length; lia.
Qed.

Lemma bumping_le (c : Counter) (calls : list (nat * option nat * Source)) :
  0 ≤ bumping c calls ≤ Z.of_nat (length calls).
Proof.
  unfold bumping. pose proof (length_filter (λ call, addedCounter call.2 = Some c) calls).
  lia.
Qed.

Lemma bumping_counted (calls : list (nat * option nat * Source)) :
  bumping addedEntriesFromEvent calls + bumping addedEntriesFromKernelMap calls
  + bumping addedEntriesFromProcFS calls
  = Z.of_nat (length (filter (λ call, counted call.2 = true) calls)).
Proof.
  induction calls as [|call calls IH]; [done|].
  rewrite !bumping_cons, filter_cons.
  destruct call as [[entry prev] source].
  destruct source; simpl; repeat case_decide; try done; simpl length; lia.
Qed.

Lemma runs_insertions (calls : list (nat * option nat * Source)) :
  ∀ p,
    (∀ call, call ∈ calls →
       call.1.1 ∈ dom (heap p) ∧ ∀ pr, call.1.2 = Some pr → pr ∈ dom (heap p)) →
    runs (insertions calls) p (λ _ p',
      ∀ c, c ≠ cacheSize → 0 ≤ stats p c →
           stats p c + Z.of_nat (length calls) < 2 ^ 63 →
           stats p' c = stats p c + bumping c calls).
Proof.
  unfold insertions.
  induction calls as [|call calls IH]; intros p Hvalid.
  - apply runs_ret. intros c _ _ _. unfold bumping. simpl. lia.
  - simpl forEach. apply runs_bind.
    destruct (Hvalid call) as [Hentry Hprev]; [by left|].
    eapply runs_weaken; [by apply runs_insertEntry|].
    intros _ p1 [Hdom1 Hstats1]. cbv beta.
    eapply runs_weaken.
    { apply IH. intros call' Hin. rewrite Hdom1. apply Hvalid. by right. }
    intros u p' Hstats' c Hc Hlo Hhi.
    rewrite bumping_cons. simpl length in Hhi.
    pose proof (Hstats1 c Hc) as Hstep.
    specialize (Hstats' c Hc).
    destruct (decide (addedCounter call.2 = Some c)).
    + rewrite Inc_no_overflow in Hstep by lia.
      rewrite Hstats' by lia. lia.
    + rewrite Hstats' by lia. lia.
Qed.

(** C3, as the code has it: over any sequence of insertions into the pid map,
    the sum of the three counters of added entries grows by the number of
    insertions whose source is event, kernel map or procfs.  An insertion
    from the snapshot has no counter and is not counted.  (The counters are
    64-bit; the sequence is short enough not to wrap them.) *)
Theorem added_counters_count_insertions (calls : list (nat * option nat * Source))
    (p : EBPFResolver) :
  (∀ call, call ∈ calls →
     call.1.1 ∈ dom (heap p) ∧ ∀ pr, call.1.2 = Some pr → pr ∈ dom (heap p)) →
  0 ≤ stats p addedEntriesFromEvent →
  0 ≤ stats p addedEntriesFromKernelMap →
  0 ≤ stats p addedEntriesFromProcFS →
  addedEntries (stats p) + Z.of_nat (length calls) < 2 ^ 63 →
  ∃ p', insertions calls p = Done tt p'
        ∧ addedEntries (stats p')
          = addedEntries (stats p)
            + Z.of_nat (length (filter (λ call, counted call.2 = true) calls)).
Proof.
  intros Hvalid Hevent Hkernel Hprocfs Hsum. unfold addedEntries in *.
  pose proof (runs_insertions calls p Hvalid) as Hruns.
  apply runs_Done in Hruns as ([] & p' & Hrun & Hstats).
  exists p'. split; [done|].
  rewrite <- bumping_counted.
  rewrite !Hstats by (try done; lia). lia.
Qed.

(** After a flush that succeeded the three counters count the insertions that
    have a counter. *)
Lemma added_counters_since_flush (calls : list (nat * option nat * Source))
    (p0 p : EBPFResolver) :
  SendStats p0 = Done None p →
  (∀ call, call ∈ calls →
     call.1.1 ∈ dom (heap p) ∧ ∀ pr, call.1.2 = Some pr → pr ∈ dom (heap p)) →
  Z.of_nat (length calls) < 2 ^ 63 →
  ∃ p', insertions calls p = Done tt p'
        ∧ addedEntries (stats p')
          = Z.of_nat (length (filter (λ call, counted call.2 = true) calls)).
Proof.
  intros Hflush Hvalid Hlen.
  pose proof (runs_insertions calls p Hvalid) as Hruns.
  apply runs_Done in Hruns as ([] & p' & Hrun & Hstats).
  exists p'. split; [done|].
  rewrite <- bumping_counted. unfold addedEntries.
  rewrite !Hstats by (try done; rewrite (SendStats_resets p0 p) by done; lia).
  rewrite !(SendStats_resets p0 p) by done. lia.
Qed.

End Insertions.

Lemma added_counters_count_insertions_witness :
  0 ≤ stats Examples.execBomb addedEntriesFromEvent
  ∧ 0 ≤ stats Examples.execBomb addedEntriesFromKernelMap
  ∧ 0 ≤ stats Examples.execBomb addedEntriesFromProcFS
  ∧ addedEntries (stats Examples.execBomb) + Z.of_nat (length Examples.threeInsertions) < 2 ^ 63
  ∧ ∃ p', insertions Examples.threeInsertions Examples.execBomb = Done tt p'
          ∧ addedEntries (stats p') = addedEntries (stats Examples.execBomb) + 2.
Proof.
  assert (0 ≤ stats Examples.execBomb addedEntriesFromEvent) as Hevent
    by (vm_compute; discriminate).
  assert (0 ≤ stats Examples.execBomb addedEntriesFromKernelMap) as Hkernel
    by (vm_compute; discriminate).
  assert (0 ≤ stats Examples.execBomb addedEntriesFromProcFS) as Hprocfs
    by (vm_compute; discriminate).
  assert (addedEntries (stats Examples.execBomb)
          + Z.of_nat (length Examples.threeInsertions) < 2 ^ 63) as Hsum
    by (vm_compute; reflexivity).
  do 4 (split; [assumption|]).
  apply (added_counters_count_insertions Examples.threeInsertions Examples.execBomb);
    try assumption.
  intros call Hin. unfold Examples.threeInsertions in Hin.
  repeat (apply elem_of_cons in Hin as [->|Hin]); [| | |by apply elem_of_nil in Hin].
  all: split; [apply elem_of_dom; vm_compute; eexists; reflexivity|].
  all: intros pr Hpr; simpl in Hpr; try discriminate Hpr.
  all: injection Hpr as <-; apply elem_of_dom; vm_compute; eexists; reflexivity.
Defined.

(** C3, as the specification has it, fails: SyncCache, which seeds the cache
    from /proc, inserts the entry of pid 500 with the source snapshot, for
    which insertEntry has no counter.  One insertion has been made and the
    three counters still sum to zero. *)
Lemma snapshot_insertion_counterexample :
  addedEntries (stats Examples.snapshotting) = 0
  ∧ result (SyncCache 500 Examples.snapshotting) = Some true
  ∧ (λ p', (entryCache p' !! 500, Source_ <$> heap p' !! 0%nat, stats p' cacheSize,
            addedEntries (stats p')))
      <$> final (SyncCache 500 Examples.snapshotting)
    = Some (Some 0%nat, Some ProcessCacheEntryFromSnapshot, 1, 0)
  ∧ (λ p', (entryCache p' !! 100, addedEntries (stats p')))
      <$> final (insertions [(1%nat, None, ProcessCacheEntryFromSnapshot)] Examples.execBomb)
    = Some (Some 1%nat, 0).
Proof. repeat split; vm_compute; reflexivity. Qed.

Section Janitor.
Context `{Model}.

Lemma graceElapsedb_spec (now : Z) (e : ProcessCacheEntry) :
  graceElapsedb now e = true ↔ graceElapsed now e.
Proof.
  unfold graceElapsedb, graceElapsed, IsZero, Before, TimeAdd.
  destruct (Z.eqb_spec (ExecTime e) 0) as [He|He];
    destruct (Z.eqb_spec (ForkTime e) 0) as [Hf|Hf];
    destruct (Z.ltb_spec (ExecTime e + Minute) now);
    destruct (Z.ltb_spec (ForkTime e + Minute) now);
    simpl; split; try done; try tauto; intros; lia.
Qed.

Lemma withinGrace_not_elapsed (now : Z) (e : ProcessCacheEntry) :
  withinGrace now e ↔ ¬ graceElapsed now e.
Proof. unfold withinGrace, graceElapsed. lia. Qed.

Lemma cacheCoherent_lookup (p : EBPFResolver) (pid : Z) (l : nat) :
  cacheCoherent p → entryCache p !! pid = Some l →
  ∃ e, heap p !! l = Some e ∧ Pid (pidContext e) = pid.
Proof.
  intros Hcoh Hl. specialize (Hcoh pid l Hl). cbv beta in Hcoh.
  destruct (heap p !! l) as [e|]; [|done].
  exists e. split; [done|]. by injection Hcoh.
Qed.

Lemma cacheCoherent_inj (p : EBPFResolver) (k k' : Z) (l : nat) :
  cacheCoherent p → entryCache p !! k = Some l → entryCache p !! k' = Some l → k = k'.
Proof.
  intros Hcoh Hk Hk'.
  destruct (cacheCoherent_lookup p k l Hcoh Hk) as (e & He & <-).
  destruct (cacheCoherent_lookup p k' l Hcoh Hk') as (e' & He' & <-).
  congruence.
Qed.

Lemma runs_deleteEntry (pid exitTime : Z) (p : EBPFResolver) (l : nat) :
  cacheCoherent p → entryCache p !! pid = Some l →
  runs (deleteEntry pid exitTime) p (λ _ p',
    entryCache p' = delete pid (entryCache p)
    ∧ exitedQueue p' = exitedQueue p ∧ clock p' = clock p
    ∧ ∀ l', l' ≠ l → heap p' !! l' = heap p !! l').
Proof.
  intros Hcoh Hl.
  destruct (cacheCoherent_lookup p pid l Hcoh Hl) as (e & He & Hpid).
  unfold deleteEntry. apply runs_bind, runs_gets. rewrite Hl.
  apply runs_bind. eapply runs_load; [done|].
  apply runs_bind. unfold cgroupDelPIDWithID. apply runs_modify.
  set (p1 := match cgroupResolver p with
             | Some calls => _
             | None => p
             end).
  assert (heap p1 = heap p ∧ entryCache p1 = entryCache p
          ∧ exitedQueue p1 = exitedQueue p ∧ clock p1 = clock p) as (Hh1 & Hc1 & Hq1 & Hk1).
  { subst p1. by destruct (cgroupResolver p). }
  apply runs_bind. unfold Exit. eapply runs_update; [by rewrite Hh1|].
  apply runs_bind. eapply runs_load; [psimpl; by rewrite lookup_insert_eq|].
  apply runs_bind. apply runs_modify.
  eapply runs_weaken; [eapply runs_Release; psimpl; by rewrite lookup_insert_eq|].
  psimpl. intros _ p' (Hframe & _ & Hheap).
  destruct Hframe as [Hc Hq Hk _]. psimpl.
  split; [by rewrite Hc, Hc1; simpl; rewrite Hpid|].
  split; [by rewrite Hq|]. split; [by rewrite Hk|].
  intros l' Hne. rewrite Hheap, !lookup_insert_ne by done. by rewrite Hh1.
Qed.

Lemma runs_dequeueExitedPid (now pid : Z) (p : EBPFResolver) :
  cacheCoherent p →
  runs (dequeueExitedPid now pid) p (λ _ p',
    entryCache p' = (if expired now p pid then delete pid (entryCache p) else entryCache p)
    ∧ exitedQueue p' = exitedQueue p ∧ clock p' = clock p
    ∧ ∀ k l, entryCache p' !! k = Some l → heap p' !! l = heap p !! l).
Proof.
  intros Hcoh. unfold dequeueExitedPid, expired. apply runs_bind, runs_gets.
  destruct (entryCache p !! pid) as [l|] eqn:Hl; [|by apply runs_ret].
  destruct (cacheCoherent_lookup p pid l Hcoh Hl) as (e & He & Hpid).
  apply runs_bind. eapply runs_load; [done|]. rewrite He.
  assert (runs (delEntry pid now) p (λ _ p',
            entryCache p' = delete pid (entryCache p)
            ∧ exitedQueue p' = exitedQueue p ∧ clock p' = clock p
            ∧ ∀ k l, entryCache p' !! k = Some l → heap p' !! l = heap p !! l)) as Hdel.
  { unfold delEntry. apply runs_bind.
    eapply runs_weaken; [by eapply runs_deleteEntry|].
    intros _ p1 (Hc & Hq & Hk & Hheap). unfold counterInc. apply runs_modify. psimpl.
    do 3 (split; [done|]).
    intros k l' Hk'. apply Hheap. intros ->.
    rewrite Hc in Hk'. apply lookup_delete_Some in Hk' as [Hne Hk'].
    apply Hne. by eapply cacheCoherent_inj. }
  unfold graceElapsedb.
  destruct (negb (IsZero (ExecTime e)) && Before (TimeAdd (ExecTime e) Minute) now);
    [done|].
  destruct (negb (IsZero (ForkTime e)) && Before (TimeAdd (ForkTime e) Minute) now);
    [done|].
  destruct (IsZero (ForkTime e) && IsZero (ExecTime e)); [done|].
  by apply runs_ret.
Qed.

Lemma cacheCoherent_survivors (p p' : EBPFResolver) :
  cacheCoherent p →
  (∀ k l, entryCache p' !! k = Some l → entryCache p !! k = Some l) →
  (∀ k l, entryCache p' !! k = Some l → heap p' !! l = heap p !! l) →
  cacheCoherent p'.
Proof.
  intros Hcoh Hsub Hheap k l Hk. cbv beta.
  rewrite (Hheap k l Hk). by apply Hcoh, Hsub.
Qed.

Lemma expired_same (now : Z) (p p' : EBPFResolver) (k : Z) :
  entryCache p' !! k = entryCache p !! k →
  (∀ l, entryCache p' !! k = Some l → heap p' !! l = heap p !! l) →
  expired now p' k = expired now p k.
Proof.
  intros Hk Hheap. unfold expired. rewrite <- Hk.
  destruct (entryCache p' !! k) as [l|]; [|done]. by rewrite Hheap.
Qed.

Lemma runs_dequeue_loop (now : Z) (queue : list Z) :
  ∀ p, cacheCoherent p →
  runs (forEach queue (dequeueExitedPid now)) p (λ _ p',
    exitedQueue p' = exitedQueue p ∧ clock p' = clock p
    ∧ (∀ k, entryCache p' !! k
            = if decide (k ∈ queue ∧ expired now p k = true) then None
              else entryCache p !! k)
    ∧ ∀ k l, entryCache p' !! k = Some l → heap p' !! l = heap p !! l).
Proof.
  induction queue as [|pid queue IH]; intros p Hcoh.
  - apply runs_ret. do 2 (split; [done|]). split; [|done].
    intros k. rewrite decide_False; [done|]. intros [Hin _]. by apply elem_of_nil in Hin.
  - simpl forEach. apply runs_bind.
    eapply runs_weaken; [by apply runs_dequeueExitedPid|].
    intros _ p1 (Hc1 & Hq1 & Hk1 & Hheap1). cbv beta.
    assert (∀ k l, entryCache p1 !! k = Some l → entryCache p !! k = Some l) as Hsub1.
    { intros k l. rewrite Hc1. destruct (expired now p pid); [|done].
      by intros [_ ?]%lookup_delete_Some. }
    assert (cacheCoherent p1) as Hcoh1 by by eapply cacheCoherent_survivors.
    eapply runs_weaken; [by apply IH|].
    intros _ p' (Hq & Hk & Hc & Hheap). cbv beta.
    split; [by rewrite Hq|]. split; [by rewrite Hk|]. split.
    + intros k. rewrite Hc.
      destruct (decide (k = pid ∧ expired now p pid = true)) as [[-> Hexp]|Hkeep].
      * assert (entryCache p1 !! pid = None) as Hgone.
        { rewrite Hc1, Hexp. apply lookup_delete_eq. }
        rewrite Hgone. rewrite (decide_True (P := pid ∈ pid :: queue ∧ _)).
        -- by case_decide.
        -- split; [by left|done].
      * assert (entryCache p1 !! k = entryCache p !! k) as Hsame.
        { rewrite Hc1. destruct (expired now p pid) eqn:Hexp; [|done].
          apply lookup_delete_ne. intros <-. by apply Hkeep. }
        rewrite (expired_same now p p1 k Hsame) by (intros l Hl; by eapply Hheap1).
        rewrite Hsame.
        destruct (decide (k ∈ queue ∧ expired now p k = true)) as [[Hin Hexp]|Hnot].
        -- rewrite decide_True; [done|]. split; [by right|done].
        -- rewrite decide_False; [done|]. intros [Hin Hexp].
           apply elem_of_cons in Hin as [->|Hin]; [by apply Hkeep|by apply Hnot].
    + intros k l Hkl. rewrite (Hheap k l Hkl). eapply Hheap1.
      rewrite Hc in Hkl. by case_decide.
Qed.

Lemma runs_DequeueExited (p : EBPFResolver) :
  cacheCoherent p →
  runs DequeueExited p (λ _ p',
    exitedQueue p' = []
    ∧ (∀ k, entryCache p' !! k
            = if decide (k ∈ exitedQueue p ∧ expired (clock p) p k = true) then None
              else entryCache p !! k)
    ∧ ∀ k l, entryCache p' !! k = Some l → heap p' !! l = heap p !! l).
Proof.
  intros Hcoh. unfold DequeueExited.
  apply runs_bind, runs_gets. apply runs_bind, runs_gets. apply runs_bind.
  eapply runs_weaken; [by apply runs_dequeue_loop|].
  intros _ p1 (Hq & Hk & Hc & Hheap). apply runs_modify. by psimpl.
Qed.

(** C5: for every pid of the exited queue that has an entry in the cache,
    DequeueExited deletes the entry if and only if, at the instant the sweep
    reads the clock, its exec time is set and more than a minute old, or its
    fork time is set and more than a minute old, or neither time is set. *)
Theorem DequeueExited_deletes_iff_grace_elapsed (p : EBPFResolver) (pid : Z) (l : nat)
    (e : ProcessCacheEntry) :
  cacheCoherent p →
  pid ∈ exitedQueue p →
  entryCache p !! pid = Some l →
  heap p !! l = Some e →
  ∃ p', DequeueExited p = Done tt p'
        ∧ (entryCache p' !! pid = None ↔ graceElapsed (clock p) e).
Proof.
  intros Hcoh Hin Hl He.
  pose proof (runs_DequeueExited p Hcoh) as Hruns.
  apply runs_Done in Hruns as ([] & p' & Hrun & _ & Hc & _).
  exists p'. split; [done|]. rewrite Hc, <- graceElapsedb_spec.
  assert (expired (clock p) p pid = graceElapsedb (clock p) e) as Hexp
    by (unfold expired; by rewrite Hl, He).
  rewrite Hexp. case_decide as Hdec.
  - by destruct Hdec.
  - rewrite Hl. split; [done|]. intros Hel. destruct Hdec. by split.
Qed.

(** C2, as the code has it: an entry of the exited queue that is within the
    grace window (a time is set, and neither its exec time nor its fork time is
    more than a minute old) is left in the cache by DequeueExited, untouched.
    The queue itself is emptied by every sweep: the pid is looked at again
    only once the janitor has queued it again. *)
Theorem DequeueExited_keeps_entries_within_grace (p : EBPFResolver) (pid : Z) (l : nat)
    (e : ProcessCacheEntry) :
  cacheCoherent p →
  pid ∈ exitedQueue p →
  entryCache p !! pid = Some l →
  heap p !! l = Some e →
  withinGrace (clock p) e →
  ∃ p', DequeueExited p = Done tt p'
        ∧ exitedQueue p' = []
        ∧ entryCache p' !! pid = Some l
        ∧ heap p' !! l = Some e.
Proof.
  intros Hcoh Hin Hl He Hyoung.
  pose proof (runs_DequeueExited p Hcoh) as Hruns.
  apply runs_Done in Hruns as ([] & p' & Hrun & Hq & Hc & Hheap).
  exists p'. split; [done|]. split; [done|].
  assert (entryCache p' !! pid = Some l) as Hl'.
  { rewrite Hc, decide_False; [done|]. intros [_ Hexp].
    apply withinGrace_not_elapsed in Hyoung. apply Hyoung, graceElapsedb_spec.
    unfold expired in Hexp. by rewrite Hl, He in Hexp. }
  split; [done|]. by rewrite (Hheap pid l Hl').
Qed.

(** The janitor queues every pid of the cache that procfs no longer lists. *)
Lemma cacheFlushTick_queues (procPids : list Z) (p : EBPFResolver) (pid : Z) (l : nat) :
  entryCache p !! pid = Some l →
  pid ∉ uint32 <$> procPids →
  ∃ p', cacheFlushTick procPids p = Done tt p'
        ∧ pid ∈ exitedQueue p' ∧ entryCache p' = entryCache p.
Proof.
  intros Hl Hgone. eexists. split; [reflexivity|]. psimpl. split; [|done].
  apply elem_of_app. right. apply list_elem_of_filter. split.
  - by rewrite elem_of_list_to_set.
  - apply list_elem_of_fmap. exists (pid, l). split; [done|].
    by apply elem_of_map_to_list.
Qed.

End Janitor.

Lemma DequeueExited_deletes_iff_grace_elapsed_witness :
  cacheCoherent Examples.exited
  ∧ 300 ∈ exitedQueue Examples.exited
  ∧ entryCache Examples.exited !! 300 = Some 2%nat
  ∧ heap Examples.exited !! 2%nat = Some (Host.entryOf 300 1 66 10000000000 90000000000)
  ∧ ∃ p', DequeueExited Examples.exited = Done tt p'
          ∧ (entryCache p' !! 300 = None
             ↔ graceElapsed (clock Examples.exited)
                 (Host.entryOf 300 1 66 10000000000 90000000000)).
Proof.
  assert (cacheCoherent Examples.exited) as Hcoh by compute_done.
  assert (300 ∈ exitedQueue Examples.exited) as Hin by compute_done.
  assert (entryCache Examples.exited !! 300 = Some 2%nat) as Hl by (vm_compute; reflexivity).
  assert (heap Examples.exited !! 2%nat
          = Some (Host.entryOf 300 1 66 10000000000 90000000000)) as He
    by (vm_compute; reflexivity).
  do 4 (split; [assumption|]).
  exact (DequeueExited_deletes_iff_grace_elapsed Examples.exited 300 2 _ Hcoh Hin Hl He).
Defined.

Lemma DequeueExited_keeps_entries_within_grace_witness :
  cacheCoherent Examples.exited
  ∧ 100 ∈ exitedQueue Examples.exited
  ∧ entryCache Examples.exited !! 100 = Some 0%nat
  ∧ heap Examples.exited !! 0%nat = Some (Host.entryOf 100 1 66 50000000000 90000000000)
  ∧ withinGrace (clock Examples.exited) (Host.entryOf 100 1 66 50000000000 90000000000)
  ∧ ∃ p', DequeueExited Examples.exited = Done tt p'
          ∧ exitedQueue p' = []
          ∧ entryCache p' !! 100 = Some 0%nat
          ∧ heap p' !! 0%nat = Some (Host.entryOf 100 1 66 50000000000 90000000000).
Proof.
  assert (cacheCoherent Examples.exited) as Hcoh by compute_done.
  assert (100 ∈ exitedQueue Examples.exited) as Hin by compute_done.
  assert (entryCache Examples.exited !! 100 = Some 0%nat) as Hl by (vm_compute; reflexivity).
  assert (heap Examples.exited !! 0%nat
          = Some (Host.entryOf 100 1 66 50000000000 90000000000)) as He
    by (vm_compute; reflexivity).
  assert (withinGrace (clock Examples.exited)
            (Host.entryOf 100 1 66 50000000000 90000000000)) as Hyoung.
  { unfold withinGrace. split; [left; vm_compute; discriminate|].
    split; intros _; vm_compute; discriminate. }
  do 5 (split; [assumption|]).
  exact (DequeueExited_keeps_entries_within_grace Examples.exited 100 0 _ Hcoh Hin Hl He Hyoung).
Defined.

(** C2, as the specification has it, fails: pid 100 is in the exited queue,
    it forked 50 s and exec'd 10 s before the sweep, so its entry is within
    the grace window and stays in the cache, and yet the pid is no longer in
    the queue once DequeueExited returns.  (Pid 300, which exec'd 10 s
    before the sweep too, is deleted: its fork is more than a minute old.) *)
Lemma exited_queue_emptied_counterexample :
  100 ∈ exitedQueue Examples.exited
  ∧ (λ e, (clock Examples.exited - ForkTime e, clock Examples.exited - ExecTime e))
      <$> heap Examples.exited !! 0%nat
    = Some (50000000000, 10000000000)
  ∧ (λ p', (exitedQueue p', entryCache p' !! 100, entryCache p' !! 300))
      <$> final (DequeueExited Examples.exited)
    = Some ([], Some 0%nat, None)
  ∧ 100 ∉ ([] : list Z).
Proof.
  split; [compute_done|]. split; [vm_compute; reflexivity|].
  split; [vm_compute; reflexivity|]. apply not_elem_of_nil.
Qed.

Example DequeueExited_sweep :
  (λ p', (map_to_list (entryCache p'), stats p' flushedEntries, exitedQueue p'))
    <$> final (DequeueExited Examples.exited)
  = Some ([(100, 0%nat)], 3, []).
Proof. vm_compute. reflexivity. Qed.

(** * Further properties *)

Section Tiers.
Context `{Model} `{PathResolverInterface} `{MountResolverInterface}
        `{Resolvers} `{Procfs}.

(** X1: the cache tier answers with the entry stored under the pid exactly
    when the caller gives no inode (0) or the inode of the entry's binary; a
    hit writes the tid of the caller into the entry and nothing else, a miss
    leaves the resolver as it is. *)
Theorem resolveFromCache_validates_inode (pid tid inode : Z) (p : EBPFResolver) :
  cacheAllocated p →
  ∃ r p',
    resolveFromCache pid tid inode p = Done r p'
    ∧ entryCache p' = entryCache p
    ∧ stats p' = stats p
    ∧ (r = None → p' = p)
    ∧ (∀ entry, r = Some entry ↔
         entryCache p !! pid = Some entry
         ∧ ∃ e, heap p !! entry = Some e
                ∧ (inode = 0 ∨ inode = Inode (fileFields (fileEvent e))))
    ∧ (∀ entry e, r = Some entry → heap p !! entry = Some e →
         heap p' = <[entry := set_pidContext (set_Tid tid (pidContext e)) e]> (heap p)).
Proof.
  intros Halloc. unfold resolveFromCache. munfold.
  destruct (entryCache p !! pid) as [entry|] eqn:Hentry; cbv beta iota.
  2:{ exists None, p. repeat split; try done. by intros [? _]. }
  destruct (Halloc pid entry Hentry) as [e He]. rewrite He.
  destruct (Z.eqb_spec inode 0) as [Hzero|Hzero];
    destruct (Z.eqb_spec inode (Inode (fileFields (fileEvent e)))) as [Hsame|Hsame];
    cbn [negb andb]; cbv beta iota; rewrite ?He; psimpl.
  1-3: eexists _, _; split; [reflexivity|]; psimpl; do 3 (split; [done|]); split;
    [ intros entry'; split;
      [ intros [= <-]; split; [done|]; exists e; split; [done|tauto]
      | by intros [[= <-] _] ]
    | intros entry' e' [= <-] He'; rewrite He in He'; by injection He' as <- ].
  exists None, p. do 4 (split; [done|]). split; [|done].
  intros entry'. split; [done|]. intros [[= <-] (e' & He' & Hor)].
  rewrite He in He'. injection He' as <-. by destruct Hor.
Qed.

(** X2: a hit of the cache tier is served in every state of the resolver,
    Snapshotting included, and with or without procfs: resolve returns the
    entry and adds one to the cache-hit counter; the kernel maps, the rate
    limiter and the pid map are not touched. *)
Theorem resolve_cache_hit (fuel : nat) (pid tid inode : Z) (useProcFS : bool)
    (p p1 : EBPFResolver) (entry : nat) :
  resolveFromCache pid tid inode p = Done (Some entry) p1 →
  resolve (S fuel) pid tid inode useProcFS p
  = Done (Some entry) (set_stats (bump Inc hitsStats_CacheTag (stats p1)) p1).
Proof.
  intros Hhit. simpl. unfold resolveWith, bind at 1. rewrite Hhit. by munfold.
Qed.

(** The kernel-map tier finds nothing, and allocates nothing, for a pid that
    pid_cache does not hold. *)
Lemma resolveFromKernelMaps_no_pid (fuel : nat) (pid tid inode : Z) (p : EBPFResolver) :
  pidCacheMap p !! pid = None →
  resolveFromKernelMaps fuel pid tid inode p = Done None p.
Proof.
  intros Hpid. unfold resolveFromKernelMaps, resolveFromKernelMapsWith.
  destruct (pid =? 0); [done|]. munfold. by rewrite Hpid.
Qed.

(** X3: once Snapshotted, a call of resolve without procfs that misses the
    cache and finds no row for the pid in pid_cache returns none and adds one
    to the miss counter; nothing else changes, in particular the rate limiter
    is not consulted. *)
Theorem resolve_miss_without_procfs (fuel : nat) (pid tid inode : Z) (p : EBPFResolver) :
  state p = Snapshotted →
  resolveFromCache pid tid inode p = Done None p →
  pidCacheMap p !! pid = None →
  resolve (S fuel) pid tid inode false p
  = Done None (set_stats (bump Inc missStats (stats p)) p).
Proof.
  intros Hstate Hmiss Hpid. simpl. unfold resolveWith, bind at 1. rewrite Hmiss.
  unfold bind at 1, gets at 1. rewrite Hstate. cbn [Z.eqb Snapshotted negb Pos.eqb].
  unfold bind at 1.
  pose proof (resolveFromKernelMaps_no_pid fuel pid tid inode p Hpid) as Hkernel.
  unfold resolveFromKernelMaps in Hkernel. rewrite Hkernel. by munfold.
Qed.

(** With procfs allowed, the same call goes on to the procfs tier: its
    outcome is that of the rate limiter followed by the snapshot of the pid. *)
Lemma resolve_falls_back_to_procfs (fuel : nat) (pid tid inode : Z) (p : EBPFResolver) :
  state p = Snapshotted →
  resolveFromCache pid tid inode p = Done None p →
  pidCacheMap p !! pid = None →
  resolve (S fuel) pid tid inode true p = resolveProcfsTier pid p.
Proof.
  intros Hstate Hmiss Hpid. simpl. unfold resolveWith, bind at 1. rewrite Hmiss.
  unfold bind at 1, gets at 1. rewrite Hstate. cbn [Z.eqb Snapshotted negb Pos.eqb].
  unfold bind at 1.
  pose proof (resolveFromKernelMaps_no_pid fuel pid tid inode p Hpid) as Hkernel.
  unfold resolveFromKernelMaps in Hkernel. by rewrite Hkernel.
Qed.

End Tiers.

Lemma resolveFromCache_validates_inode_witness :
  cacheAllocated Examples.oneProcess
  ∧ ∃ r p',
      resolveFromCache 100 7 66 Examples.oneProcess = Done r p'
      ∧ entryCache p' = entryCache Examples.oneProcess
      ∧ stats p' = stats Examples.oneProcess
      ∧ (r = None → p' = Examples.oneProcess)
      ∧ (∀ entry, r = Some entry ↔
           entryCache Examples.oneProcess !! 100 = Some entry
           ∧ ∃ e, heap Examples.oneProcess !! entry = Some e
                  ∧ (66 = 0 ∨ 66 = Inode (fileFields (fileEvent e))))
      ∧ (∀ entry e, r = Some entry → heap Examples.oneProcess !! entry = Some e →
           heap p' = <[entry := set_pidContext (set_Tid 7 (pidContext e)) e]>
                       (heap Examples.oneProcess)).
Proof.
  assert (cacheAllocated Examples.oneProcess) as Halloc by compute_done.
  exact (conj Halloc (resolveFromCache_validates_inode 100 7 66 Examples.oneProcess Halloc)).
Defined.

Example resolveFromCache_cases :
  result (resolveFromCache 100 7 66 Examples.oneProcess) = Some (Some 0%nat)
  ∧ result (resolveFromCache 100 7 0 Examples.oneProcess) = Some (Some 0%nat)
  ∧ result (resolveFromCache 100 7 65 Examples.oneProcess) = Some None
  ∧ result (resolveFromCache 101 7 0 Examples.oneProcess) = Some None
  ∧ (λ p', (Tid ∘ pidContext) <$> heap p' !! 0%nat)
      <$> final (resolveFromCache 100 7 66 Examples.oneProcess)
    = Some (Some 7).
Proof. repeat split; vm_compute; reflexivity. Qed.

Lemma resolve_cache_hit_witness :
  state Examples.oneProcess = Snapshotting
  ∧ resolveFromCache 100 7 66 Examples.oneProcess = Done (Some 0%nat) Scenarios.seenBy7
  ∧ resolve 1 100 7 66 false Examples.oneProcess
    = Done (Some 0%nat)
        (set_stats (bump Inc hitsStats_CacheTag (stats Scenarios.seenBy7)) Scenarios.seenBy7).
Proof.
  assert (resolveFromCache 100 7 66 Examples.oneProcess = Done (Some 0%nat) Scenarios.seenBy7)
    as Hhit by (vm_compute; reflexivity).
  split; [reflexivity|]. split; [exact Hhit|].
  exact (resolve_cache_hit 0 100 7 66 false Examples.oneProcess Scenarios.seenBy7 0 Hhit).
Defined.

Lemma resolve_miss_without_procfs_witness :
  state Examples.kernelMaps = Snapshotted
  ∧ resolveFromCache 42 42 0 Examples.kernelMaps = Done None Examples.kernelMaps
  ∧ pidCacheMap Examples.kernelMaps !! 42 = None
  ∧ resolve 1 42 42 0 false Examples.kernelMaps
    = Done None (set_stats (bump Inc missStats (stats Examples.kernelMaps)) Examples.kernelMaps).
Proof.
  assert (state Examples.kernelMaps = Snapshotted) as Hstate by reflexivity.
  assert (resolveFromCache 42 42 0 Examples.kernelMaps = Done None Examples.kernelMaps)
    as Hmiss by (vm_compute; reflexivity).
  assert (pidCacheMap Examples.kernelMaps !! 42 = None) as Hpid by (vm_compute; reflexivity).
  do 3 (split; [assumption|]).
  exact (resolve_miss_without_procfs 0 42 42 0 Examples.kernelMaps Hstate Hmiss Hpid).
Defined.

Section PidMap.
Context `{Model} `{PathResolverInterface} `{MountResolverInterface}
        `{Resolvers} `{Procfs}.



End PidMap.
Section Insert.
Context `{Model} `{PathResolverInterface} `{MountResolverInterface}
        `{Resolvers} `{Procfs}.

(** What [insertEntry] does to the pid map, to the entry and to the counters,
    when no previous entry is released. *)
Lemma runs_insertEntry_new (entry : nat) (source : Source) (p : EBPFResolver)
    (e : ProcessCacheEntry) :
  heap p !! entry = Some e →
  runs (insertEntry entry None source) p (λ _ p',
    entryCache p' = <[Pid (pidContext e) := entry]> (entryCache p)
    ∧ heap p' = <[entry := set_refCount (refCount e + 1) (set_Source source e)]> (heap p)
    ∧ ∀ c, c ≠ cacheSize →
        stats p' c = if decide (addedCounter source = Some c) then Inc (stats p c)
                     else stats p c).
Proof.
  intros He. unfold insertEntry.
  apply runs_bind. eapply runs_update; [done|].
  apply runs_bind. eapply runs_load; [psimpl; by rewrite lookup_insert_eq|].
  apply runs_bind. apply runs_modify.
  apply runs_bind. eapply runs_weaken.
  { eapply runs_Retain. psimpl. by rewrite lookup_insert_eq. }
  psimpl. intros _ p1 (Hframe1 & Hstats1 & Hheap1).
  rewrite insert_insert_eq in Hheap1.
  apply runs_bind, runs_ret.
  apply runs_bind. eapply runs_load; [by rewrite Hheap1, lookup_insert_eq|].
  apply runs_bind. unfold cgroupAddPID. apply runs_modify.
  set (p3 := match cgroupResolver p1 with
             | Some calls => _
             | None => p1
             end).
  assert (heap p3 = heap p1 ∧ entryCache p3 = entryCache p1 ∧ stats p3 = stats p1)
    as (Hheap3 & Hc3 & Hstats3).
  { subst p3. destruct (cgroupResolver p1); [|done]. by case_bool_decide. }
  apply runs_bind.
  eapply (runs_weaken _ _ (λ _ p4, heap p4 = heap p3 ∧ entryCache p4 = entryCache p3
            ∧ ∀ c, stats p4 c = if decide (addedCounter source = Some c) then Inc (stats p3 c)
                                else stats p3 c)).
  { destruct source; unfold counterInc, addedCounter;
      first [apply runs_ret | apply runs_modify]; psimpl;
      (do 2 (split; [done|])); intros c; unfold bump;
      repeat case_decide; congruence. }
  intros _ p4 (Hheap4 & Hc4 & Hstats4). unfold counterInc. apply runs_modify. psimpl.
  split; [by rewrite Hc4, Hc3, (frame_entryCache _ _ Hframe1)|].
  split; [by rewrite Hheap4, Hheap3, Hheap1|].
  intros c Hc. rewrite bump_other by done. by rewrite Hstats4, Hstats3, Hstats1.
Qed.

(** X6: an exec for a pid the cache does not hold yet (the fork was missed)
    is inserted all the same, flagged as having no known parent: afterwards the
    pid map has the entry under its pid, the entry carries the flag and the
    source, and the counter of its source is bumped; the inode-error counter
    is not. *)
Theorem insertExecEntry_without_fork (entry : nat) (inode : Z) (source : Source)
    (p : EBPFResolver) (e : ProcessCacheEntry) :
  heap p !! entry = Some e →
  Pid (pidContext e) ≠ 0 →
  entryCache p !! Pid (pidContext e) = None →
  ∃ p', insertExecEntry entry inode source p = Done tt p'
        ∧ entryCache p' = <[Pid (pidContext e) := entry]> (entryCache p)
        ∧ heap p' = <[entry := set_refCount (refCount e + 1)
                                 (set_Source source (set_IsParentMissing true e))]> (heap p)
        ∧ stats p' inodeErrStats = stats p inodeErrStats
        ∧ (∀ c, addedCounter source = Some c → stats p' c = Inc (stats p c)).
Proof.
  intros He Hpid Hnone. apply Z.eqb_neq in Hpid.
  assert (runs (insertExecEntry entry inode source) p (λ _ p',
            entryCache p' = <[Pid (pidContext e) := entry]> (entryCache p)
            ∧ heap p' = <[entry := set_refCount (refCount e + 1)
                                     (set_Source source (set_IsParentMissing true e))]> (heap p)
            ∧ ∀ c, c ≠ cacheSize →
                stats p' c = if decide (addedCounter source = Some c) then Inc (stats p c)
                             else stats p c)) as Hruns.
  { unfold insertExecEntry. apply runs_bind. eapply runs_load; [done|]. rewrite Hpid.
    apply runs_bind, runs_gets. rewrite Hnone.
    apply runs_bind. eapply runs_update; [done|].
    eapply runs_weaken.
    { apply (runs_insertEntry_new entry source _ (set_IsParentMissing true e)).
      psimpl. by rewrite lookup_insert_eq. }
    psimpl. intros _ p' (Hc & Hheap & Hstats).
    split; [done|]. split; [by rewrite Hheap, insert_insert_eq|done]. }
  apply runs_Done in Hruns as ([] & p' & Hrun & Hc & Hheap & Hstats).
  exists p'. do 3 (split; [done|]). split.
  - rewrite Hstats by done. rewrite decide_False; [done|]. by destruct source.
  - intros c Hsome. rewrite Hstats by (intros ->; by destruct source).
    by rewrite decide_True.
Qed.

(** X7: a fork whose parent is in the cache, and whose parent inode is not
    given or is the inode of the cached parent, is linked to that parent
    without any resolution (no recursion budget is needed): the child takes
    the fields of the parent, has the parent as ancestor and is stored under
    its pid; no inode error is counted. *)
Theorem insertForkEntry_links_cached_parent (fuel : nat) (entry : nat) (inode : Z)
    (source : Source) (p : EBPFResolver) (e : ProcessCacheEntry) (parent : nat)
    (pe : ProcessCacheEntry) :
  heap p !! entry = Some e →
  Pid (pidContext e) ≠ 0 → Pid (pidContext e) ≠ 1 →
  entryCache p !! Pid (pidContext e) = None →
  entryCache p !! PPid e = Some parent →
  heap p !! parent = Some pe →
  parent ≠ entry →
  inode = 0 ∨ Inode (fileFields (fileEvent pe)) = inode →
  ∃ p', insertForkEntry fuel entry inode source p = Done tt p'
        ∧ entryCache p' = <[Pid (pidContext (forkCopy pe e)) := entry]> (entryCache p)
        ∧ heap p' !! entry
          = Some (set_refCount (refCount (forkCopy pe e) + 1)
                    (set_Source source (set_Ancestor (Some parent) (forkCopy pe e))))
        ∧ heap p' !! parent = Some (set_refCount (refCount pe + 1) pe)
        ∧ stats p' inodeErrStats = stats p inodeErrStats.
Proof.
  intros He Hpid0 Hpid1 Hnone Hparent Hpe Hne Hinode.
  apply Z.eqb_neq in Hpid0. apply Z.eqb_neq in Hpid1.
  assert (runs (insertForkEntry fuel entry inode source) p (λ _ p',
            entryCache p' = <[Pid (pidContext (forkCopy pe e)) := entry]> (entryCache p)
            ∧ heap p' !! entry
              = Some (set_refCount (refCount (forkCopy pe e) + 1)
                        (set_Source source (set_Ancestor (Some parent) (forkCopy pe e))))
            ∧ heap p' !! parent = Some (set_refCount (refCount pe + 1) pe)
            ∧ stats p' inodeErrStats = stats p inodeErrStats)) as Hruns.
  { unfold insertForkEntry, insertForkEntryWith.
    apply runs_bind. eapply runs_load; [done|]. rewrite Hpid0.
    apply runs_bind, runs_gets. rewrite Hnone.
    apply runs_bind, runs_ret.
    apply runs_bind. eapply runs_load; [done|].
    apply runs_bind. rewrite Hpid1. cbn [negb].
    eapply (runs_weaken _ _ (λ _ p2,
              frame p p2 ∧ stats p2 = stats p
              ∧ heap p2 = <[parent := set_refCount (refCount pe + 1) pe]>
                            (<[entry := set_Ancestor (Some parent) (forkCopy pe e)]> (heap p)))).
    { apply runs_bind, runs_gets. rewrite Hparent.
      apply runs_bind.
      eapply (runs_weaken _ _ (λ mismatch p1, mismatch = false ∧ p1 = p)).
      { destruct ((1 <=? PPid e) && negb (inode =? 0)) eqn:Hcond; [|by apply runs_ret].
        apply runs_bind. eapply runs_load; [done|]. apply runs_ret. split; [|done].
        destruct Hinode as [-> | ->].
        - by rewrite andb_false_r in Hcond.
        - by rewrite Z.eqb_refl. }
      intros mismatch p1 [-> ->].
      apply runs_bind, runs_ret.
      unfold Fork. apply runs_bind. eapply runs_load; [done|].
      apply runs_bind. eapply runs_update; [done|].
      unfold SetAncestor. apply runs_bind.
      eapply runs_update; [psimpl; by rewrite lookup_insert_eq|].
      eapply runs_weaken.
      { eapply runs_Retain. psimpl. by rewrite !lookup_insert_ne. }
      psimpl. intros _ p2 (Hframe2 & Hstats2 & Hheap2).
      rewrite insert_insert_eq in Hheap2. split; [|done].
      destruct Hframe2 as [Hc Hq Hk Hdom]. psimpl. split; try done.
      rewrite Hdom. rewrite dom_insert_lookup_L by (rewrite lookup_insert_eq; by eexists).
      apply dom_insert_lookup_L. by eexists. }
    intros _ p2 (Hframe2 & Hstats2 & Hheap2).
    eapply runs_weaken.
    { apply (runs_insertEntry_new entry source _
               (set_Ancestor (Some parent) (forkCopy pe e))).
      rewrite Hheap2, lookup_insert_ne by done. by rewrite lookup_insert_eq. }
    intros _ p' (Hc & Hheap & Hstats).
    split; [by rewrite Hc, (frame_entryCache _ _ Hframe2)|].
    split; [by rewrite Hheap, lookup_insert_eq|].
    split; [by rewrite Hheap, lookup_insert_ne, Hheap2, lookup_insert_eq|].
    rewrite Hstats by done. rewrite decide_False by (by destruct source).
    by rewrite Hstats2. }
  apply runs_Done in Hruns as ([] & p' & Hrun & Hrest). by exists p'.
Qed.
End Insert.


Example DeleteEntry_keeps_the_entry :
  (λ p', (entryCache p' !! 200, ExitTime <$> heap p' !! 1%nat, entryCache p' !! 100))
    <$> final (DeleteEntry 200 100000000000 Examples.exited)
  = Some (None, Some 100000000000, Some 0%nat).
Proof. vm_compute. reflexivity. Qed.


Lemma insertExecEntry_without_fork_witness :
  heap Scenarios.lateExec !! 0%nat = Some (Host.entryOf 300 1 66 0 2000)
  ∧ entryCache Scenarios.lateExec !! 300 = None
  ∧ ∃ p', insertExecEntry 0 66 ProcessCacheEntryFromEvent Scenarios.lateExec = Done tt p'
          ∧ entryCache p' = <[300 := 0%nat]> (entryCache Scenarios.lateExec)
          ∧ stats p' inodeErrStats = stats Scenarios.lateExec inodeErrStats.
Proof.
  assert (heap Scenarios.lateExec !! 0%nat = Some (Host.entryOf 300 1 66 0 2000)) as He
    by (vm_compute; reflexivity).
  assert (entryCache Scenarios.lateExec !! Pid (pidContext (Host.entryOf 300 1 66 0 2000))
          = None) as Hnone by (vm_compute; reflexivity).
  split; [exact He|]. split; [exact Hnone|].
  destruct (insertExecEntry_without_fork 0 66 ProcessCacheEntryFromEvent Scenarios.lateExec
              _ He ltac:(vm_compute; discriminate) Hnone)
    as (p' & Hrun & Hcache & _ & Herr & _).
  exists p'. split; [exact Hrun|]. split; [exact Hcache|exact Herr].
Defined.

Example insertExecEntry_without_fork_flag :
  (λ p', (IsParentMissing <$> heap p' !! 0%nat, stats p' addedEntriesFromEvent))
    <$> final (insertExecEntry 0 66 ProcessCacheEntryFromEvent Scenarios.lateExec)
  = Some (Some true, 1).
Proof. vm_compute. reflexivity. Qed.

Lemma insertForkEntry_links_cached_parent_witness :
  heap Scenarios.forkOf30 !! 4%nat = Some (Host.entryOf 40 30 0 3000 0)
  ∧ entryCache Scenarios.forkOf30 !! 40 = None
  ∧ entryCache Scenarios.forkOf30 !! 30 = Some 0%nat
  ∧ heap Scenarios.forkOf30 !! 0%nat = Some (Host.entryOf 30 20 66 1000 2000)
  ∧ ∃ p', insertForkEntry 0 4 66 ProcessCacheEntryFromEvent Scenarios.forkOf30 = Done tt p'
          ∧ entryCache p' !! 40 = Some 4%nat
          ∧ Ancestor <$> heap p' !! 4%nat = Some (Some 0%nat)
          ∧ stats p' inodeErrStats = stats Scenarios.forkOf30 inodeErrStats.
Proof.
  assert (heap Scenarios.forkOf30 !! 4%nat = Some (Host.entryOf 40 30 0 3000 0)) as He
    by (vm_compute; reflexivity).
  assert (entryCache Scenarios.forkOf30 !! Pid (pidContext (Host.entryOf 40 30 0 3000 0))
          = None) as Hnone by (vm_compute; reflexivity).
  assert (entryCache Scenarios.forkOf30 !! PPid (Host.entryOf 40 30 0 3000 0) = Some 0%nat)
    as Hparent by (vm_compute; reflexivity).
  assert (heap Scenarios.forkOf30 !! 0%nat = Some (Host.entryOf 30 20 66 1000 2000)) as Hpe
    by (vm_compute; reflexivity).
  split; [exact He|]. split; [exact Hnone|]. split; [exact Hparent|]. split; [exact Hpe|].
  destruct (insertForkEntry_links_cached_parent 0 4 66 ProcessCacheEntryFromEvent
              Scenarios.forkOf30 _ 0%nat _ He ltac:(vm_compute; discriminate)
              ltac:(vm_compute; discriminate) Hnone Hparent Hpe ltac:(discriminate)
              (or_intror eq_refl))
    as (p' & Hrun & Hcache & Hentry & _ & Herr).
  exists p'. split; [exact Hrun|]. split.
  { rewrite Hcache. apply lookup_insert_eq. }
  split; [|exact Herr]. rewrite Hentry. reflexivity.
Defined.

Section Boundaries.
Context `{Model} `{PathResolverInterface} `{MountResolverInterface}
        `{Resolvers} `{Procfs}.

(** X8: pid 0 is never resolved and never inserted.  Resolve and the
    kernel-map and procfs tiers return none for pid 0, and the fork and exec
    insertions return at once on an entry whose pid is 0; in each case the
    resolver is left as it was, whatever the budget, the state and the
    contents of the kernel maps and of procfs. *)
Theorem pid_zero_is_ignored (fuel : nat) (tid inode : Z) (useProcFS : bool)
    (source : Source) (maxDepth : nat) (entry : nat) (e : ProcessCacheEntry)
    (p : EBPFResolver) :
  heap p !! entry = Some e →
  Pid (pidContext e) = 0 →
  Resolve fuel 0 tid inode useProcFS p = Done None p
  ∧ resolveFromKernelMaps fuel 0 tid inode p = Done None p
  ∧ resolveFromProcfs 0 maxDepth p = Done None p
  ∧ AddForkEntry fuel entry inode p = Done tt p
  ∧ insertForkEntry fuel entry inode source p = Done tt p
  ∧ AddExecEntry entry inode p = Done tt p
  ∧ insertExecEntry entry inode source p = Done tt p.
Proof.
  intros He Hpid.
  split; [reflexivity|]. split; [reflexivity|].
  split; [destruct maxDepth; reflexivity|]. split; [|split; [|split]].
  - unfold AddForkEntry. munfold. by rewrite He, Hpid.
  - unfold insertForkEntry, insertForkEntryWith. munfold. by rewrite He, Hpid.
  - unfold AddExecEntry. munfold. by rewrite He, Hpid.
  - unfold insertExecEntry. munfold. by rewrite He, Hpid.
Qed.

End Boundaries.

Lemma pid_zero_is_ignored_witness :
  heap Scenarios.pidZero !! 0%nat = Some (Host.entryOf 0 1 66 1000 2000)
  ∧ Resolve 3 0 0 66 true Scenarios.pidZero = Done None Scenarios.pidZero
  ∧ AddForkEntry 3 0 66 Scenarios.pidZero = Done tt Scenarios.pidZero
  ∧ AddExecEntry 0 66 Scenarios.pidZero = Done tt Scenarios.pidZero.
Proof.
  assert (heap Scenarios.pidZero !! 0%nat = Some (Host.entryOf 0 1 66 1000 2000)) as He
    by (vm_compute; reflexivity).
  split; [exact He|].
  destruct (pid_zero_is_ignored 3 0 66 true ProcessCacheEntryFromEvent 16 0 _
              Scenarios.pidZero He eq_refl)
    as (Hresolve & _ & _ & Hfork & _ & Hexec & _).
  split; [exact Hresolve|]. split; [exact Hfork|exact Hexec].
Defined.

Section Staging.
Context `{Model}.

Lemma lruFind_cons {V} (id k : Z) (v : V) (c : list (Z * V)) :
  lruFind id ((k, v) :: c) = if decide (k = id) then Some v else lruFind id c.
Proof.
  unfold lruFind. simpl. case_decide; [done|].
  by destruct (list_find (λ kv : Z * V, kv.1 = id) c) as [[i [k' v']]|].
Qed.

Lemma lruFind_lruWithout {V} (id : Z) (c : list (Z * V)) :
  lruFind id (lruWithout id c) = None.
Proof.
  unfold lruWithout. induction c as [|[k v] c IH]; [done|].
  rewrite filter_cons. simpl. case_decide as Hk; [|done].
  rewrite lruFind_cons. by rewrite decide_False.
Qed.

Lemma lruFind_lruWithout_ne {V} (id id' : Z) (c : list (Z * V)) :
  id' ≠ id → lruFind id' (lruWithout id c) = lruFind id' c.
Proof.
  intros Hne. unfold lruWithout. induction c as [|[k v] c IH]; [done|].
  rewrite filter_cons. simpl. rewrite lruFind_cons.
  destruct (decide (k ≠ id)) as [Hk|Hk].
  - rewrite lruFind_cons. by rewrite IH.
  - rewrite IH. apply dec_stable in Hk. subst k. by rewrite decide_False.
Qed.

Lemma runs_UpdateArgsEnvs (event : ArgsEnvsEvent) (p : EBPFResolver) :
  (Size event ≤ length (ValuesRaw event))%nat →
  runs (UpdateArgsEnvs event) p (λ _ p',
    heap p' = heap p ∧ entryCache p' = entryCache p ∧ stats p' = stats p
    ∧ lruFind (ID event) (argsEnvsCache p')
      = Some (stagedAfter event (lruFind (ID event) (argsEnvsCache p)))
    ∧ ∀ id, id ≠ ID event →
        is_Some (lruFind (ID event) (argsEnvsCache p))
        ∨ (length (argsEnvsCache p) < maxParallelArgsEnvs)%nat →
        lruFind id (argsEnvsCache p') = lruFind id (argsEnvsCache p)).
Proof.
  intros Hsize. unfold UpdateArgsEnvs, lruGet, stagedAfter, parsedChunk.
  apply runs_bind. apply runs_bind, runs_gets.
  destruct (lruFind (ID event) (argsEnvsCache p)) as [staged|] eqn:Hfind.
  - apply runs_bind, runs_modify. apply runs_ret.
    apply runs_bind. unfold extend, valuesRawPrefix.
    rewrite (bool_decide_eq_true_2 _ Hsize). apply runs_bind, runs_ret.
    destruct (parseStringArray (take (Size event) (ValuesRaw event))) as [vals trunc].
    apply runs_ret. apply runs_modify. psimpl.
    do 3 (split; [done|]). split.
    + rewrite lruFind_cons, decide_True by done. f_equal.
      destruct trunc; simpl; [by rewrite orb_true_r|by rewrite orb_false_r].
    + intros id Hne _. rewrite lruFind_cons, decide_False by done.
      rewrite lruFind_lruWithout_ne, lruFind_cons, decide_False by done.
      by apply lruFind_lruWithout_ne.
  - apply runs_ret. apply runs_bind. unfold newArgsEnvsCacheEntry, valuesRawPrefix.
    rewrite (bool_decide_eq_true_2 _ Hsize). apply runs_bind, runs_ret.
    destruct (parseStringArray (take (Size event) (ValuesRaw event))) as [vals trunc].
    apply runs_ret. unfold lruAdd. apply runs_modify. psimpl.
    do 3 (split; [done|]). split.
    + simpl. by rewrite lruFind_cons, decide_True.
    + intros id Hne [[? [=]]|Hroom]. rewrite take_ge.
      * rewrite lruFind_cons, decide_False by done. by apply lruFind_lruWithout_ne.
      * simpl. pose proof (length_filter (λ kv, kv.1 ≠ ID event) (argsEnvsCache p)).
        unfold lruWithout. lia.
Qed.

(** The chunks of one stream accumulate. *)
Lemma runs_chunks (id : Z) (events : list ArgsEnvsEvent) (acc : argsEnvsCacheEntry)
    (p : EBPFResolver) :
  Forall (λ event, ID event = id ∧ (Size event ≤ length (ValuesRaw event))%nat) events →
  lruFind id (argsEnvsCache p) = Some acc →
  runs (forEach events UpdateArgsEnvs) p (λ _ p',
    heap p' = heap p ∧ entryCache p' = entryCache p ∧ stats p' = stats p
    ∧ lruFind id (argsEnvsCache p')
      = Some (mkArgsEnvsCacheEntry (values acc ++ values (reassembled events))
                (truncated acc || truncated (reassembled events)))
    ∧ ∀ id', id' ≠ id →
        lruFind id' (argsEnvsCache p') = lruFind id' (argsEnvsCache p)).
Proof.
  intros Hevents. revert acc p.
  induction Hevents as [|event events [Hid Hsize] _ IH]; intros acc p Hacc.
  - apply runs_ret. do 3 (split; [done|]). split; [|done].
    rewrite Hacc. simpl. rewrite app_nil_r, orb_false_r. by destruct acc.
  - simpl. apply runs_bind.
    eapply runs_weaken; [by apply runs_UpdateArgsEnvs|].
    intros [] p1 (Hheap1 & Hcache1 & Hstats1 & Hfind1 & Hother1).
    rewrite Hid, Hacc in Hfind1. simpl in Hfind1.
    eapply runs_weaken; [by apply IH|].
    intros [] p2 (Hheap2 & Hcache2 & Hstats2 & Hfind2 & Hother2).
    split; [congruence|]. split; [congruence|]. split; [congruence|]. split.
    + rewrite Hfind2. simpl. by rewrite app_assoc, orb_assoc.
    + intros id' Hne. rewrite Hother2 by done. apply Hother1; [congruence|].
      left. rewrite Hid, Hacc. by eexists.
Qed.

Lemma runs_chunks_new (id : Z) (events : list ArgsEnvsEvent) (p : EBPFResolver) :
  Forall (λ event, ID event = id ∧ (Size event ≤ length (ValuesRaw event))%nat) events →
  events ≠ [] →
  lruFind id (argsEnvsCache p) = None →
  runs (forEach events UpdateArgsEnvs) p (λ _ p',
    heap p' = heap p ∧ entryCache p' = entryCache p ∧ stats p' = stats p
    ∧ lruFind id (argsEnvsCache p') = Some (reassembled events)
    ∧ ((length (argsEnvsCache p) < maxParallelArgsEnvs)%nat →
       ∀ id', id' ≠ id →
         lruFind id' (argsEnvsCache p') = lruFind id' (argsEnvsCache p))).
Proof.
  intros Hevents Hnonempty Hnone. destruct Hevents as [|event events [Hid Hsize] Hevents];
    [done|].
  simpl. apply runs_bind.
  eapply runs_weaken; [by apply runs_UpdateArgsEnvs|].
  intros [] p1 (Hheap1 & Hcache1 & Hstats1 & Hfind1 & Hother1).
  rewrite Hid, Hnone in Hfind1. simpl in Hfind1.
  eapply runs_weaken; [by apply (runs_chunks id events)|].
  intros [] p2 (Hheap2 & Hcache2 & Hstats2 & Hfind2 & Hother2).
  split; [congruence|]. split; [congruence|]. split; [congruence|]. split; [done|].
  intros Hroom id' Hne. rewrite Hother2 by done. apply Hother1; [congruence|]. by right.
Qed.

(** [SetProcessArgs] and [SetProcessEnvs] on a staged stream. *)
Lemma runs_SetProcessArgs (pce : nat) (e : ProcessCacheEntry) (p : EBPFResolver) :
  heap p !! pce = Some e →
  runs (SetProcessArgs pce) p (λ _ p',
    match lruFind (ArgsID e) (argsEnvsCache p) with
    | None => p' = p
    | Some staged =>
        heap p' = <[pce := set_argsEntry
                             (Some (mkArgsEntry (values staged) (truncated staged))) e]>
                    (heap p)
        ∧ entryCache p' = entryCache p
        ∧ lruFind (ArgsID e) (argsEnvsCache p') = None
        ∧ (∀ id, id ≠ ArgsID e →
             lruFind id (argsEnvsCache p') = lruFind id (argsEnvsCache p))
        ∧ stats p' argsSize = Add (stats p argsSize) (Z.of_nat (length (values staged)))
        ∧ stats p' argsTruncated
          = (if ArgsTruncated e then Inc (stats p argsTruncated) else stats p argsTruncated)
        ∧ (∀ c, c ≠ argsSize → c ≠ argsTruncated → stats p' c = stats p c)
    end).
Proof.
  intros Hpce. unfold SetProcessArgs, lruGet.
  apply runs_bind. eapply runs_load; [done|].
  apply runs_bind. apply runs_bind, runs_gets.
  destruct (lruFind (ArgsID e) (argsEnvsCache p)) as [staged|] eqn:Hfind.
  2:{ by do 2 apply runs_ret. }
  apply runs_bind, runs_modify. apply runs_ret.
  apply runs_bind. unfold when, counterInc, counterAdd, lruRemove.
  destruct (ArgsTruncated e).
  - apply runs_modify. apply runs_bind, runs_modify. apply runs_bind.
    eapply runs_update; [by psimpl|]. apply runs_modify. psimpl.
    split; [done|]. split; [done|]. split; [by apply lruFind_lruWithout|]. split.
    { intros id Hne. rewrite lruFind_lruWithout_ne, lruFind_cons, decide_False by done.
      by apply lruFind_lruWithout_ne. }
    split; [by rewrite bump_same, bump_other|].
    split; [by rewrite bump_other, bump_same|].
    intros c Hsize Htrunc. by rewrite !bump_other.
  - apply runs_ret. apply runs_bind, runs_modify. apply runs_bind.
    eapply runs_update; [by psimpl|]. apply runs_modify. psimpl.
    split; [done|]. split; [done|]. split; [by apply lruFind_lruWithout|]. split.
    { intros id Hne. rewrite lruFind_lruWithout_ne, lruFind_cons, decide_False by done.
      by apply lruFind_lruWithout_ne. }
    split; [by rewrite bump_same|].
    split; [by rewrite bump_other|].
    intros c Hsize Htrunc. by rewrite !bump_other.
Qed.

Lemma runs_SetProcessEnvs (pce : nat) (e : ProcessCacheEntry) (p : EBPFResolver) :
  heap p !! pce = Some e →
  runs (SetProcessEnvs pce) p (λ _ p',
    match lruFind (EnvsID e) (argsEnvsCache p) with
    | None => p' = p
    | Some staged =>
        heap p' = <[pce := set_envsEntry
                             (Some (mkArgsEntry (values staged) (truncated staged))) e]>
                    (heap p)
        ∧ entryCache p' = entryCache p
        ∧ lruFind (EnvsID e) (argsEnvsCache p') = None
        ∧ (∀ id, id ≠ EnvsID e →
             lruFind id (argsEnvsCache p') = lruFind id (argsEnvsCache p))
        ∧ stats p' envsSize = Add (stats p envsSize) (Z.of_nat (length (values staged)))
        ∧ stats p' envsTruncated
          = (if EnvsTruncated e then Inc (stats p envsTruncated) else stats p envsTruncated)
        ∧ (∀ c, c ≠ envsSize → c ≠ envsTruncated → stats p' c = stats p c)
    end).
Proof.
  intros Hpce. unfold SetProcessEnvs, lruGet.
  apply runs_bind. eapply runs_load; [done|].
  apply runs_bind. apply runs_bind, runs_gets.
  destruct (lruFind (EnvsID e) (argsEnvsCache p)) as [staged|] eqn:Hfind.
  2:{ by do 2 apply runs_ret. }
  apply runs_bind, runs_modify. apply runs_ret.
  apply runs_bind. unfold when, counterInc, counterAdd, lruRemove.
  destruct (EnvsTruncated e).
  - apply runs_modify. apply runs_bind, runs_modify. apply runs_bind.
    eapply runs_update; [by psimpl|]. apply runs_modify. psimpl.
    split; [done|]. split; [done|]. split; [by apply lruFind_lruWithout|]. split.
    { intros id Hne. rewrite lruFind_lruWithout_ne, lruFind_cons, decide_False by done.
      by apply lruFind_lruWithout_ne. }
    split; [by rewrite bump_same, bump_other|].
    split; [by rewrite bump_other, bump_same|].
    intros c Hsize Htrunc. by rewrite !bump_other.
  - apply runs_ret. apply runs_bind, runs_modify. apply runs_bind.
    eapply runs_update; [by psimpl|]. apply runs_modify. psimpl.
    split; [done|]. split; [done|]. split; [by apply lruFind_lruWithout|]. split.
    { intros id Hne. rewrite lruFind_lruWithout_ne, lruFind_cons, decide_False by done.
      by apply lruFind_lruWithout_ne. }
    split; [by rewrite bump_same|].
    split; [by rewrite bump_other|].
    intros c Hsize Htrunc. by rewrite !bump_other.
Qed.

(** X9: an event of the argv/envp stream is appended to what is staged under
    its id: the strings parsed from its first Size bytes come after the
    staged ones and the stream is marked truncated as soon as one event is;
    an event of a new id starts a stream.  Entries, pid map and counters are
    not touched, and the other streams keep what they staged unless the
    event opens a new stream in a full buffer. *)
Theorem UpdateArgsEnvs_accumulates (event : ArgsEnvsEvent) (p : EBPFResolver) :
  (Size event ≤ length (ValuesRaw event))%nat →
  ∃ p',
    UpdateArgsEnvs event p = Done tt p'
    ∧ heap p' = heap p ∧ entryCache p' = entryCache p ∧ stats p' = stats p
    ∧ lruFind (ID event) (argsEnvsCache p')
      = Some (match lruFind (ID event) (argsEnvsCache p) with
              | Some staged =>
                  mkArgsEnvsCacheEntry (values staged ++ (parsedChunk event).1)
                    (truncated staged || (parsedChunk event).2)
              | None => mkArgsEnvsCacheEntry (parsedChunk event).1 (parsedChunk event).2
              end)
    ∧ ∀ id, id ≠ ID event →
        is_Some (lruFind (ID event) (argsEnvsCache p))
        ∨ (length (argsEnvsCache p) < maxParallelArgsEnvs)%nat →
        lruFind id (argsEnvsCache p') = lruFind id (argsEnvsCache p).
Proof.
  intros Hsize. pose proof (runs_UpdateArgsEnvs event p Hsize) as Hruns.
  apply runs_Done in Hruns as ([] & p' & Hrun & Hpost). by exists p'.
Qed.

(** X10: SetProcessArgs moves what is staged under the ArgsID of the entry
    into the entry and drops the stream from the buffer; it adds the number
    of strings to the args-size counter, and one to the args-truncated
    counter when the entry is flagged truncated.  With nothing staged under
    the id it changes nothing, the entry keeps the argv it has. *)
Theorem SetProcessArgs_claims_staged (pce : nat) (e : ProcessCacheEntry) (p : EBPFResolver) :
  heap p !! pce = Some e →
  ∃ p',
    SetProcessArgs pce p = Done tt p'
    ∧ match lruFind (ArgsID e) (argsEnvsCache p) with
      | None => p' = p
      | Some staged =>
          heap p' = <[pce := set_argsEntry
                               (Some (mkArgsEntry (values staged) (truncated staged))) e]>
                      (heap p)
          ∧ entryCache p' = entryCache p
          ∧ lruFind (ArgsID e) (argsEnvsCache p') = None
          ∧ (∀ id, id ≠ ArgsID e →
               lruFind id (argsEnvsCache p') = lruFind id (argsEnvsCache p))
          ∧ stats p' argsSize = Add (stats p argsSize) (Z.of_nat (length (values staged)))
          ∧ stats p' argsTruncated
            = (if ArgsTruncated e then Inc (stats p argsTruncated)
               else stats p argsTruncated)
          ∧ (∀ c, c ≠ argsSize → c ≠ argsTruncated → stats p' c = stats p c)
      end.
Proof.
  intros Hpce. pose proof (runs_SetProcessArgs pce e p Hpce) as Hruns.
  apply runs_Done in Hruns as ([] & p' & Hrun & Hpost). by exists p'.
Qed.

(** X11: the chunks of one envp stream, delivered in sequence to a buffer
    that holds nothing under their id, and then claimed by SetProcessEnvs,
    reach the entry concatenated in the order of arrival, flagged truncated
    exactly when one of the chunks was; the buffer holds nothing under the
    id afterwards, so a second claim changes nothing. *)
Theorem envp_chunks_reassembled (events : list ArgsEnvsEvent) (pce : nat)
    (e : ProcessCacheEntry) (p : EBPFResolver) :
  heap p !! pce = Some e →
  Forall (λ event, ID event = EnvsID e ∧ (Size event ≤ length (ValuesRaw event))%nat)
    events →
  events ≠ [] →
  lruFind (EnvsID e) (argsEnvsCache p) = None →
  ∃ p',
    (forEach events UpdateArgsEnvs >> SetProcessEnvs pce) p = Done tt p'
    ∧ heap p'
      = <[pce := set_envsEntry
                   (Some (mkArgsEntry
                            (concat ((λ event, (parsedChunk event).1) <$> events))
                            (existsb (λ event, (parsedChunk event).2) events))) e]>
          (heap p)
    ∧ entryCache p' = entryCache p
    ∧ lruFind (EnvsID e) (argsEnvsCache p') = None
    ∧ SetProcessEnvs pce p' = Done tt p'.
Proof.
  intros Hpce Hevents Hnonempty Hnone.
  assert (runs (forEach events UpdateArgsEnvs >> SetProcessEnvs pce) p (λ _ p',
    heap p'
      = <[pce := set_envsEntry
                   (Some (mkArgsEntry (values (reassembled events))
                            (truncated (reassembled events)))) e]> (heap p)
    ∧ entryCache p' = entryCache p
    ∧ lruFind (EnvsID e) (argsEnvsCache p') = None)) as Hruns.
  { apply runs_bind.
    eapply runs_weaken; [by apply (runs_chunks_new (EnvsID e))|].
    intros [] p1 (Hheap1 & Hcache1 & _ & Hfind1 & _).
    eapply runs_weaken; [apply (runs_SetProcessEnvs pce e); by rewrite Hheap1|].
    intros [] p2. rewrite Hfind1. intros (Hheap2 & Hcache2 & Hfind2 & _).
    split; [congruence|]. split; [congruence|done]. }
  apply runs_Done in Hruns as ([] & p' & Hrun & Hheap & Hcache & Hfind).
  exists p'. do 4 (split; [done|]).
  pose proof (runs_SetProcessEnvs pce (set_envsEntry
    (Some (mkArgsEntry (values (reassembled events)) (truncated (reassembled events)))) e) p')
    as Hagain.
  assert (heap p' !! pce = Some (set_envsEntry
    (Some (mkArgsEntry (values (reassembled events)) (truncated (reassembled events)))) e))
    as Hpce' by (by rewrite Hheap, lookup_insert_eq).
  apply Hagain, runs_Done in Hpce' as ([] & p2 & Hrun2 & Hpost).
  change (EnvsID (set_envsEntry _ e)) with (EnvsID e) in Hpost. rewrite Hfind in Hpost.
  by rewrite Hrun2, Hpost.
Qed.

End Staging.

Lemma UpdateArgsEnvs_accumulates_witness :
  (6 ≤ 8)%nat
  ∧ ∃ p',
      UpdateArgsEnvs (mkArgsEnvsEvent 9 6 (Examples.wholeChunk ++ [x00; x00]))
        Scenarios.staging = Done tt p'
      ∧ lruFind 9 (argsEnvsCache p')
        = Some (mkArgsEnvsCacheEntry ["ls"; "ab"; "cd"] false).
Proof.
  assert (6 ≤ 8)%nat as Hsize by lia.
  split; [exact Hsize|].
  destruct (UpdateArgsEnvs_accumulates
              (mkArgsEnvsEvent 9 6 (Examples.wholeChunk ++ [x00; x00]))
              Scenarios.staging Hsize) as (p' & Hrun & _ & _ & _ & Hfind & _).
  exists p'. split; [exact Hrun|]. exact Hfind.
Defined.

Example UpdateArgsEnvs_evicts_the_oldest :
  (λ p', lruFind 1 (argsEnvsCache p'))
    <$> final (forEach ((λ i, mkArgsEnvsEvent (Z.of_nat i) 0 []) <$> seq 1 513)
                 UpdateArgsEnvs (Host.newResolver 0))
  = Some None.
Proof. vm_compute. reflexivity. Qed.

Lemma SetProcessArgs_claims_staged_witness :
  heap (set_argsEnvsCache [(7, mkArgsEnvsCacheEntry ["ls"; "-l"] true)] Scenarios.staging)
    !! 0%nat = Some (Scenarios.withIDs 7 8 (Host.entryOf 300 1 66 0 2000))
  ∧ ∃ p',
      SetProcessArgs 0
        (set_argsEnvsCache [(7, mkArgsEnvsCacheEntry ["ls"; "-l"] true)] Scenarios.staging)
      = Done tt p'
      ∧ argsEntry <$> heap p' !! 0%nat = Some (Some (mkArgsEntry ["ls"; "-l"] true))
      ∧ argsEnvsCache p' = []
      ∧ stats p' argsSize = 2.
Proof.
  assert (heap (set_argsEnvsCache [(7, mkArgsEnvsCacheEntry ["ls"; "-l"] true)]
                  Scenarios.staging) !! 0%nat
          = Some (Scenarios.withIDs 7 8 (Host.entryOf 300 1 66 0 2000))) as He
    by (vm_compute; reflexivity).
  split; [exact He|].
  destruct (SetProcessArgs_claims_staged 0 _ _ He) as (p' & Hrun & _).
  exists p'. split; [exact Hrun|].
  revert Hrun. vm_compute. intros [= <-]. repeat split.
Defined.

Lemma envp_chunks_reassembled_witness :
  heap Scenarios.staging !! 0%nat = Some (Scenarios.withIDs 7 8 (Host.entryOf 300 1 66 0 2000))
  ∧ ∃ p',
      (forEach (Scenarios.chunks 8) UpdateArgsEnvs >> SetProcessEnvs 0) Scenarios.staging
      = Done tt p'
      ∧ envsEntry <$> heap p' !! 0%nat
        = Some (Some (mkArgsEntry ["ab"; "cd"; "ab"; "cd..."] true))
      ∧ lruFind 8 (argsEnvsCache p') = None.
Proof.
  assert (heap Scenarios.staging !! 0%nat
          = Some (Scenarios.withIDs 7 8 (Host.entryOf 300 1 66 0 2000))) as He
    by (vm_compute; reflexivity).
  split; [exact He|].
  destruct (envp_chunks_reassembled (Scenarios.chunks 8) 0 _ Scenarios.staging He)
    as (p' & Hrun & Hheap & _ & Hfind & _).
  - repeat constructor; simpl; lia.
  - discriminate.
  - vm_compute. reflexivity.
  - exists p'. split; [exact Hrun|]. split; [|exact Hfind].
    rewrite Hheap, lookup_insert_eq. vm_compute. reflexivity.
Defined.

Section Credentials.
Context `{FieldHandlers}.

(** The two loops of [FetchAWSSecurityCredentials] together keep the keys
    that have not expired, in their order. *)
Lemma removeAll_expiredIndexes (eventTime : Z) (keys : list AWSSecurityCredentials) :
  ∀ (done : list AWSSecurityCredentials) (toDelete : list nat),
    (∀ rest, removeAll toDelete (done ++ rest)
             = Some (filter (λ key, eventTime ≤ Expiration key) done ++ rest)) →
    ∀ rest, removeAll (expiredIndexes eventTime (length done) keys toDelete)
              (done ++ keys ++ rest)
            = Some (filter (λ key, eventTime ≤ Expiration key) (done ++ keys) ++ rest).
Proof.
  induction keys as [|key keys IH]; intros done toDelete Hdone rest; simpl.
  - by rewrite app_nil_r.
  - replace (S (length done)) with (length (done ++ [key])) by (rewrite length_app; simpl; lia).
    replace (done ++ key :: keys ++ rest) with ((done ++ [key]) ++ keys ++ rest)
      by (by rewrite <- app_assoc).
    replace (done ++ key :: keys) with ((done ++ [key]) ++ keys) by (by rewrite <- app_assoc).
    apply IH. intros rest'. rewrite filter_app, filter_cons, filter_nil.
    unfold Before. destruct (Z.ltb_spec (Expiration key) eventTime) as [Hexp|Hexp].
    + rewrite decide_False by lia. rewrite app_nil_r. simpl. unfold removeAt.
      rewrite bool_decide_eq_true_2 by (rewrite !length_app; simpl; lia).
      rewrite <- app_assoc. simpl.
      rewrite take_app_length, drop_app_ge by lia.
      replace (S (length done) - length done)%nat with 1%nat by lia. apply Hdone.
    + rewrite decide_True by lia. rewrite <- !app_assoc. simpl. apply Hdone.
Qed.

Lemma FetchAWSSecurityCredentials_filter (e : Event) (p : EBPFResolver)
    (l : nat) (x : ProcessCacheEntry) :
  entryCache p !! ProcessContext_Pid e = Some l →
  heap p !! l = Some x →
  FetchAWSSecurityCredentials e p
  = Done (filter (λ key, ResolveEventTime e ≤ Expiration key) (AWSSecurityCredentials_ x))
      (set_heap
         (<[l := set_AWSSecurityCredentials
                   (filter (λ key, ResolveEventTime e ≤ Expiration key)
                      (AWSSecurityCredentials_ x)) x]> (heap p)) p).
Proof.
  intros Hl Hx. unfold FetchAWSSecurityCredentials. munfold. rewrite Hl, Hx.
  pose proof (removeAll_expiredIndexes (ResolveEventTime e) (AWSSecurityCredentials_ x)
                [] [] (λ rest, eq_refl) []) as Hkeys.
  simpl in Hkeys. rewrite !app_nil_r in Hkeys. by rewrite Hkeys.
Qed.

(** X12: for a pid the cache holds, FetchAWSSecurityCredentials returns the
    credentials of the entry that have not expired before the time of the
    event, in the order they were recorded, and leaves exactly these in the
    entry; a credential that expires at the very instant of the event is
    kept.  Nothing else in the resolver changes. *)
Theorem FetchAWSSecurityCredentials_keeps_unexpired (e : Event) (p : EBPFResolver)
    (l : nat) (x : ProcessCacheEntry) :
  entryCache p !! ProcessContext_Pid e = Some l →
  heap p !! l = Some x →
  FetchAWSSecurityCredentials e p
  = Done (filter (λ key, ResolveEventTime e ≤ Expiration key) (AWSSecurityCredentials_ x))
      (set_heap
         (<[l := set_AWSSecurityCredentials
                   (filter (λ key, ResolveEventTime e ≤ Expiration key)
                      (AWSSecurityCredentials_ x)) x]> (heap p)) p).
Proof. apply FetchAWSSecurityCredentials_filter. Qed.

(** X13: a credential with a fresh, non-empty access key that
    UpdateAWSSecurityCredentials records for a pid comes last in what a
    following FetchAWSSecurityCredentials of that pid returns, after the
    unexpired credentials recorded before it, unless it has itself expired
    before the time of the fetch. *)
Theorem recorded_credential_is_fetched (pid : Z) (e e' : Event) (p : EBPFResolver)
    (l : nat) (x : ProcessCacheEntry) :
  entryCache p !! pid = Some l →
  heap p !! l = Some x →
  ProcessContext_Pid e' = pid →
  AccessKeyID (IMDS_AWS_SecurityCredentials e) ≠ "" →
  AccessKeyID (IMDS_AWS_SecurityCredentials e) ∉ AccessKeyID <$> AWSSecurityCredentials_ x →
  result ((UpdateAWSSecurityCredentials pid e >> FetchAWSSecurityCredentials e') p)
  = Some (filter (λ key, ResolveEventTime e' ≤ Expiration key) (AWSSecurityCredentials_ x)
          ++ (if decide (ResolveEventTime e' ≤ Expiration (IMDS_AWS_SecurityCredentials e))
              then [IMDS_AWS_SecurityCredentials e] else [])).
Proof.
  intros Hl Hx Hpid Hkey Hfresh.
  assert (UpdateAWSSecurityCredentials pid e p
          = Done tt (set_heap
                       (<[l := set_AWSSecurityCredentials
                                 (AWSSecurityCredentials_ x ++ [IMDS_AWS_SecurityCredentials e])
                                 x]> (heap p)) p)) as Hupdate.
  { unfold UpdateAWSSecurityCredentials.
    destruct (AccessKeyID (IMDS_AWS_SecurityCredentials e)) eqn:Hid; [done|].
    cbn [String.length Nat.eqb]. munfold. rewrite Hl, Hx.
    destruct (hasAccessKeyID _ _) eqn:Hhas; [|done].
    by apply hasAccessKeyID_spec in Hhas. }
  unfold bind at 1. rewrite Hupdate.
  erewrite FetchAWSSecurityCredentials_filter;
    [|psimpl; by rewrite Hpid|psimpl; apply lookup_insert_eq].
  simpl. by rewrite filter_app, filter_cons, filter_nil.
Qed.

End Credentials.

Lemma FetchAWSSecurityCredentials_keeps_unexpired_witness :
  entryCache Examples.twoKeys !! ProcessContext_Pid Examples.imdsRepeat = Some 0%nat
  ∧ (AWSSecurityCredentials_ <$> heap Examples.twoKeys !! 0%nat)
    = Some [mkAWSSecurityCredentials "AKIA1" "AWS-HMAC" 1000;
            mkAWSSecurityCredentials "AKIA2" "AWS-HMAC" 9000]
  ∧ result (FetchAWSSecurityCredentials Examples.imdsRepeat Examples.twoKeys)
    = Some [mkAWSSecurityCredentials "AKIA2" "AWS-HMAC" 9000].
Proof.
  assert (entryCache Examples.twoKeys !! ProcessContext_Pid Examples.imdsRepeat = Some 0%nat)
    as Hl by (vm_compute; reflexivity).
  split; [exact Hl|]. split; [vm_compute; reflexivity|].
  rewrite (FetchAWSSecurityCredentials_keeps_unexpired Examples.imdsRepeat Examples.twoKeys
             0 _ Hl ltac:(vm_compute; reflexivity)).
  vm_compute. reflexivity.
Defined.

Lemma recorded_credential_is_fetched_witness :
  entryCache Examples.twoKeys !! 100 = Some 0%nat
  ∧ result ((UpdateAWSSecurityCredentials 100 Examples.imdsFresh
             >> FetchAWSSecurityCredentials Examples.imdsRepeat) Examples.twoKeys)
    = Some [mkAWSSecurityCredentials "AKIA2" "AWS-HMAC" 9000;
            mkAWSSecurityCredentials "AKIA3" "AWS-HMAC" 9500].
Proof.
  assert (entryCache Examples.twoKeys !! 100 = Some 0%nat) as Hl by (vm_compute; reflexivity).
  split; [exact Hl|].
  rewrite (recorded_credential_is_fetched 100 Examples.imdsFresh Examples.imdsRepeat
             Examples.twoKeys 0 _ Hl ltac:(vm_compute; reflexivity) eq_refl
             ltac:(discriminate) ltac:(compute_done)).
  vm_compute. reflexivity.
Defined.

Section Handlers.
Context `{FieldHandlers}.

Lemma onLeader_commute (pid pid' : Z) (e e' : Event)
    (f g : ProcessCacheEntry → ProcessCacheEntry) (p : EBPFResolver) :
  (∀ x, f (g x) = g (f x)) →
  (onLeader pid e f >> onLeader pid' e' g) p = (onLeader pid' e' g >> onLeader pid e f) p.
Proof.
  intros Hfg. unfold onLeader.
  destruct (negb (ProcessContext_Pid e =? ProcessContext_Tid e));
    destruct (negb (ProcessContext_Pid e' =? ProcessContext_Tid e')); munfold; try done.
  - by destruct (entryCache p !! pid') as [l'|]; [destruct (heap p !! l')|].
  - by destruct (entryCache p !! pid) as [l|]; [destruct (heap p !! l)|].
  - destruct (entryCache p !! pid) as [l|] eqn:Hl;
      destruct (entryCache p !! pid') as [l'|] eqn:Hl'; psimpl; rewrite ?Hl, ?Hl';
      cbv beta iota; try done.
    + destruct (decide (l = l')) as [<-|Hne].
      * destruct (heap p !! l) as [x|] eqn:Hx; psimpl; rewrite ?Hl, ?Hl'; cbv beta iota;
          psimpl; [|done].
        rewrite !lookup_insert_eq. psimpl. by rewrite !insert_insert_eq, Hfg.
      * destruct (heap p !! l) as [x|] eqn:Hx; destruct (heap p !! l') as [x'|] eqn:Hx';
          psimpl; rewrite ?Hl, ?Hl'; cbv beta iota; psimpl;
          rewrite ?lookup_insert_ne by done; rewrite ?Hx, ?Hx'; try done.
        psimpl. by rewrite insert_insert_ne.
    + by destruct (heap p !! l); psimpl; rewrite ?Hl'.
    + by destruct (heap p !! l'); psimpl; rewrite ?Hl.
Qed.

(** X14: two credential handlers of different kinds (uid, gid, capabilities,
    login uid) write different fields of the credentials: run in either
    order, on any two events and any two pids, they leave the same resolver.
    A setuid and a setgid of one process may thus be handled in the order
    they are read. *)
Theorem credential_updates_commute (pid pid' : Z) (e e' : Event) (p : EBPFResolver) :
  (UpdateUID pid e >> UpdateGID pid' e') p = (UpdateGID pid' e' >> UpdateUID pid e) p
  ∧ (UpdateUID pid e >> UpdateCapset pid' e') p = (UpdateCapset pid' e' >> UpdateUID pid e) p
  ∧ (UpdateUID pid e >> UpdateLoginUID pid' e') p
    = (UpdateLoginUID pid' e' >> UpdateUID pid e) p
  ∧ (UpdateGID pid e >> UpdateCapset pid' e') p = (UpdateCapset pid' e' >> UpdateGID pid e) p
  ∧ (UpdateGID pid e >> UpdateLoginUID pid' e') p
    = (UpdateLoginUID pid' e' >> UpdateGID pid e) p
  ∧ (UpdateCapset pid e >> UpdateLoginUID pid' e') p
    = (UpdateLoginUID pid' e' >> UpdateCapset pid e) p.
Proof.
  repeat apply conj; apply (onLeader_commute pid pid' e e'); by intros [].
Qed.

End Handlers.

Example credential_updates_write_their_fields :
  (λ p', (λ x, (UID (credentials x), EUID (credentials x), GID (credentials x),
                AUID (credentials x), User (credentials x))) <$> heap p' !! 0%nat)
    <$> final ((UpdateUID 100 (mkEvent 100 100 7 8 9 0 0 0 0 0 0
                                 (mkAWSSecurityCredentials "" "" 0))
                >> UpdateLoginUID 100 (mkEvent 100 100 0 0 0 0 0 0 0 0 1000
                                         (mkAWSSecurityCredentials "" "" 0)))
                 Examples.oneProcess)
  = Some (Some (7, 8, 0, 1000, "user")).
Proof. vm_compute. reflexivity. Qed.

Section Flush.
Context `{Statsd}.

Lemma set_stats_same (p : EBPFResolver) : p = set_stats (stats p) p.
Proof. by destruct p. Qed.

Lemma sendGauge_flushes (name : string) (value : M Z) (msg : string) :
  (∀ p, ∃ v, value p = Done v p) → flushes (sendGauge name value msg).
Proof.
  intros Hvalue p. unfold sendGauge, bind. destruct (Hvalue p) as [v ->].
  destruct (Gauge name v []); eexists _, p; (split; [reflexivity|]);
    (split; [apply set_stats_same|]); split; try done; by left.
Qed.

Lemma swapAndCount_flushes (c : Counter) (name : string) (tags : list string) (msg : string) :
  c ≠ cacheSize → flushes (swapAndCount c name tags msg).
Proof.
  intros Hc p.
  assert (∀ c', bump (λ _, 0) c (stats p) c' = stats p c' ∨ bump (λ _, 0) c (stats p) c' = 0)
    as Hbump.
  { intros c'. unfold bump. case_decide; [by right|by left]. }
  unfold swapAndCount. munfold. destruct (0 <? stats p c);
    [destruct (Count name (stats p c) tags)|];
    eexists _, _; (split; [reflexivity|]); psimpl; (split; [done|]);
    (split; [by apply bump_other|done]).
Qed.

Lemma untilError_flushes (steps : list (M (option error))) :
  Forall flushes steps → flushes (untilError steps).
Proof.
  induction 1 as [|step steps Hstep _ IH]; intros p.
  - exists None, p. split; [done|]. split; [apply set_stats_same|]. split; [done|by left].
  - simpl. unfold bind. destruct (Hstep p) as (r1 & p1 & Hrun1 & Hp1 & Hsize1 & Hstats1).
    rewrite Hrun1.
    destruct r1 as [err|]; [by exists (Some err), p1|].
    destruct (IH p1) as (r2 & p2 & Hrun2 & Hp2 & Hsize2 & Hstats2). rewrite Hrun2.
    exists r2, p2. split; [done|]. split.
    { rewrite Hp2 at 1. rewrite Hp1 at 1. by destruct p. }
    split; [congruence|]. intros c.
    destruct (Hstats2 c) as [-> | ->]; [apply Hstats1|by right].
Qed.

Lemma SendStats_flushes : flushes SendStats.
Proof.
  apply untilError_flushes.
  repeat first
    [ apply Forall_nil_2
    | apply Forall_cons_2;
      [first [ by apply swapAndCount_flushes
             | apply sendGauge_flushes; intros q; eexists; reflexivity ]|] ].
Qed.

(** With a client that accepts every metric no step fails. *)
Lemma untilError_succeeds (steps : list (M (option error))) :
  Forall (λ step, ∀ p, ∃ p', step p = Done None p') steps →
  ∀ p, ∃ p', untilError steps p = Done None p'.
Proof.
  induction 1 as [|step steps Hstep _ IH]; intros p.
  - by exists p.
  - simpl. unfold bind. destruct (Hstep p) as [p1 ->]. apply IH.
Qed.

(** X15: SendStats always returns, and writes nothing but counters: the
    pid map, the entries and the queues are those it found, the size gauge
    keeps its value, and every other counter is either reset to zero or left
    as it was.  When it returns no error every counter but the size gauge is
    zero, and it returns no error whenever the statsd client accepts every
    metric. *)
Theorem SendStats_flush (p : EBPFResolver) :
  ∃ r p',
    SendStats p = Done r p'
    ∧ p' = set_stats (stats p') p
    ∧ stats p' cacheSize = stats p cacheSize
    ∧ (∀ c, stats p' c = stats p c ∨ stats p' c = 0)
    ∧ (r = None → ∀ c, c ≠ cacheSize → stats p' c = 0)
    ∧ ((∀ name v tags, Gauge name v tags = None) →
       (∀ name v tags, Count name v tags = None) → r = None).
Proof.
  destruct (SendStats_flushes p) as (r & p' & Hrun & Hp' & Hsize & Hstats).
  exists r, p'. do 4 (split; [done|]). split.
  - intros -> c Hc. by apply (SendStats_resets p p').
  - intros Hgauge Hcount.
    assert (∃ p2, SendStats p = Done None p2) as [p2 Hrun2]; [|congruence].
    apply untilError_succeeds.
    repeat first
      [ apply Forall_nil_2
      | apply Forall_cons_2;
        [ intros q; first
            [ unfold sendGauge, getCacheSize, getEntryCacheSize; munfold;
              rewrite Hgauge; by eexists
            | unfold swapAndCount; munfold; rewrite Hcount;
              destruct (0 <? _); by eexists ] |] ].
Qed.

End Flush.

(** A refused metric stops the flush: its own count is lost, the counters
    that come before it are reset and those that come after keep theirs. *)
Example SendStats_stops_at_the_first_error :
  result (@SendStats Scenarios.droppingMisses Scenarios.unreported)
  = Some (Some (ErrWrapped "failed to send process_resolver misses metric"
                  (ErrOther "dropped")))
  ∧ (λ p', (stats p' hitsStats_CacheTag, stats p' missStats, stats p' addedEntriesFromEvent))
      <$> final (@SendStats Scenarios.droppingMisses Scenarios.unreported)
    = Some (0, 0, 2).
Proof. split; vm_compute; reflexivity. Qed.

Section Sweep.
Context `{Model}.

Lemma runs_conj {A} (m : M A) (p : EBPFResolver) (Q1 Q2 : A → EBPFResolver → Prop) :
  runs m p Q1 → runs m p Q2 → runs m p (λ a p', Q1 a p' ∧ Q2 a p').
Proof. unfold runs. by destruct (m p). Qed.

(** The counters of a deletion: [deleteEntry] moves the size gauge only,
    the sweep counts the deletion as flushed. *)
Lemma runs_deleteEntry_stats (pid exitTime : Z) (p : EBPFResolver) (l : nat) :
  cacheCoherent p → entryCache p !! pid = Some l →
  runs (deleteEntry pid exitTime) p (λ _ p',
    entryCache p' = delete pid (entryCache p)
    ∧ ∀ c, c ≠ cacheSize → stats p' c = stats p c).
Proof.
  intros Hcoh Hl.
  destruct (cacheCoherent_lookup p pid l Hcoh Hl) as (e & He & Hpid).
  unfold deleteEntry. apply runs_bind, runs_gets. rewrite Hl.
  apply runs_bind. eapply runs_load; [done|].
  apply runs_bind. unfold cgroupDelPIDWithID. apply runs_modify.
  set (p1 := match cgroupResolver p with
             | Some calls => _
             | None => p
             end).
  assert (heap p1 = heap p ∧ entryCache p1 = entryCache p ∧ stats p1 = stats p)
    as (Hh1 & Hc1 & Hs1).
  { subst p1. by destruct (cgroupResolver p). }
  apply runs_bind. unfold Exit. eapply runs_update; [by rewrite Hh1|].
  apply runs_bind. eapply runs_load; [psimpl; by rewrite lookup_insert_eq|].
  apply runs_bind. apply runs_modify.
  eapply runs_weaken; [eapply runs_Release; psimpl; by rewrite lookup_insert_eq|].
  psimpl. intros _ p' (Hframe & Hstats & _).
  destruct Hframe as [Hc _ _ _]. psimpl.
  split; [by rewrite Hc, Hc1; simpl; rewrite Hpid|].
  intros c Hne. rewrite Hstats by done. psimpl. by rewrite Hs1.
Qed.

Lemma runs_dequeueExitedPid_stats (now pid : Z) (p : EBPFResolver) :
  cacheCoherent p →
  0 ≤ stats p flushedEntries →
  stats p flushedEntries + Z.of_nat (size (entryCache p)) < 2 ^ 63 →
  runs (dequeueExitedPid now pid) p (λ _ p',
    stats p' flushedEntries + Z.of_nat (size (entryCache p'))
    = stats p flushedEntries + Z.of_nat (size (entryCache p))
    ∧ stats p flushedEntries ≤ stats p' flushedEntries
    ∧ ∀ c, c ≠ cacheSize → c ≠ flushedEntries → stats p' c = stats p c).
Proof.
  intros Hcoh Hlo Hhi. unfold dequeueExitedPid. apply runs_bind, runs_gets.
  destruct (entryCache p !! pid) as [l|] eqn:Hl; [|by apply runs_ret].
  destruct (cacheCoherent_lookup p pid l Hcoh Hl) as (e & He & Hpid).
  apply runs_bind. eapply runs_load; [done|].
  assert (runs (delEntry pid now) p (λ _ p',
            stats p' flushedEntries + Z.of_nat (size (entryCache p'))
            = stats p flushedEntries + Z.of_nat (size (entryCache p))
            ∧ stats p flushedEntries ≤ stats p' flushedEntries
            ∧ ∀ c, c ≠ cacheSize → c ≠ flushedEntries → stats p' c = stats p c)) as Hdel.
  { unfold delEntry. apply runs_bind.
    eapply runs_weaken; [by eapply runs_deleteEntry_stats|].
    intros _ p1 (Hc & Hstats). unfold counterInc. apply runs_modify. psimpl.
    pose proof (map_size_delete_Some pid (entryCache p) (mk_is_Some _ _ Hl)) as Hsize.
    pose proof (map_size_ne_0_lookup_2 (entryCache p) pid (mk_is_Some _ _ Hl)) as Hpos.
    rewrite bump_same, (Hstats flushedEntries) by done.
    rewrite Inc_no_overflow by lia. rewrite Hc.
    split; [lia|]. split; [lia|].
    intros c Hsz Hfl. rewrite bump_other by done. by apply Hstats. }
  destruct (negb (IsZero (ExecTime e)) && Before (TimeAdd (ExecTime e) Minute) now);
    [done|].
  destruct (negb (IsZero (ForkTime e)) && Before (TimeAdd (ForkTime e) Minute) now);
    [done|].
  destruct (IsZero (ForkTime e) && IsZero (ExecTime e)); [done|].
  by apply runs_ret.
Qed.

Lemma runs_dequeue_loop_stats (now : Z) (queue : list Z) :
  ∀ p, cacheCoherent p →
  0 ≤ stats p flushedEntries →
  stats p flushedEntries + Z.of_nat (size (entryCache p)) < 2 ^ 63 →
  runs (forEach queue (dequeueExitedPid now)) p (λ _ p',
    stats p' flushedEntries + Z.of_nat (size (entryCache p'))
    = stats p flushedEntries + Z.of_nat (size (entryCache p))
    ∧ ∀ c, c ≠ cacheSize → c ≠ flushedEntries → stats p' c = stats p c).
Proof.
  induction queue as [|pid queue IH]; intros p Hcoh Hlo Hhi.
  - by apply runs_ret.
  - simpl forEach. apply runs_bind.
    eapply runs_weaken;
      [exact (runs_conj _ _ _ _ (runs_dequeueExitedPid now pid p Hcoh)
                (runs_dequeueExitedPid_stats now pid p Hcoh Hlo Hhi))|].
    intros _ p1 [(Hc1 & _ & _ & Hheap1) (Hsum1 & Hmono1 & Hstats1)]. cbv beta.
    assert (∀ k l, entryCache p1 !! k = Some l → entryCache p !! k = Some l) as Hsub1.
    { intros k l. rewrite Hc1. destruct (expired now p pid); [|done].
      by intros [_ ?]%lookup_delete_Some. }
    assert (cacheCoherent p1) as Hcoh1 by by eapply cacheCoherent_survivors.
    eapply runs_weaken; [apply IH; [done|lia|lia]|].
    intros _ p' (Hsum & Hstats). cbv beta. split; [lia|].
    intros c Hsz Hfl. rewrite Hstats by done. by apply Hstats1.
Qed.

(** X16: DequeueExited adds to the flushed counter exactly the number of
    entries it removes from the pid map (a pid queued twice is counted once),
    short of an overflow of the counter; apart from the size gauge no other
    counter moves. *)
Theorem DequeueExited_counts_flushed (p : EBPFResolver) :
  cacheCoherent p →
  0 ≤ stats p flushedEntries →
  stats p flushedEntries + Z.of_nat (size (entryCache p)) < 2 ^ 63 →
  ∃ p',
    DequeueExited p = Done tt p'
    ∧ stats p' flushedEntries
      = stats p flushedEntries
        + (Z.of_nat (size (entryCache p)) - Z.of_nat (size (entryCache p')))
    ∧ ∀ c, c ≠ cacheSize → c ≠ flushedEntries → stats p' c = stats p c.
Proof.
  intros Hcoh Hlo Hhi.
  assert (runs DequeueExited p (λ _ p',
    stats p' flushedEntries + Z.of_nat (size (entryCache p'))
    = stats p flushedEntries + Z.of_nat (size (entryCache p))
    ∧ ∀ c, c ≠ cacheSize → c ≠ flushedEntries → stats p' c = stats p c)) as Hruns.
  { unfold DequeueExited. apply runs_bind, runs_gets. apply runs_bind, runs_gets.
    apply runs_bind. eapply runs_weaken; [by apply runs_dequeue_loop_stats|].
    intros _ p1 (Hsum & Hstats). apply runs_modify. by psimpl. }
  apply runs_Done in Hruns as ([] & p' & Hrun & Hsum & Hstats).
  exists p'. split; [done|]. split; [lia|done].
Qed.

(** X17: one round of the janitor, a tick of cacheFlush with the pids that
    procfs lists followed by DequeueExited.  An entry leaves the pid map
    exactly when its pid was queued already or is missing from procfs, and
    its grace window has elapsed; every other entry stays under its pid,
    untouched.  In particular a process that procfs lists and that was not
    queued before is never removed, however old it is.  The round adds no
    pid to the map and leaves the queue empty. *)
Theorem janitor_round (procPids : list Z) (p : EBPFResolver) :
  cacheCoherent p →
  ∃ p',
    (cacheFlushTick procPids >> DequeueExited) p = Done tt p'
    ∧ exitedQueue p' = []
    ∧ (∀ pid, entryCache p !! pid = None → entryCache p' !! pid = None)
    ∧ ∀ pid l e, entryCache p !! pid = Some l → heap p !! l = Some e →
        (entryCache p' !! pid = None
         ↔ (pid ∈ exitedQueue p ∨ pid ∉ uint32 <$> procPids) ∧ graceElapsed (clock p) e)
        ∧ (entryCache p' !! pid ≠ None →
           entryCache p' !! pid = Some l ∧ heap p' !! l = Some e).
Proof.
  intros Hcoh. unfold bind at 1, cacheFlushTick at 1, modify.
  set (p1 := set_exitedQueue _ p).
  assert (cacheCoherent p1) as Hcoh1 by done.
  pose proof (runs_DequeueExited p1 Hcoh1) as Hruns.
  apply runs_Done in Hruns as ([] & p' & Hrun & Hq & Hc & Hheap).
  exists p'. split; [done|]. split; [done|]. split.
  { intros pid Hnone. rewrite Hc. case_decide; [done|]. by subst p1. }
  intros pid l e Hl He.
  assert (pid ∈ exitedQueue p1 ↔ pid ∈ exitedQueue p ∨ pid ∉ uint32 <$> procPids) as Hin.
  { subst p1. psimpl. rewrite elem_of_app, list_elem_of_filter, elem_of_list_to_set.
    split; [intros [?|[? _]]; tauto|]. intros [?|Hgone]; [by left|]. right.
    split; [done|]. apply list_elem_of_fmap. exists (pid, l). split; [done|].
    by apply elem_of_map_to_list. }
  assert (expired (clock p1) p1 pid = graceElapsedb (clock p) e) as Hexp.
  { unfold expired. subst p1. psimpl. by rewrite Hl, He. }
  split.
  - rewrite Hc, Hexp, <- graceElapsedb_spec, <- Hin. case_decide as Hdec; [done|].
    subst p1. psimpl. rewrite Hl. split; [done|]. intros Hboth. by destruct Hdec.
  - intros Hkept. rewrite Hc in Hkept |- *. case_decide; [done|].
    assert (entryCache p' !! pid = Some l) as Hl'.
    { rewrite Hc. rewrite decide_False by done. by subst p1. }
    subst p1. psimpl. split; [done|]. by rewrite (Hheap pid l Hl').
Qed.

End Sweep.

Lemma janitor_round_witness :
  cacheCoherent Scenarios.beforeTick
  ∧ ∃ p',
      (cacheFlushTick [100; 300] >> DequeueExited) Scenarios.beforeTick = Done tt p'
      ∧ exitedQueue p' = []
      ∧ (∀ pid, entryCache Scenarios.beforeTick !! pid = None → entryCache p' !! pid = None)
      ∧ ∀ pid l e, entryCache Scenarios.beforeTick !! pid = Some l →
          heap Scenarios.beforeTick !! l = Some e →
          (entryCache p' !! pid = None
           ↔ (pid ∈ exitedQueue Scenarios.beforeTick ∨ pid ∉ uint32 <$> [100; 300])
             ∧ graceElapsed (clock Scenarios.beforeTick) e)
          ∧ (entryCache p' !! pid ≠ None →
             entryCache p' !! pid = Some l ∧ heap p' !! l = Some e).
Proof.
  assert (cacheCoherent Scenarios.beforeTick) as Hcoh by compute_done.
  exact (conj Hcoh (janitor_round [100; 300] Scenarios.beforeTick Hcoh)).
Defined.

(** Pids 200 and 400 have left procfs and are removed; pid 300, as old as
    pid 200, is listed and stays. *)
Example janitor_round_spares_listed_pids :
  (λ p', ((λ pid, entryCache p' !! pid) <$> [100; 200; 300; 400],
          stats p' flushedEntries, exitedQueue p'))
    <$> final ((cacheFlushTick [100; 300] >> DequeueExited) Scenarios.beforeTick)
  = Some ([Some 0%nat; None; Some 2%nat; None], 2, []).
Proof. vm_compute. reflexivity. Qed.

Lemma DequeueExited_counts_flushed_witness :
  cacheCoherent Examples.exited
  ∧ 0 ≤ stats Examples.exited flushedEntries
  ∧ stats Examples.exited flushedEntries + Z.of_nat (size (entryCache Examples.exited))
    < 2 ^ 63
  ∧ ∃ p',
      DequeueExited Examples.exited = Done tt p'
      ∧ stats p' flushedEntries
        = stats Examples.exited flushedEntries
          + (Z.of_nat (size (entryCache Examples.exited)) - Z.of_nat (size (entryCache p'))).
Proof.
  assert (cacheCoherent Examples.exited) as Hcoh by compute_done.
  assert (0 ≤ stats Examples.exited flushedEntries) as Hlo by (vm_compute; discriminate).
  assert (stats Examples.exited flushedEntries
          + Z.of_nat (size (entryCache Examples.exited)) < 2 ^ 63) as Hhi
    by (vm_compute; reflexivity).
  do 3 (split; [assumption|]).
  destruct (DequeueExited_counts_flushed Examples.exited Hcoh Hlo Hhi)
    as (p' & Hrun & Hflushed & _).
  exists p'. split; [exact Hrun|exact Hflushed].
Defined.

Section NewEntry.
Context `{Model} `{PathResolverInterface} `{MountResolverInterface} `{Resolvers}.

(** The retry loop reads the resolver and writes nothing. *)
Lemma resolveFileFieldsPathLoop_reads (n : nat) (e : FileFields) (ctrCtx : ContainerContext)
    (p : EBPFResolver) :
  ∀ (last : PathResolution) (pce : nat) (r : PathResolution) (p' : EBPFResolver),
    resolveFileFieldsPathLoop n last e pce ctrCtx p = Done r p' → p' = p.
Proof.
  induction n as [|n IH]; intros last pce r p'; simpl.
  - by intros [= _ <-].
  - munfold. destruct (heap p !! pce) as [c|]; [|done]. cbv beta iota.
    destruct (prErr (ResolveFileFieldsPath e (pidContext c) ctrCtx)); [|by intros [= _ <-]].
    destruct (entryCache p !! PPid c) as [parent|]; [apply IH|by intros [= _ <-]].
Qed.

(** A failure of [SetProcessPath] clears the two names of the file event and
    counts one path error; it writes nothing else. *)
Lemma SetProcessPath_failure (fileEvent fe : FileEvent) (pce : nat)
    (ctrCtx : ContainerContext) (s : string) (err : error) (p p1 : EBPFResolver) :
  SetProcessPath fileEvent pce ctrCtx p = Done (fe, s, Some err) p1 →
  fe = set_BasenameStr "" (set_PathnameStr "" fileEvent)
  ∧ p1 = set_stats (bump Inc pathErrStats (stats p)) p.
Proof.
  unfold SetProcessPath, onError, resolveFileFieldsPath.
  destruct (Inode (fileFields fileEvent) =? 0).
  - munfold. by intros [= <- _ _ <-].
  - unfold bind at 1.
    destruct (resolveFileFieldsPathLoop 3 _ _ pce ctrCtx p) as [r p2| |] eqn:Hloop; [|done..].
    apply resolveFileFieldsPathLoop_reads in Hloop as ->.
    destruct (prErr r); munfold; [by intros [= <- _ _ <-]|done].
Qed.

(** X18: when the path of the executable cannot be resolved,
    ResolveNewProcessCacheEntry stops there.  It returns a path-resolution
    error that wraps the cause, leaves the file event of the entry with an
    empty pathname and basename, and counts one path error; the interpreter
    is not looked at, and argv and envp stay in the staging buffer, unclaimed:
    every other field of the entry and of the resolver is as before. *)
Theorem ResolveNewProcessCacheEntry_exec_path_failure (entry : nat)
    (ctrCtx : ContainerContext) (e : ProcessCacheEntry) (fe : FileEvent) (s : string)
    (err : error) (p p1 : EBPFResolver) :
  heap p !! entry = Some e →
  SetProcessPath (fileEvent e) entry ctrCtx p = Done (fe, s, Some err) p1 →
  ResolveNewProcessCacheEntry entry ctrCtx p
  = Done (Some (ErrPathResolution (ErrWrapped "failed to resolve exec path" err)))
      (set_heap
         (<[entry := set_fileEvent
                       (set_BasenameStr "" (set_PathnameStr "" (fileEvent e))) e]> (heap p))
         (set_stats (bump Inc pathErrStats (stats p)) p)).
Proof.
  intros He Hpath. destruct (SetProcessPath_failure _ _ _ _ _ _ _ _ Hpath) as [-> ->].
  unfold ResolveNewProcessCacheEntry. unfold bind at 1, load at 1. rewrite He.
  unfold bind at 1. rewrite Hpath. munfold. psimpl. by rewrite He.
Qed.

End NewEntry.

Lemma ResolveNewProcessCacheEntry_exec_path_failure_witness :
  heap Scenarios.lateExec !! 0%nat = Some (Host.entryOf 300 1 66 0 2000)
  ∧ SetProcessPath (fileEvent (Host.entryOf 300 1 66 0 2000)) 0 (mkContainerContext "")
      Scenarios.lateExec
    = Done (set_BasenameStr "" (set_PathnameStr "" (fileEvent (Host.entryOf 300 1 66 0 2000))),
            "", Some (ErrOther "dentry not found"))
        (set_stats (bump Inc pathErrStats (stats Scenarios.lateExec)) Scenarios.lateExec)
  ∧ result (ResolveNewProcessCacheEntry 0 (mkContainerContext "") Scenarios.lateExec)
    = Some (Some (ErrPathResolution
                    (ErrWrapped "failed to resolve exec path" (ErrOther "dentry not found")))).
Proof.
  assert (heap Scenarios.lateExec !! 0%nat = Some (Host.entryOf 300 1 66 0 2000)) as He
    by (vm_compute; reflexivity).
  assert (SetProcessPath (fileEvent (Host.entryOf 300 1 66 0 2000)) 0 (mkContainerContext "")
            Scenarios.lateExec
          = Done (set_BasenameStr ""
                    (set_PathnameStr "" (fileEvent (Host.entryOf 300 1 66 0 2000))),
                  "", Some (ErrOther "dentry not found"))
              (set_stats (bump Inc pathErrStats (stats Scenarios.lateExec))
                 Scenarios.lateExec)) as Hpath
    by (vm_compute; reflexivity).
  split; [exact He|]. split; [exact Hpath|].
  rewrite (ResolveNewProcessCacheEntry_exec_path_failure 0 (mkContainerContext "") _ _ _ _
             Scenarios.lateExec _ He Hpath).
  reflexivity.
Defined.

Section Snapshot.
Context `{Model} `{PathResolverInterface} `{MountResolverInterface}
        `{Resolvers} `{Procfs}.

Lemma runs_NewProcessCacheEntry (pidCtx : PIDContext) (p : EBPFResolver) :
  runs (NewProcessCacheEntry pidCtx) p (λ entry p1,
    heap p1 = <[entry := set_Cookie (NewCookie (cookies p))
                           (set_pidContext pidCtx (set_refCount 1 zeroEntry))]> (heap p)
    ∧ entryCache p1 = entryCache p ∧ stats p1 = stats p).
Proof.
  unfold NewProcessCacheEntry, Pool_Get, runs. munfold.
  destruct (processCacheEntryPool p) as [|l free]; psimpl;
    rewrite lookup_insert_eq; cbv beta iota; psimpl;
    by rewrite insert_insert_eq.
Qed.

(** The link to an ancestor writes the two entries and nothing else. *)
Lemma runs_SetAncestor (l parent : nat) (e pe : ProcessCacheEntry) (p : EBPFResolver) :
  heap p !! l = Some e → heap p !! parent = Some pe →
  runs (SetAncestor l parent) p (λ _ p',
    frame p p' ∧ stats p' = stats p
    ∧ ∃ e', heap p' !! l = Some e' ∧ pidContext e' = pidContext e).
Proof.
  intros Hl Hparent. unfold SetAncestor. apply runs_bind.
  eapply runs_update; [done|].
  assert (is_Some (<[l := set_Ancestor (Some parent) e]> (heap p) !! parent)) as [pe' Hpe'].
  { destruct (decide (l = parent)) as [->|Hne]; [by rewrite lookup_insert_eq|].
    by rewrite lookup_insert_ne. }
  eapply runs_weaken; [eapply runs_Retain; psimpl; exact Hpe'|].
  psimpl. intros _ p' (Hframe & Hstats & Hheap).
  split.
  { destruct Hframe as [Hc Hq Hk Hdom]. psimpl. split; try done.
    rewrite Hdom. apply dom_insert_lookup_L. by eexists. }
  split; [done|].
  rewrite Hheap. destruct (decide (parent = l)) as [->|Hne].
  - rewrite lookup_insert_eq. rewrite lookup_insert_eq in Hpe'. injection Hpe' as <-.
    by eexists.
  - rewrite lookup_insert_ne, lookup_insert_eq by done. by eexists.
Qed.

Lemma frame_allocated (p p' : EBPFResolver) (l : nat) :
  frame p p' → is_Some (heap p !! l) → is_Some (heap p' !! l).
Proof. intros Hframe Hl. apply elem_of_dom. rewrite (frame_dom _ _ Hframe). by apply elem_of_dom. Qed.

Lemma runs_syncCache (proc : Z) (filledProc : FilledProcess) (source : Source)
    (p : EBPFResolver) :
  cacheAllocated p →
  runs (syncCache proc filledProc source) p (λ r p',
    match entryCache p !! uint32 proc with
    | Some cached =>
        r = (Some cached, false) ∧ entryCache p' = entryCache p ∧ stats p' = stats p
    | None =>
        match enrichEventFromProc (snapshotEntry p proc) proc filledProc with
        | inr _ =>
            r = (None, false) ∧ entryCache p' = entryCache p
            ∧ ∀ c, c ≠ cacheSize → stats p' c = stats p c
        | inl e1 =>
            ∃ entry e,
              r = (Some entry, true)
              ∧ entryCache p' = <[Pid (pidContext e1) := entry]> (entryCache p)
              ∧ heap p' !! entry = Some e
              ∧ pidContext e = pidContext e1 ∧ Source_ e = source
              ∧ ∀ c, c ≠ cacheSize →
                  stats p' c = if decide (addedCounter source = Some c)
                               then Inc (stats p c) else stats p c
        end
    end
    ∧ cacheAllocated p').
Proof.
  intros Halloc. unfold syncCache. apply runs_bind, runs_gets.
  destruct (entryCache p !! uint32 proc) as [cached|] eqn:Hcached.
  - destruct (Halloc _ _ Hcached) as [e He].
    apply runs_bind. unfold setAncestor. apply runs_bind. eapply runs_load; [done|].
    apply runs_bind, runs_gets.
    destruct (entryCache p !! PPid e) as [parent|] eqn:Hparent.
    + destruct (Halloc _ _ Hparent) as [pe Hpe].
      eapply runs_weaken; [by eapply runs_SetAncestor|].
      intros _ p' (Hframe & Hstats & _). apply runs_ret.
      split; [by rewrite (frame_entryCache _ _ Hframe)|].
      intros pid l Hl. cbv beta. apply (frame_allocated p p'); [done|].
      apply (Halloc pid). by rewrite <- (frame_entryCache _ _ Hframe).
    + by do 2 apply runs_ret.
  - apply runs_bind.
    eapply runs_weaken; [apply runs_NewProcessCacheEntry|].
    intros entry p1 (Hheap1 & Hc1 & Hstats1). cbv beta.
    apply runs_bind. eapply runs_update; [by rewrite Hheap1, lookup_insert_eq|].
    apply runs_bind. eapply runs_load; [psimpl; by rewrite lookup_insert_eq|].
    fold (snapshotEntry p proc).
    destruct (enrichEventFromProc (snapshotEntry p proc) proc filledProc) as [e1|err].
    + apply runs_bind. unfold store at 1. apply runs_modify.
      match goal with |- runs _ ?q _ => set (p3 := q) end.
      assert (frame p1 p3 ∧ stats p3 = stats p1 ∧ heap p3 !! entry = Some e1
              ∧ ∀ l, is_Some (heap p !! l) → is_Some (heap p3 !! l))
        as (Hframe3 & Hstats3 & He3 & Halloc3).
      { subst p3. psimpl. split; [|split; [done|split; [apply lookup_insert_eq|]]].
        - split; psimpl; try done. rewrite insert_insert_eq. apply dom_insert_lookup_L.
          rewrite Hheap1, lookup_insert_eq. by eexists.
        - intros l Hl. rewrite Hheap1.
          destruct (decide (entry = l)) as [->|Hne]; [by rewrite lookup_insert_eq|].
          by rewrite !lookup_insert_ne. }
      clearbody p3.
      apply runs_bind, runs_gets. rewrite (frame_entryCache _ _ Hframe3), Hc1.
      apply runs_bind.
      eapply (runs_weaken _ _ (λ _ p4,
                frame p3 p4 ∧ stats p4 = stats p3
                ∧ ∃ e4, heap p4 !! entry = Some e4 ∧ pidContext e4 = pidContext e1)).
      { destruct (entryCache p !! PPid e1) as [parent|] eqn:Hparent.
        - destruct (Halloc3 parent (Halloc _ _ Hparent)) as [pe Hpe].
          apply runs_bind. eapply runs_load; [done|].
          unfold SetParentOfForkChild.
          destruct (Equals pe e1); by eapply runs_SetAncestor.
        - apply runs_ret. split; [apply frame_refl|]. split; [done|]. by eexists. }
      intros _ p4 (Hframe4 & Hstats4 & e4 & He4 & Hpid4).
      apply runs_bind, runs_gets.
      rewrite (frame_entryCache _ _ Hframe4), (frame_entryCache _ _ Hframe3), Hc1, Hcached.
      apply runs_bind.
      eapply runs_weaken; [by eapply runs_insertEntry_new|].
      intros _ p5 (Hc5 & Hheap5 & Hstats5).
      apply runs_bind. eapply runs_load; [by rewrite Hheap5, lookup_insert_eq|].
      apply runs_bind.
      eapply (runs_weaken _ _ (λ _ p6, heap p6 = heap p5 ∧ entryCache p6 = entryCache p5
                                       ∧ stats p6 = stats p5)).
      { destruct (MarshalProcCache _ _); [by apply runs_modify|by apply runs_ret]. }
      intros _ p6 (Hheap6 & Hc6 & Hstats6).
      apply runs_bind.
      eapply (runs_weaken _ _ (λ _ p7, heap p7 = heap p6 ∧ entryCache p7 = entryCache p6
                                       ∧ stats p7 = stats p6)).
      { destruct (MarshalPidCache _ _); [by apply runs_modify|by apply runs_ret]. }
      intros _ p7 (Hheap7 & Hc7 & Hstats7). apply runs_ret.
      assert (entryCache p7 = <[Pid (pidContext e1) := entry]> (entryCache p)) as Hcache.
      { rewrite Hc7, Hc6, Hc5, (frame_entryCache _ _ Hframe4),
          (frame_entryCache _ _ Hframe3), Hc1. by rewrite Hpid4. }
      assert (∀ l, is_Some (heap p !! l) → is_Some (heap p7 !! l)) as Halloc7.
      { intros l Hl. rewrite Hheap7, Hheap6, Hheap5.
        destruct (decide (entry = l)) as [->|Hne]; [by rewrite lookup_insert_eq|].
        rewrite lookup_insert_ne by done. apply (frame_allocated p3 p4); [done|].
        by apply Halloc3. }
      split.
      * eexists entry, _. split; [done|]. split; [done|].
        split; [by rewrite Hheap7, Hheap6, Hheap5, lookup_insert_eq|].
        split; [done|]. split; [done|].
        intros c Hc. rewrite Hstats7, Hstats6, Hstats5 by done.
        by rewrite Hstats4, Hstats3, Hstats1.
      * intros pid l. rewrite Hcache. cbv beta. intros Hl.
        apply lookup_insert_Some in Hl as [[_ <-]|[_ Hl]].
        -- by rewrite Hheap7, Hheap6, Hheap5, lookup_insert_eq.
        -- apply Halloc7. by apply (Halloc pid).
    + apply runs_bind.
      eapply runs_weaken; [eapply runs_Release; psimpl; by rewrite lookup_insert_eq|].
      psimpl. intros _ p' (Hframe & Hstats & Hheap). apply runs_ret.
      assert (entryCache p' = entryCache p) as Hcache
        by (by rewrite (frame_entryCache _ _ Hframe)).
      split.
      * split; [done|]. split; [done|]. intros c Hc. rewrite Hstats by done.
        psimpl. by rewrite Hstats1.
      * intros pid l. rewrite Hcache. cbv beta. intros Hl.
        rewrite Hheap, Hheap1.
        destruct (decide (entry = l)) as [->|Hne]; [by rewrite lookup_insert_eq|].
        rewrite !lookup_insert_ne by done. by apply (Halloc pid).
Qed.
(** X19: SyncCache always returns, and it returns true exactly when the pid
    was not in the cache and procfs could be read for it (GetFilledProcess
    and enrichEventFromProc both succeed).  It then has stored a new entry,
    of source snapshot, in the pid map under the pid the entry carries; when
    it returns false the pid map is as before.  Apart from the size gauge no
    counter moves, in particular none of the counters of added entries. *)
Theorem SyncCache_reports_insertion (proc : Z) (p : EBPFResolver) :
  cacheAllocated p →
  ∃ inserted p',
    SyncCache proc p = Done inserted p'
    ∧ cacheAllocated p'
    ∧ (inserted = true ↔
         entryCache p !! uint32 proc = None
         ∧ ∃ filledProc e1,
             GetFilledProcess proc = Some filledProc
             ∧ enrichEventFromProc (snapshotEntry p proc) proc filledProc = inl e1)
    ∧ (inserted = false → entryCache p' = entryCache p)
    ∧ (inserted = true →
         ∃ entry e,
           heap p' !! entry = Some e
           ∧ Source_ e = ProcessCacheEntryFromSnapshot
           ∧ entryCache p' = <[Pid (pidContext e) := entry]> (entryCache p))
    ∧ ∀ c, c ≠ cacheSize → stats p' c = stats p c.
Proof.
  intros Halloc. unfold SyncCache.
  destruct (GetFilledProcess proc) as [filledProc|] eqn:Hfilled.
  2:{ exists false, p. split; [done|]. split; [done|]. split.
      { split; [done|]. by intros (_ & ? & ? & ? & _). }
      by repeat split. }
  pose proof (runs_syncCache proc filledProc ProcessCacheEntryFromSnapshot p Halloc) as Hruns.
  apply runs_Done in Hruns as (r & p' & Hrun & Hpost & Halloc').
  unfold bind. rewrite Hrun. exists r.2, p'. split; [done|]. split; [done|].
  destruct (entryCache p !! uint32 proc) as [cached|] eqn:Hcached.
  { destruct Hpost as (-> & Hc & Hstats). simpl. split.
    { split; [done|]. by intros [? _]. }
    split; [done|]. split; [done|]. intros c _. by rewrite Hstats. }
  destruct (enrichEventFromProc (snapshotEntry p proc) proc filledProc) as [e1|err]
    eqn:Henrich.
  - destruct Hpost as (entry & e & -> & Hc & He & Hpid & Hsource & Hstats). simpl. split.
    { split; [|done]. intros _. split; [done|]. by exists filledProc, e1. }
    split; [done|]. split.
    { intros _. exists entry, e. split; [done|]. split; [done|]. by rewrite Hpid. }
    intros c Hne. by rewrite Hstats.
  - destruct Hpost as (-> & Hc & Hstats). simpl. split.
    { split; [done|]. intros (_ & fp & e1 & [= <-] & Hinl). congruence. }
    by repeat split.
Qed.

End Snapshot.

Lemma SyncCache_reports_insertion_witness :
  cacheAllocated Examples.snapshotting
  ∧ ∃ p',
      SyncCache 500 Examples.snapshotting = Done true p'
      ∧ ∃ entry e,
          heap p' !! entry = Some e
          ∧ Source_ e = ProcessCacheEntryFromSnapshot
          ∧ entryCache p' = <[Pid (pidContext e) := entry]> (entryCache Examples.snapshotting).
Proof.
  assert (cacheAllocated Examples.snapshotting) as Halloc by compute_done.
  split; [exact Halloc|].
  destruct (SyncCache_reports_insertion 500 Examples.snapshotting Halloc)
    as (inserted & p' & Hrun & _ & Hiff & _ & Hnew & _).
  assert (inserted = true) as ->.
  { apply Hiff. split; [vm_compute; reflexivity|].
    eexists _, _. split; vm_compute; reflexivity. }
  exists p'. split; [exact Hrun|]. exact (Hnew eq_refl).
Defined.

Example SyncCache_twice :
  result ((SyncCache 500 >> SyncCache 500) Examples.snapshotting) = Some false
  ∧ result (SyncCache 501 Examples.snapshotting) = Some false
  ∧ (λ p', (entryCache p' !! 500, addedEntries (stats p')))
      <$> final (SyncCache 500 Examples.snapshotting)
    = Some (Some 0%nat, 0).
Proof. repeat split; vm_compute; reflexivity. Qed.

Section ProcfsTier.
Context `{Model} `{PathResolverInterface} `{MountResolverInterface}
        `{Resolvers} `{Procfs}.

(** [enrichEventFromProc] writes the pid of the process it reads into the
    entry, the pid the entry was created with. *)
Hypothesis enrich_pid : ∀ p proc filledProc e1,
  enrichEventFromProc (snapshotEntry p proc) proc filledProc = inl e1 →
  Pid (pidContext e1) = uint32 proc.

Lemma uint32_int32 (pid : Z) : uint32 (int32 pid) = uint32 pid.
Proof.
  unfold uint32, int32.
  rewrite Zminus_mod_idemp_l.
  replace (pid + 2 ^ 31 - 2 ^ 31) with pid by lia. done.
Qed.

Lemma uint32_idemp (z : Z) : uint32 (uint32 z) = uint32 z.
Proof. unfold uint32. by rewrite Z.mod_mod. Qed.

Lemma runs_resolveFromProcfs (maxDepth : nat) :
  ∀ (pid : Z) (p : EBPFResolver),
    cacheAllocated p →
    runs (resolveFromProcfs pid maxDepth) p (λ r p',
      cacheAllocated p'
      ∧ entryCache p ⊆ entryCache p'
      ∧ (size (entryCache p') ≤ size (entryCache p) + maxDepth)%nat
      ∧ (r = None → maxDepth = 0%nat ∨ entryCache p' = entryCache p)
      ∧ (∀ entry, r = Some entry → entryCache p' !! uint32 pid = Some entry)
      ∧ ∀ c, c ≠ cacheSize → c ≠ addedEntriesFromProcFS → stats p' c = stats p c).
Proof.
  induction maxDepth as [|maxDepth IH]; intros pid p Halloc; simpl.
  { apply runs_ret. split; [done|]. split; [done|]. split; [lia|]. split; [by left|done]. }
  assert (runs (ret None : M (option nat)) p (λ r p',
      cacheAllocated p'
      ∧ entryCache p ⊆ entryCache p'
      ∧ (size (entryCache p') ≤ size (entryCache p) + S maxDepth)%nat
      ∧ (r = None → S maxDepth = 0%nat ∨ entryCache p' = entryCache p)
      ∧ (∀ entry, r = Some entry → entryCache p' !! uint32 pid = Some entry)
      ∧ ∀ c, c ≠ cacheSize → c ≠ addedEntriesFromProcFS → stats p' c = stats p c)) as Hnone.
  { apply runs_ret. split; [done|]. split; [done|]. split; [lia|]. split; [by right|done]. }
  destruct (pid =? 0); [done|].
  destruct (negb (NewProcess (int32 pid))); [done|].
  destruct (GetFilledProcess (int32 pid)) as [filledProc|]; [|done].
  destruct (IsKThread _ _); [done|].
  apply runs_bind.
  eapply runs_weaken;
    [exact (runs_syncCache (int32 pid) filledProc ProcessCacheEntryFromProcFS p Halloc)|].
  intros r p1 [Hpost Halloc1]. cbv beta. rewrite uint32_int32 in Hpost.
  assert ((∀ c, c ≠ cacheSize → c ≠ addedEntriesFromProcFS → stats p1 c = stats p c)
          ∧ match r with
            | (Some entry, inserted) =>
                entryCache p1 !! uint32 pid = Some entry
                ∧ entryCache p ⊆ entryCache p1
                ∧ (size (entryCache p1) ≤ S (size (entryCache p)))%nat
            | (None, _) => entryCache p1 = entryCache p
            end) as [Hstats1 Hsync].
  { destruct (entryCache p !! uint32 pid) as [cached|] eqn:Hcached.
    - destruct Hpost as (-> & Hc & Hstats). rewrite Hc. split; [by intros; rewrite Hstats|].
      split; [done|]. split; [done|]. lia.
    - destruct (enrichEventFromProc _ _ _) as [e1|err] eqn:Henrich.
      + destruct Hpost as (entry & e & -> & Hc & _ & _ & _ & Hstats).
        apply enrich_pid in Henrich. rewrite uint32_int32 in Henrich.
        rewrite Henrich in Hc. rewrite Hc. split.
        { intros c Hsz Hadd. rewrite Hstats by done. rewrite decide_False; [done|].
          simpl. congruence. }
        split; [apply lookup_insert_eq|]. split; [by apply insert_subseteq|].
        by rewrite map_size_insert_None.
      + destruct Hpost as (-> & Hc & Hstats). split; [|done]. intros c Hsz _. by apply Hstats. }
  destruct r as [[entry|] inserted].
  2:{ apply runs_ret. split; [done|]. rewrite Hsync. split; [done|]. split; [lia|].
      split; [by right|]. split; [done|]. exact Hstats1. }
  destruct Hsync as (Hentry & Hsub1 & Hsize1).
  destruct (Halloc1 _ _ Hentry) as [e He].
  apply runs_bind. eapply runs_update; [done|].
  match goal with |- runs _ ?q _ => set (p2 := q) end.
  assert (cacheAllocated p2 ∧ entryCache p2 = entryCache p1 ∧ stats p2 = stats p1)
    as (Halloc2 & Hc2 & Hstats2).
  { subst p2. psimpl. split; [|done]. intros k l Hl. cbv beta. psimpl.
    destruct (decide (entry = l)) as [->|Hne]; [by rewrite lookup_insert_eq|].
    rewrite lookup_insert_ne by done. by apply (Halloc1 k). }
  clearbody p2.
  apply runs_bind.
  eapply runs_weaken; [by apply IH|].
  intros parent p3 (Halloc3 & Hsub3 & Hsize3 & _ & Hparent & Hstats3). cbv beta.
  rewrite Hc2 in Hsub3, Hsize3.
  assert (entryCache p3 !! uint32 pid = Some entry) as Hentry3.
  { by eapply lookup_weaken. }
  apply runs_bind.
  eapply (runs_weaken _ _ (λ _ p4, frame p3 p4 ∧ stats p4 = stats p3)).
  { destruct parent as [parent|]; [|apply runs_ret; split; [apply frame_refl|done]].
    destruct inserted; [|apply runs_ret; split; [apply frame_refl|done]]. unfold when.
    specialize (Hparent parent eq_refl).
    destruct (Halloc3 _ _ Hparent) as [pe Hpe].
    destruct (Halloc3 _ _ Hentry3) as [e3 He3].
    apply runs_bind. eapply runs_load; [done|].
    apply runs_bind. eapply runs_load; [done|].
    unfold SetParentOfForkChild.
    destruct (Equals pe e3);
      (eapply runs_weaken; [by eapply runs_SetAncestor|]);
      by intros _ p4 (Hframe & Hstats & _). }
  intros _ p4 [Hframe4 Hstats4]. apply runs_ret.
  rewrite (frame_entryCache _ _ Hframe4). split.
  { intros k l Hl. cbv beta. apply (frame_allocated p3 p4); [done|].
    apply (Halloc3 k). by rewrite <- (frame_entryCache _ _ Hframe4). }
  split; [by etrans|]. split; [lia|]. split; [done|]. split; [by intros ? [= <-]|].
  intros c Hsz Hadd. rewrite Hstats4, Hstats3 by done. rewrite Hstats2. by apply Hstats1.
Qed.

(** X20: ResolveFromProcfs always returns, and what it returns is what the
    pid map holds under the pid afterwards (pids are 32-bit): a later Get
    finds the same entry.  The pid map only grows, by at most 16 entries (the
    process and its ancestors, one per level of the walk), and is left as it
    was when nothing is returned; apart from the size gauge and the counter
    of entries added from procfs, no counter moves.  This holds when
    enrichEventFromProc writes the pid of the process it reads into the
    entry, as the source does. *)
Theorem ResolveFromProcfs_caches_its_result (pid : Z) (p : EBPFResolver) :
  cacheAllocated p →
  ∃ r p',
    ResolveFromProcfs pid p = Done r p'
    ∧ cacheAllocated p'
    ∧ entryCache p ⊆ entryCache p'
    ∧ (size (entryCache p') ≤ size (entryCache p) + 16)%nat
    ∧ (r = None → entryCache p' = entryCache p)
    ∧ (∀ entry, r = Some entry → result (Get (uint32 pid) p') = Some (Some entry))
    ∧ ∀ c, c ≠ cacheSize → c ≠ addedEntriesFromProcFS → stats p' c = stats p c.
Proof.
  intros Halloc. unfold ResolveFromProcfs.
  pose proof (runs_resolveFromProcfs procResolveMaxDepth pid p Halloc) as Hruns.
  apply runs_Done in Hruns
    as (r & p' & Hrun & Halloc' & Hsub & Hsize & Hnone & Hsome & Hstats).
  exists r, p'. do 4 (split; [done|]). split; [|split; [|done]].
  - intros Hr. by destruct (Hnone Hr).
  - intros entry Hr. unfold Get. munfold. by rewrite (Hsome entry Hr).
Qed.

End ProcfsTier.

Lemma ResolveFromProcfs_caches_its_result_witness :
  (∀ p proc filledProc e1,
     enrichEventFromProc (snapshotEntry p proc) proc filledProc = inl e1 →
     Pid (pidContext e1) = uint32 proc)
  ∧ cacheAllocated Examples.snapshotting
  ∧ ∃ r p',
      ResolveFromProcfs 500 Examples.snapshotting = Done r p'
      ∧ entryCache Examples.snapshotting ⊆ entryCache p'
      ∧ (size (entryCache p') ≤ size (entryCache Examples.snapshotting) + 16)%nat
      ∧ ∀ entry, r = Some entry → result (Get (uint32 500) p') = Some (Some entry).
Proof.
  assert (∀ p proc filledProc e1,
            enrichEventFromProc (snapshotEntry p proc) proc filledProc = inl e1 →
            Pid (pidContext e1) = uint32 proc) as Henrich.
  { intros p proc filledProc e1 [= <-]. reflexivity. }
  assert (cacheAllocated Examples.snapshotting) as Halloc by compute_done.
  split; [exact Henrich|]. split; [exact Halloc|].
  destruct (ResolveFromProcfs_caches_its_result Henrich 500 Examples.snapshotting Halloc)
    as (r & p' & Hrun & _ & Hsub & Hsize & _ & Hsome & _).
  exists r, p'. split; [exact Hrun|]. split; [exact Hsub|]. split; [exact Hsize|exact Hsome].
Defined.

(** Process 500 and its parent, process 1, are read from procfs and cached;
    the walk ends at the parent pid 0. *)
Example ResolveFromProcfs_walks_the_ancestors :
  result (ResolveFromProcfs 500 Examples.snapshotting) = Some (Some 0%nat)
  ∧ (λ p', (entryCache p' !! 500, entryCache p' !! 1, size (entryCache p'),
            stats p' addedEntriesFromProcFS, Ancestor <$> heap p' !! 0%nat))
      <$> final (ResolveFromProcfs 500 Examples.snapshotting)
    = Some (Some 0%nat, Some 1%nat, 2%nat, 2, Some (Some 1%nat))
  ∧ result (ResolveFromProcfs 501 Examples.snapshotting) = Some None.
Proof. repeat split; vm_compute; reflexivity. Qed.

Section Replace.
Context `{Model} `{PathResolverInterface} `{MountResolverInterface}
        `{Resolvers} `{Procfs}.

(** [insertEntry] over a previous entry: the new entry takes the pid, and
    the previous one loses the reference the pid map held. *)
Lemma runs_insertEntry_over (entry prev : nat) (source : Source) (p : EBPFResolver)
    (e pe : ProcessCacheEntry) :
  heap p !! entry = Some e → heap p !! prev = Some pe → prev ≠ entry →
  runs (insertEntry entry (Some prev) source) p (λ _ p',
    entryCache p' = <[Pid (pidContext e) := entry]> (entryCache p)
    ∧ heap p' = <[prev := set_refCount (refCount pe - 1) pe]>
                  (<[entry := set_refCount (refCount e + 1) (set_Source source e)]> (heap p))
    ∧ ∀ c, c ≠ cacheSize →
        stats p' c = if decide (addedCounter source = Some c) then Inc (stats p c)
                     else stats p c).
Proof.
  intros He Hpe Hne. unfold insertEntry.
  apply runs_bind. eapply runs_update; [done|].
  apply runs_bind. eapply runs_load; [psimpl; by rewrite lookup_insert_eq|].
  apply runs_bind. apply runs_modify.
  apply runs_bind. eapply runs_weaken.
  { eapply runs_Retain. psimpl. by rewrite lookup_insert_eq. }
  psimpl. intros _ p1 (Hframe1 & Hstats1 & Hheap1).
  rewrite insert_insert_eq in Hheap1.
  apply runs_bind. eapply runs_weaken.
  { eapply runs_Release. by rewrite Hheap1, lookup_insert_ne. }
  intros _ p2 (Hframe2 & Hstats2 & Hheap2).
  apply runs_bind. eapply runs_load.
  { by rewrite Hheap2, lookup_insert_ne, Hheap1, lookup_insert_eq. }
  apply runs_bind. unfold cgroupAddPID. apply runs_modify.
  set (p3 := match cgroupResolver p2 with
             | Some calls => _
             | None => p2
             end).
  assert (heap p3 = heap p2 ∧ entryCache p3 = entryCache p2 ∧ stats p3 = stats p2)
    as (Hheap3 & Hc3 & Hstats3).
  { subst p3. destruct (cgroupResolver p2); [|done]. by case_bool_decide. }
  apply runs_bind.
  eapply (runs_weaken _ _ (λ _ p4, heap p4 = heap p3 ∧ entryCache p4 = entryCache p3
            ∧ ∀ c, stats p4 c = if decide (addedCounter source = Some c) then Inc (stats p3 c)
                                else stats p3 c)).
  { destruct source; unfold counterInc, addedCounter;
      first [apply runs_ret | apply runs_modify]; psimpl;
      (do 2 (split; [done|])); intros c; unfold bump;
      repeat case_decide; congruence. }
  intros _ p4 (Hheap4 & Hc4 & Hstats4). unfold counterInc. apply runs_modify. psimpl.
  split; [by rewrite Hc4, Hc3, (frame_entryCache _ _ Hframe2), (frame_entryCache _ _ Hframe1)|].
  split; [by rewrite Hheap4, Hheap3, Hheap2, Hheap1|].
  intros c Hc. rewrite bump_other by done.
  by rewrite Hstats4, Hstats3, Hstats2, Hstats1.
Qed.

(** X21: an exec for a pid the cache holds, with a binary that differs from
    the cached one (so it is no exec bomb), replaces the cached entry: the
    new entry takes the context of the previous one (Exec), has it as
    ancestor and is stored under the pid; the previous entry stays allocated
    with the reference count it had, the reference of the pid map having
    become the reference of the ancestor link.  The counter of the source is
    bumped, and the inode-error counter exactly when the inode given with the
    event is not that of the previous entry. *)
Theorem insertExecEntry_replaces_previous (entry : nat) (inode : Z) (source : Source)
    (p : EBPFResolver) (e : ProcessCacheEntry) (prev : nat) (pe : ProcessCacheEntry) :
  heap p !! entry = Some e →
  Pid (pidContext e) ≠ 0 →
  entryCache p !! Pid (pidContext e) = Some prev →
  heap p !! prev = Some pe →
  prev ≠ entry →
  let mismatch := negb (inode =? 0) && negb (Inode (fileFields (fileEvent pe)) =? inode) in
  let e1 := if mismatch then set_IsParentMissing true e else e in
  Equals pe e1 = false →
  ∃ p', insertExecEntry entry inode source p = Done tt p'
        ∧ entryCache p' = <[Pid (pidContext (execCopy pe e1)) := entry]> (entryCache p)
        ∧ heap p' !! entry
          = Some (set_refCount (refCount (execCopy pe e1) + 1)
                    (set_Source source (set_Ancestor (Some prev) (execCopy pe e1))))
        ∧ heap p' !! prev = Some (set_refCount (refCount pe + 1 - 1) pe)
        ∧ stats p' inodeErrStats
          = (if mismatch then Inc (stats p inodeErrStats) else stats p inodeErrStats)
        ∧ (∀ c, addedCounter source = Some c → stats p' c = Inc (stats p c)).
Proof.
  intros He Hpid Hprev Hpe Hne mismatch e1 Hequals. apply Z.eqb_neq in Hpid.
  assert (runs (insertExecEntry entry inode source) p (λ _ p',
            entryCache p' = <[Pid (pidContext (execCopy pe e1)) := entry]> (entryCache p)
            ∧ heap p' !! entry
              = Some (set_refCount (refCount (execCopy pe e1) + 1)
                        (set_Source source (set_Ancestor (Some prev) (execCopy pe e1))))
            ∧ heap p' !! prev = Some (set_refCount (refCount pe + 1 - 1) pe)
            ∧ ∀ c, c ≠ cacheSize →
                stats p' c
                = if decide (addedCounter source = Some c)
                  then Inc (if decide (c = inodeErrStats) then
                              if mismatch then Inc (stats p c) else stats p c
                            else stats p c)
                  else if decide (c = inodeErrStats) then
                         if mismatch then Inc (stats p c) else stats p c
                       else stats p c)) as Hruns.
  { unfold insertExecEntry. apply runs_bind. eapply runs_load; [done|]. rewrite Hpid.
    apply runs_bind, runs_gets. rewrite Hprev.
    apply runs_bind.
    eapply (runs_weaken _ _ (λ _ p1,
              entryCache p1 = entryCache p
              ∧ heap p1 = <[entry := e1]> (heap p)
              ∧ ∀ c, stats p1 c = if decide (c = inodeErrStats) then
                                    if mismatch then Inc (stats p c) else stats p c
                                  else stats p c)).
    { unfold checkExecInode. apply runs_bind. eapply runs_load; [done|].
      fold mismatch. subst e1. destruct mismatch; unfold when.
      - apply runs_bind. eapply runs_update; [done|]. unfold counterInc.
        apply runs_modify. psimpl. do 2 (split; [done|]). intros c. unfold bump.
        repeat case_decide; congruence.
      - apply runs_ret. split; [done|]. split; [by rewrite insert_id|].
        intros c. by case_decide. }
    intros _ p1 (Hc1 & Hheap1 & Hstats1).
    apply runs_bind. eapply runs_load; [by rewrite Hheap1, lookup_insert_ne|].
    apply runs_bind. eapply runs_load; [by rewrite Hheap1, lookup_insert_eq|].
    rewrite Hequals. apply runs_bind.
    eapply (runs_weaken _ _ (λ _ p2,
              entryCache p2 = entryCache p ∧ stats p2 = stats p1
              ∧ heap p2 = <[prev := set_refCount (refCount pe + 1) pe]>
                            (<[entry := set_Ancestor (Some prev) (execCopy pe e1)]> (heap p)))).
    { unfold Exec. apply runs_bind. eapply runs_load; [by rewrite Hheap1, lookup_insert_ne|].
      apply runs_bind. eapply runs_update; [by rewrite Hheap1, lookup_insert_eq|].
      unfold SetAncestor. apply runs_bind.
      eapply runs_update; [psimpl; by rewrite lookup_insert_eq|].
      eapply runs_weaken.
      { eapply runs_Retain. psimpl. rewrite !lookup_insert_ne by done.
        by rewrite Hheap1, lookup_insert_ne. }
      psimpl. intros _ p2 (Hframe2 & Hstats2 & Hheap2).
      rewrite Hheap1, !insert_insert_eq in Hheap2.
      split; [by rewrite (frame_entryCache _ _ Hframe2)|]. done. }
    intros _ p2 (Hc2 & Hstats2 & Hheap2).
    eapply runs_weaken.
    { apply (runs_insertEntry_over entry prev source p2
               (set_Ancestor (Some prev) (execCopy pe e1)) (set_refCount (refCount pe + 1) pe)).
      - by rewrite Hheap2, lookup_insert_ne, lookup_insert_eq.
      - by rewrite Hheap2, lookup_insert_eq.
      - done. }
    intros _ p' (Hc & Hheap & Hstats).
    split; [by rewrite Hc, Hc2|].
    split; [by rewrite Hheap, lookup_insert_ne, lookup_insert_eq|].
    split; [by rewrite Hheap, lookup_insert_eq|].
    intros c Hcs. rewrite Hstats by done. by rewrite Hstats2, !Hstats1. }
  apply runs_Done in Hruns as ([] & p' & Hrun & Hc & He' & Hpe' & Hstats).
  exists p'. do 4 (split; [done|]). split.
  - rewrite Hstats by done. rewrite decide_False by (by destruct source).
    by rewrite decide_True.
  - intros c Hsome. rewrite Hstats by (intros ->; by destruct source).
    rewrite decide_True by done. rewrite decide_False; [done|].
    intros ->. by destruct source.
Qed.

End Replace.

Lemma insertExecEntry_replaces_previous_witness :
  heap Examples.execBomb !! 2%nat = Some (Host.entryOf 100 1 77 1000 3000)
  ∧ entryCache Examples.execBomb !! 100 = Some 0%nat
  ∧ heap Examples.execBomb !! 0%nat = Some (Host.entryOf 100 1 66 1000 2000)
  ∧ Equals (Host.entryOf 100 1 66 1000 2000) (Host.entryOf 100 1 77 1000 3000) = false
  ∧ ∃ p', insertExecEntry 2 66 ProcessCacheEntryFromEvent Examples.execBomb = Done tt p'
          ∧ entryCache p' !! 100 = Some 2%nat
          ∧ Ancestor <$> heap p' !! 2%nat = Some (Some 0%nat)
          ∧ refCount <$> heap p' !! 0%nat = Some 1
          ∧ stats p' inodeErrStats = stats Examples.execBomb inodeErrStats.
Proof.
  assert (heap Examples.execBomb !! 2%nat = Some (Host.entryOf 100 1 77 1000 3000)) as He
    by (vm_compute; reflexivity).
  assert (entryCache Examples.execBomb !! Pid (pidContext (Host.entryOf 100 1 77 1000 3000))
          = Some 0%nat) as Hprev by (vm_compute; reflexivity).
  assert (heap Examples.execBomb !! 0%nat = Some (Host.entryOf 100 1 66 1000 2000)) as Hpe
    by (vm_compute; reflexivity).
  assert (Equals (Host.entryOf 100 1 66 1000 2000) (Host.entryOf 100 1 77 1000 3000) = false)
    as Hequals by (vm_compute; reflexivity).
  split; [exact He|]. split; [exact Hprev|]. split; [exact Hpe|]. split; [exact Hequals|].
  destruct (insertExecEntry_replaces_previous 2 66 ProcessCacheEntryFromEvent
              Examples.execBomb _ 0%nat _ He ltac:(vm_compute; discriminate) Hprev Hpe
              ltac:(discriminate) Hequals)
    as (p' & Hrun & Hc & He' & Hpe' & Herr & _).
  exists p'. split; [exact Hrun|].
  split; [rewrite Hc; vm_compute; reflexivity|].
  split; [rewrite He'; reflexivity|].
  split; [rewrite Hpe'; reflexivity|exact Herr].
Defined.

Section StaleParent.
Context `{Model} `{PathResolverInterface} `{MountResolverInterface}
        `{Resolvers} `{Procfs}.

(** X22: a fork event that names a parent inode other than the inode of the
    parent the cache holds makes insertForkEntry resolve the parent again;
    while the resolver is still snapshotting that resolution stops at the
    cache and finds nothing.  The child is then inserted all the same, linked
    to the cached parent and with its context, but flagged as having a
    missing parent, and one inode error is counted; the miss counter does not
    move. *)
Theorem insertForkEntry_stale_parent (fuel : nat) (entry : nat) (inode : Z)
    (source : Source) (p : EBPFResolver) (e : ProcessCacheEntry) (parent : nat)
    (pe : ProcessCacheEntry) :
  heap p !! entry = Some e →
  Pid (pidContext e) ≠ 0 → Pid (pidContext e) ≠ 1 →
  entryCache p !! Pid (pidContext e) = None →
  entryCache p !! PPid e = Some parent →
  heap p !! parent = Some pe →
  parent ≠ entry →
  1 ≤ PPid e → inode ≠ 0 → Inode (fileFields (fileEvent pe)) ≠ inode →
  state p ≠ Snapshotted →
  let e1 := forkCopy pe (set_IsParentMissing true e) in
  ∃ p', insertForkEntry (S fuel) entry inode source p = Done tt p'
        ∧ entryCache p' = <[Pid (pidContext e1) := entry]> (entryCache p)
        ∧ heap p' !! entry
          = Some (set_refCount (refCount e1 + 1)
                    (set_Source source (set_Ancestor (Some parent) e1)))
        ∧ heap p' !! parent = Some (set_refCount (refCount pe + 1) pe)
        ∧ stats p' inodeErrStats = Inc (stats p inodeErrStats)
        ∧ stats p' missStats = stats p missStats.
Proof.
  intros He Hpid0 Hpid1 Hnone Hparent Hpe Hne Hppid Hinode0 Hinode Hstate e1.
  apply Z.eqb_neq in Hpid0. apply Z.eqb_neq in Hpid1.
  apply Z.leb_le in Hppid. apply Z.eqb_neq in Hinode0. apply Z.eqb_neq in Hstate.
  assert ((inode =? Inode (fileFields (fileEvent pe))) = false) as Hinode'
    by (apply Z.eqb_neq; congruence).
  apply Z.eqb_neq in Hinode.
  assert (resolve (S fuel) (PPid e) (PPid e) inode true p = Done None p) as Hresolve.
  { simpl. unfold resolveWith, resolveFromCache. munfold.
    rewrite Hparent, Hpe, Hinode0, Hinode'. cbn [negb andb]. cbv beta iota.
    by rewrite Hstate. }
  assert (runs (insertForkEntry (S fuel) entry inode source) p (λ _ p',
            entryCache p' = <[Pid (pidContext e1) := entry]> (entryCache p)
            ∧ heap p' !! entry
              = Some (set_refCount (refCount e1 + 1)
                        (set_Source source (set_Ancestor (Some parent) e1)))
            ∧ heap p' !! parent = Some (set_refCount (refCount pe + 1) pe)
            ∧ stats p' inodeErrStats = Inc (stats p inodeErrStats)
            ∧ stats p' missStats = stats p missStats)) as Hruns.
  { unfold insertForkEntry, insertForkEntryWith.
    apply runs_bind. eapply runs_load; [done|]. rewrite Hpid0.
    apply runs_bind, runs_gets. rewrite Hnone.
    apply runs_bind, runs_ret.
    apply runs_bind. eapply runs_load; [done|].
    apply runs_bind. rewrite Hpid1. cbn [negb].
    eapply (runs_weaken _ _ (λ _ p2,
              frame p p2 ∧ stats p2 = bump Inc inodeErrStats (stats p)
              ∧ heap p2 = <[parent := set_refCount (refCount pe + 1) pe]>
                            (<[entry := set_Ancestor (Some parent) e1]> (heap p)))).
    { apply runs_bind, runs_gets. rewrite Hparent.
      apply runs_bind. rewrite Hppid, Hinode0. cbn [negb andb].
      apply runs_bind. eapply runs_load; [done|]. apply runs_ret. rewrite Hinode.
      cbn [negb]. apply runs_bind. apply runs_bind.
      apply runs_Done. exists None, p. split; [exact Hresolve|].
      apply runs_bind. eapply runs_update; [done|].
      apply runs_bind. unfold counterInc. apply runs_modify. apply runs_ret.
      unfold Fork. apply runs_bind. eapply runs_load; [psimpl; by rewrite lookup_insert_ne|].
      apply runs_bind. eapply runs_update; [psimpl; by rewrite lookup_insert_eq|].
      unfold SetAncestor. apply runs_bind.
      eapply runs_update; [psimpl; by rewrite lookup_insert_eq|].
      eapply runs_weaken.
      { eapply runs_Retain. psimpl. by rewrite !lookup_insert_ne. }
      psimpl. intros _ p2 (Hframe2 & Hstats2 & Hheap2).
      rewrite !insert_insert_eq in Hheap2. split; [|done].
      destruct Hframe2 as [Hc Hq Hk Hdom]. psimpl. split; try done.
      rewrite Hdom. rewrite !insert_insert_eq. apply dom_insert_lookup_L. by eexists. }
    intros _ p2 (Hframe2 & Hstats2 & Hheap2).
    eapply runs_weaken.
    { apply (runs_insertEntry_new entry source _ (set_Ancestor (Some parent) e1)).
      rewrite Hheap2, lookup_insert_ne by done. by rewrite lookup_insert_eq. }
    intros _ p' (Hc & Hheap & Hstats).
    split; [by rewrite Hc, (frame_entryCache _ _ Hframe2)|].
    split; [by rewrite Hheap, lookup_insert_eq|].
    split; [by rewrite Hheap, lookup_insert_ne, Hheap2, lookup_insert_eq|].
    rewrite !Hstats by done. rewrite !decide_False by (by destruct source).
    rewrite Hstats2. split; [by rewrite bump_same|by rewrite bump_other]. }
  apply runs_Done in Hruns as ([] & p' & Hrun & Hrest). by exists p'.
Qed.

End StaleParent.

Lemma insertForkEntry_stale_parent_witness :
  heap Scenarios.forkOf30 !! 4%nat = Some (Host.entryOf 40 30 0 3000 0)
  ∧ entryCache Scenarios.forkOf30 !! 40 = None
  ∧ entryCache Scenarios.forkOf30 !! 30 = Some 0%nat
  ∧ heap Scenarios.forkOf30 !! 0%nat = Some (Host.entryOf 30 20 66 1000 2000)
  ∧ state Scenarios.forkOf30 ≠ Snapshotted
  ∧ ∃ p', insertForkEntry 1 4 77 ProcessCacheEntryFromEvent Scenarios.forkOf30 = Done tt p'
          ∧ entryCache p' !! 40 = Some 4%nat
          ∧ (λ x, (IsParentMissing x, Ancestor x)) <$> heap p' !! 4%nat
            = Some (true, Some 0%nat)
          ∧ stats p' inodeErrStats = Inc (stats Scenarios.forkOf30 inodeErrStats).
Proof.
  assert (heap Scenarios.forkOf30 !! 4%nat = Some (Host.entryOf 40 30 0 3000 0)) as He
    by (vm_compute; reflexivity).
  assert (entryCache Scenarios.forkOf30 !! Pid (pidContext (Host.entryOf 40 30 0 3000 0))
          = None) as Hnone by (vm_compute; reflexivity).
  assert (entryCache Scenarios.forkOf30 !! PPid (Host.entryOf 40 30 0 3000 0) = Some 0%nat)
    as Hparent by (vm_compute; reflexivity).
  assert (heap Scenarios.forkOf30 !! 0%nat = Some (Host.entryOf 30 20 66 1000 2000)) as Hpe
    by (vm_compute; reflexivity).
  assert (state Scenarios.forkOf30 ≠ Snapshotted) as Hstate by (vm_compute; discriminate).
  split; [exact He|]. split; [exact Hnone|]. split; [exact Hparent|]. split; [exact Hpe|].
  split; [exact Hstate|].
  destruct (insertForkEntry_stale_parent 0 4 77 ProcessCacheEntryFromEvent
              Scenarios.forkOf30 _ 0%nat _ He ltac:(vm_compute; discriminate)
              ltac:(vm_compute; discriminate) Hnone Hparent Hpe ltac:(discriminate)
              ltac:(vm_compute; discriminate) ltac:(discriminate)
              ltac:(vm_compute; discriminate) Hstate)
    as (p' & Hrun & Hc & He' & _ & Herr & _).
  exists p'. split; [exact Hrun|].
  split; [rewrite Hc; vm_compute; reflexivity|].
  split; [rewrite He'; vm_compute; reflexivity|exact Herr].
Defined.

Section Keeps.
Context {B : Type} (f : EBPFResolver → B).

Lemma keeps_ret {A} (a : A) : keeps f (ret a).
Proof. by intros p a' p' [= _ <-]. Qed.

Lemma keeps_panic {A} : keeps f (panic : M A).
Proof. by intros p a p'. Qed.

Lemma keeps_gets {A} (g : EBPFResolver → A) : keeps f (gets g).
Proof. by intros p a p' [= _ <-]. Qed.

Lemma keeps_modify (g : EBPFResolver → EBPFResolver) :
  (∀ p, f (g p) = f p) → keeps f (modify g).
Proof. intros Hg p a p' [= _ <-]. apply Hg. Qed.

Lemma keeps_bind {A C} (m : M A) (k : A → M C) :
  keeps f m → (∀ a, keeps f (k a)) → keeps f (bind m k).
Proof.
  intros Hm Hk p c p'. unfold bind. destruct (m p) as [a p1| |] eqn:Hrun; [|done..].
  intros Hrun'. rewrite (Hk a p1 c p' Hrun'). by eapply Hm.
Qed.

Lemma keeps_load (l : nat) : keeps f (load l).
Proof. intros p a p'. unfold load. destruct (heap p !! l); [|done]. by intros [= _ <-]. Qed.

Lemma keeps_when (b : bool) (m : M unit) : keeps f m → keeps f (when b m).
Proof. destruct b; [done|]. intros _. apply keeps_ret. Qed.

End Keeps.

Section KernelMapsFailure.
Context `{Model} `{PathResolverInterface} `{MountResolverInterface}
        `{Resolvers} `{Procfs}.

(** A component of the resolver that the preparation of a new entry does
    not write: it is indifferent to the entries, the staging buffer, the pool,
    the cookie counter, and to the counters of path errors and of argv and
    envp. *)
Variable B : Type.
Variable f : EBPFResolver → B.
Hypothesis f_heap : ∀ h p, f (set_heap h p) = f p.
Hypothesis f_args : ∀ c p, f (set_argsEnvsCache c p) = f p.
Hypothesis f_pool : ∀ l p, f (set_processCacheEntryPool l p) = f p.
Hypothesis f_cookies : ∀ n p, f (set_cookies n p) = f p.
Hypothesis f_stats : ∀ g c p,
  c ∈ [pathErrStats; argsTruncated; argsSize; envsTruncated; envsSize] →
  f (set_stats (bump g c (stats p)) p) = f p.

Ltac keeps_modify :=
  apply keeps_modify; intros;
  first [ apply f_heap | apply f_args | apply f_pool | apply f_cookies
        | apply f_stats; set_solver ].

Ltac keeps_auto :=
  repeat first
    [ apply keeps_ret | apply keeps_panic | apply keeps_gets | apply keeps_load
    | apply keeps_bind; [|intros ?]
    | apply keeps_when
    | keeps_modify
    | match goal with
      | |- keeps _ (match ?x with _ => _ end) => destruct x
      | |- keeps _ (if ?b then _ else _) => destruct b
      end ].

Lemma keeps_update (l : nat) (g : ProcessCacheEntry → ProcessCacheEntry) :
  keeps f (update l g).
Proof. unfold update, store. keeps_auto. Qed.

Lemma keeps_store (l : nat) (e : ProcessCacheEntry) : keeps f (store l e).
Proof. unfold store. keeps_auto. Qed.

Lemma keeps_NewProcessCacheEntry (pidCtx : PIDContext) :
  keeps f (NewProcessCacheEntry pidCtx).
Proof.
  unfold NewProcessCacheEntry. apply keeps_bind.
  - intros p l p'. unfold Pool_Get. destruct (processCacheEntryPool p); intros [= _ <-];
      by rewrite ?f_pool, f_heap.
  - intros l. keeps_auto.
Qed.

Lemma keeps_SetProcessPath (fileEvent : FileEvent) (pce : nat) (ctrCtx : ContainerContext) :
  keeps f (SetProcessPath fileEvent pce ctrCtx).
Proof.
  unfold SetProcessPath, onError, resolveFileFieldsPath, counterInc.
  destruct (Inode (fileFields fileEvent) =? 0); [keeps_auto|].
  apply keeps_bind.
  - intros p r p' Hloop. by apply resolveFileFieldsPathLoop_reads in Hloop as ->.
  - intros r. keeps_auto.
Qed.

Lemma keeps_resolveContextFields (entry : nat) : keeps f (resolveContextFields entry).
Proof.
  unfold resolveContextFields, SetProcessArgs, SetProcessEnvs, SetProcessTTY,
    SetProcessUsersGroups, ApplyBootTime, SetProcessSymlink, SetProcessFilesystem,
    lruGet, lruRemove, counterInc, counterAdd.
  repeat first [ apply keeps_update | progress keeps_auto ].
Qed.

Lemma keeps_ResolveNewProcessCacheEntry (entry : nat) (ctrCtx : ContainerContext) :
  keeps f (ResolveNewProcessCacheEntry entry ctrCtx).
Proof.
  unfold ResolveNewProcessCacheEntry.
  repeat first [ apply keeps_update | apply keeps_SetProcessPath
               | apply keeps_resolveContextFields | progress keeps_auto ].
Qed.

Lemma answers_ret {A} (a : A) : answers (ret (Some a)).
Proof. by intros p p'. Qed.

Lemma answers_bind {A C} (m : M A) (k : A → M (option C)) :
  (∀ a, answers (k a)) → answers (bind m k).
Proof.
  intros Hk p p'. unfold bind. destruct (m p) as [a p1| |]; [apply Hk|done..].
Qed.

(** A kernel-map resolution that yields nothing has stopped before the
    insertion: after it every answer is an entry. *)
Lemma resolveFromKernelMapsWith_none (resolve : ResolveFn) (pid tid inode : Z)
    (p p' : EBPFResolver) :
  resolveFromKernelMapsWith resolve pid tid inode p = Done None p' → f p' = f p.
Proof.
  unfold resolveFromKernelMapsWith. destruct (pid =? 0); [by intros [= <-]|].
  unfold bind at 1, gets at 1.
  destruct (pidCacheMap p !! pid) as [pidCache|]; [|by intros [= <-]].
  destruct (negb _); [done|]. unfold bind at 1, gets at 1.
  destruct (procCacheMap p !! _) as [procCache|]; [|by intros [= <-]].
  unfold bind at 1.
  destruct (NewProcessCacheEntry _ p) as [entry p1| |] eqn:Hnew; [|done..].
  apply keeps_NewProcessCacheEntry in Hnew. rewrite <- Hnew. clear Hnew. revert p1.
  destruct (UnmarshalContainerContext procCache) as [[ctrCtx read]|]; [|by intros p1 [= <-]].
  destruct (UnmarshalCGroupContext procCache) as [[cgroupCtx cgroupRead]|];
    [|by intros p1 [= <-]].
  destruct (negb _); [done|]. intros p1. unfold bind at 1.
  destruct (load entry p1) as [e p2| |] eqn:Hload; [|done..].
  apply (keeps_load f) in Hload. rewrite <- Hload. clear Hload p1.
  destruct (UnmarshalProcEntryBinary e _) as [e1|]; [|by intros [= <-]].
  unfold bind at 1.
  destruct (store entry e1 p2) as [[] p3| |] eqn:Hstore; [|done..].
  apply keeps_store in Hstore. rewrite <- Hstore. clear Hstore p2.
  destruct (_ && _); [by intros [= <-]|].
  destruct (UnmarshalPidCacheBinary e1 pidCache) as [e2|]; [|by intros [= <-]].
  unfold bind at 1.
  destruct (store entry e2 p3) as [[] p4| |] eqn:Hstore; [|done..].
  apply keeps_store in Hstore. rewrite <- Hstore. clear Hstore p3.
  unfold bind at 1.
  destruct (ResolveNewProcessCacheEntry entry ctrCtx p4) as [err p5| |] eqn:Hresolve;
    [|done..].
  apply keeps_ResolveNewProcessCacheEntry in Hresolve. rewrite <- Hresolve.
  clear Hresolve p4.
  destruct err as [err|]; [by intros [= <-]|].
  intros Hnone. exfalso. revert Hnone.
  repeat (apply answers_bind; intros ?). apply answers_ret.
Qed.

End KernelMapsFailure.

Section KernelMapsTier.
Context `{Model} `{PathResolverInterface} `{MountResolverInterface}
        `{Resolvers} `{Procfs}.

(** X23: whatever makes the kernel-map tier return none (no row for the pid
    or for its cookie, a row that does not decode, an inode that does not
    match, a path that does not resolve), it has inserted nothing: the pid
    map, the two kernel tables and the exited queue are as before, and so are
    all the counters but those of path errors and of the argv and envp
    claimed on the way.  In particular the hit, miss and added counters and the
    size gauge do not move. *)
Theorem resolveFromKernelMaps_none_inserts_nothing (fuel : nat) (pid tid inode : Z)
    (p p' : EBPFResolver) :
  resolveFromKernelMaps fuel pid tid inode p = Done None p' →
  entryCache p' = entryCache p
  ∧ pidCacheMap p' = pidCacheMap p
  ∧ procCacheMap p' = procCacheMap p
  ∧ exitedQueue p' = exitedQueue p
  ∧ ∀ c, c ∉ [pathErrStats; argsTruncated; argsSize; envsTruncated; envsSize] →
      stats p' c = stats p c.
Proof.
  intros Hnone. unfold resolveFromKernelMaps in Hnone.
  repeat apply conj;
    try (revert Hnone; by apply resolveFromKernelMapsWith_none).
  intros c Hc. revert Hnone.
  apply (resolveFromKernelMapsWith_none _ (λ q, stats q c)); try done.
  intros g c' q Hc'. psimpl. apply bump_other. by intros ->.
Qed.

End KernelMapsTier.

Lemma resolveFromKernelMaps_none_inserts_nothing_witness :
  resolveFromKernelMaps 0 500 500 66 Examples.kernelMaps = Done None Scenarios.rejected
  ∧ entryCache Scenarios.rejected = entryCache Examples.kernelMaps
  ∧ stats Scenarios.rejected cacheSize = stats Examples.kernelMaps cacheSize
  ∧ stats Scenarios.rejected addedEntriesFromKernelMap
    = stats Examples.kernelMaps addedEntriesFromKernelMap.
Proof.
  assert (resolveFromKernelMaps 0 500 500 66 Examples.kernelMaps
          = Done None Scenarios.rejected) as Hrun by (vm_compute; reflexivity).
  split; [exact Hrun|].
  destruct (resolveFromKernelMaps_none_inserts_nothing 0 500 500 66 Examples.kernelMaps
              Scenarios.rejected Hrun) as (Hc & _ & _ & _ & Hstats).
  split; [exact Hc|]. split; apply Hstats; compute_done.
Defined.

(** The rejected row has cost one path error and one entry of the pool. *)
Example resolveFromKernelMaps_rejection_cost :
  stats Scenarios.rejected pathErrStats = 1
  ∧ size (heap Scenarios.rejected) = 1%nat
  ∧ size (heap Examples.kernelMaps) = 0%nat.
Proof. repeat split; vm_compute; reflexivity. Qed.

Section Fallback.
Context `{Model} `{PathResolverInterface} `{MountResolverInterface}
        `{Resolvers} `{Procfs}.

Hypothesis enrich_pid : ∀ p proc filledProc e1,
  enrichEventFromProc (snapshotEntry p proc) proc filledProc = inl e1 →
  Pid (pidContext e1) = uint32 proc.

(** The rate limiter writes its own table only, and refuses a pid exactly
    when it let it through less than a period ago. *)
Lemma runs_Allow (pid : Z) (p : EBPFResolver) :
  runs (Allow pid) p (λ allowed p',
    entryCache p' = entryCache p ∧ heap p' = heap p ∧ stats p' = stats p
    ∧ (allowed = false ↔
         ∃ t, lruFind pid (procFallbackLimiter p) = Some t
              ∧ clock p < t + procFallbackLimiterPeriod)).
Proof.
  unfold Allow. apply runs_bind, runs_gets. apply runs_bind, runs_gets.
  destruct (lruFind pid (procFallbackLimiter p)) as [t|].
  - destruct (Z.ltb_spec (clock p) (t + procFallbackLimiterPeriod)) as [Hlt|Hge];
      apply runs_bind, runs_modify; apply runs_ret; psimpl; do 3 (split; [done|]).
    + split; [|done]. intros _. by exists t.
    + split; [done|]. intros (t' & [= <-] & Hlt). lia.
  - apply runs_bind, runs_modify. apply runs_ret. psimpl. do 3 (split; [done|]).
    split; [done|]. by intros (t & [=] & _).
Qed.

(** X24: the last tier of resolve.  Once Snapshotted, a call with procfs
    allowed for a pid that neither the cache nor pid_cache knows always
    returns.  When it returns an entry, the entry is the one the pid map holds
    under the pid afterwards and the procfs-hit counter has grown by one;
    when it returns none, the pid map is as before and the miss counter has
    grown by one.  A pid that the rate limiter let through less than a period ago
    is refused: the call returns none without reading procfs, and no entry is
    written.  As for ResolveFromProcfs, enrichEventFromProc is taken to write
    the pid of the process it reads into the entry. *)
Theorem resolve_procfs_fallback (fuel : nat) (pid tid inode : Z) (p : EBPFResolver) :
  cacheAllocated p →
  state p = Snapshotted →
  entryCache p !! pid = None →
  pidCacheMap p !! pid = None →
  ∃ r p',
    resolve (S fuel) pid tid inode true p = Done r p'
    ∧ (∀ entry, r = Some entry →
         entryCache p' !! uint32 pid = Some entry
         ∧ stats p' hitsStats_ProcFSTag = Inc (stats p hitsStats_ProcFSTag)
         ∧ stats p' missStats = stats p missStats)
    ∧ (r = None →
         entryCache p' = entryCache p
         ∧ stats p' missStats = Inc (stats p missStats)
         ∧ stats p' hitsStats_ProcFSTag = stats p hitsStats_ProcFSTag)
    ∧ ((∃ t, lruFind pid (procFallbackLimiter p) = Some t
             ∧ clock p < t + procFallbackLimiterPeriod) →
       r = None ∧ heap p' = heap p).
Proof.
  intros Halloc Hstate Hcache Hpid.
  assert (resolveFromCache pid tid inode p = Done None p) as Hmiss.
  { unfold resolveFromCache. munfold. by rewrite Hcache. }
  rewrite (resolve_falls_back_to_procfs fuel pid tid inode p Hstate Hmiss Hpid).
  apply runs_Done. unfold resolveProcfsTier. apply runs_bind.
  eapply runs_weaken; [apply runs_Allow|].
  intros allowed p1 (Hc1 & Hheap1 & Hstats1 & Hallowed). cbv beta.
  assert (cacheAllocated p1) as Halloc1.
  { intros k l. rewrite Hc1, Hheap1. apply Halloc. }
  apply runs_bind. destruct allowed.
  - eapply runs_weaken; [by apply runs_resolveFromProcfs|].
    intros r p2 (_ & _ & _ & Hnone & Hsome & Hstats2). cbv beta.
    destruct r as [entry|]; apply runs_bind; unfold counterInc; apply runs_modify;
      apply runs_ret; psimpl.
    + split; [|split; [done|]].
      * intros ? [= <-]. split; [by apply Hsome|].
        rewrite bump_same, bump_other by done. by rewrite !Hstats2, Hstats1.
      * intros Hrefused. apply Hallowed in Hrefused. done.
    + split; [done|]. split.
      * intros _. destruct (Hnone eq_refl) as [Hdepth|Hc2]; [done|].
        split; [by rewrite Hc2|]. rewrite bump_same, bump_other by done.
        by rewrite !Hstats2, Hstats1.
      * intros Hrefused. apply Hallowed in Hrefused. done.
  - apply runs_ret. apply runs_bind. unfold counterInc. apply runs_modify. apply runs_ret.
    psimpl. split; [done|]. split; [|done].
    intros _. split; [done|]. rewrite bump_same, bump_other by done. by rewrite Hstats1.
Qed.

End Fallback.

Lemma resolve_procfs_fallback_witness :
  (∀ p proc filledProc e1,
     enrichEventFromProc (snapshotEntry p proc) proc filledProc = inl e1 →
     Pid (pidContext e1) = uint32 proc)
  ∧ cacheAllocated Scenarios.snapshotted
  ∧ state Scenarios.snapshotted = Snapshotted
  ∧ entryCache Scenarios.snapshotted !! 500 = None
  ∧ pidCacheMap Scenarios.snapshotted !! 500 = None
  ∧ ∃ r p',
      resolve 1 500 500 0 true Scenarios.snapshotted = Done r p'
      ∧ (∀ entry, r = Some entry →
           entryCache p' !! uint32 500 = Some entry
           ∧ stats p' hitsStats_ProcFSTag
             = Inc (stats Scenarios.snapshotted hitsStats_ProcFSTag)
           ∧ stats p' missStats = stats Scenarios.snapshotted missStats)
      ∧ (r = None →
           entryCache p' = entryCache Scenarios.snapshotted
           ∧ stats p' missStats = Inc (stats Scenarios.snapshotted missStats)
           ∧ stats p' hitsStats_ProcFSTag = stats Scenarios.snapshotted hitsStats_ProcFSTag).
Proof.
  assert (∀ p proc filledProc e1,
            enrichEventFromProc (snapshotEntry p proc) proc filledProc = inl e1 →
            Pid (pidContext e1) = uint32 proc) as Henrich.
  { intros p proc filledProc e1 [= <-]. reflexivity. }
  assert (cacheAllocated Scenarios.snapshotted) as Halloc by compute_done.
  assert (state Scenarios.snapshotted = Snapshotted) as Hstate by reflexivity.
  assert (entryCache Scenarios.snapshotted !! 500 = None) as Hcache
    by (vm_compute; reflexivity).
  assert (pidCacheMap Scenarios.snapshotted !! 500 = None) as Hpid
    by (vm_compute; reflexivity).
  split; [exact Henrich|]. do 4 (split; [assumption|]).
  destruct (resolve_procfs_fallback Henrich 0 500 500 0 Scenarios.snapshotted
              Halloc Hstate Hcache Hpid) as (r & p' & Hrun & Hsome & Hnone & _).
  exists r, p'. split; [exact Hrun|]. split; [exact Hsome|exact Hnone].
Defined.

(** Process 500 is found in procfs; pid 501 is not, and asking again within
    the period is refused: two misses, and procfs was read once. *)
Example resolve_procfs_fallback_cases :
  (λ p', (entryCache p' !! 500, stats p' hitsStats_ProcFSTag, stats p' missStats))
    <$> final (resolve 1 500 500 0 true Scenarios.snapshotted)
  = Some (Some 0%nat, 1, 0)
  ∧ (λ p', (size (entryCache p'), stats p' missStats, procFallbackLimiter p'))
      <$> final ((resolve 1 501 501 0 true >> resolve 1 501 501 0 true) Scenarios.snapshotted)
    = Some (0%nat, 2, [(501, 5000)]).
Proof. split; vm_compute; reflexivity. Qed.
